(** * The SQL validation and execution gateway

    A shallow embedding of the [_run] methods that guard the database:

    - [SecureSchoolSQLTool._run] of [main.py]   (single statement, read/write),
    - [SecureSchoolSQLTool._run] of [app.py]    (statement batch, read/write),
    - [SafeSQLTool._run] of [scripts/gemini_agent.py] (single statement, read only),
    - [SecureSchoolSQLTool._run] of the three school agents under [SQLAgent/]
      (single statement, read only),

    and of what stands around them in the chat agents: the context window,
    the clean-up of the answer of the language model, the conversational
    questions and the way from a question to the gateway.

    Python strings are lists of characters; a character is a code point below
    256, and the character classes used by [str.strip], [str.split] and the
    [re] module follow CPython's Unicode tables on that range.  The database
    driver (SQLAlchemy connection, cursor, commit) is a parameter of the
    development: the gateway is verified for every driver. *)

From Stdlib Require Import List Ascii String Bool NArith ZArith Lia.
Import ListNotations.

(** ** Characters and Python string methods *)

Definition str := list ascii.

(** A string literal of the source. *)
Definition lit (s : string) : str := list_ascii_of_string s.

Definition code (c : ascii) : N := N_of_ascii c.

Definition between (lo hi : N) (c : ascii) : bool :=
  ((lo <=? code c) && (code c <=? hi))%N.

(** [str.isspace] on one character (also the class [\s] of [re]):
    TAB..CR, FS..US, SPACE, NEL and NO-BREAK SPACE. *)
Definition isspace (c : ascii) : bool :=
  between 9 13 c || between 28 32 c || between 133 133 c || between 160 160 c.

(** The class [\d] of [re]: decimal digits. *)
Definition isdecimal (c : ascii) : bool := between 48 57 c.

(** [str.isalnum] on one character: letters, digits and the numeric
    characters of Latin-1 (superscripts and vulgar fractions included). *)
Definition isalnum (c : ascii) : bool :=
  between 48 57 c || between 65 90 c || between 97 122 c
  || between 170 170 c || between 178 179 c || between 181 181 c
  || between 185 186 c || between 188 190 c
  || between 192 214 c || between 216 246 c || between 248 255 c.

(** The class [\w] of [re]. *)
Definition is_word (c : ascii) : bool := isalnum c || between 95 95 c.

(** Case folding as [re.I] applies it against the ASCII letters of a pattern:
    no character above 127 folds to an ASCII letter, so only [A-Z] move. *)
Definition lower (c : ascii) : ascii :=
  if between 65 90 c then ascii_of_N (code c + 32) else c.

(** [str.upper] on one character.  [ß] becomes [SS]; the letters of Latin-1
    whose capital is again in Latin-1 are shifted; MICRO SIGN and [ÿ], whose
    capitals lie above 255, are kept as they are. *)
Definition upper_char (c : ascii) : str :=
  if between 97 122 c then [ascii_of_N (code c - 32)]
  else if between 223 223 c then lit "SS"
  else if between 224 246 c || between 248 254 c then [ascii_of_N (code c - 32)]
  else [c].

Definition upper (s : str) : str := flat_map upper_char s.

Fixpoint drop_while (p : ascii -> bool) (s : str) : str :=
  match s with
  | [] => []
  | c :: t => if p c then drop_while p t else s
  end.

Definition lstrip_by (p : ascii -> bool) (s : str) : str := drop_while p s.

Definition rstrip_by (p : ascii -> bool) (s : str) : str :=
  rev (drop_while p (rev s)).

(** [s.strip()] *)
Definition strip (s : str) : str := rstrip_by isspace (lstrip_by isspace s).

Definition mem_char (chars : str) (c : ascii) : bool :=
  existsb (Ascii.eqb c) chars.

(** [s.rstrip(chars)] *)
Definition rstrip (chars : str) (s : str) : str := rstrip_by (mem_char chars) s.

(** [sql.strip().rstrip(";")] *)
Definition normalise (sql : str) : str := rstrip (lit ";") (strip sql).

(** A string in a condition: true unless it is empty. *)
Definition truthy (s : str) : bool :=
  match s with [] => false | _ :: _ => true end.

(** [c in s] for a one-character string [c]. *)
Definition contains (c : ascii) (s : str) : bool := existsb (Ascii.eqb c) s.

(** [s.split(sep)] for a one-character separator: every occurrence of the
    separator ends a piece, and empty pieces are kept. *)
Fixpoint split (sep : ascii) (s : str) : list str :=
  match s with
  | [] => [[]]
  | c :: t =>
      if Ascii.eqb c sep then [] :: split sep t
      else match split sep t with
           | [] => [[c]]
           | p :: ps => (c :: p) :: ps
           end
  end.

(** [s.split()]: the maximal runs of non-space characters. *)
Fixpoint split_ws_aux (cur : str) (s : str) : list str :=
  match s with
  | [] => match cur with [] => [] | _ => [rev cur] end
  | c :: t =>
      if isspace c
      then match cur with [] => split_ws_aux [] t | _ => rev cur :: split_ws_aux [] t end
      else split_ws_aux (c :: cur) t
  end.

Definition split_ws (s : str) : list str := split_ws_aux [] s.

(** ** Regular expressions

    The patterns of the source use literals, character classes, [\b], [^],
    [*], [+] and alternation.  A pattern is embedded as a backtracking matcher
    in continuation-passing style: it receives the character before the
    current position (none at the start of the string), the rest of the input
    and what must match afterwards.  The source only tests whether a match
    exists, so matchers answer with a boolean. *)

Module Re.

Definition cont := option ascii -> str -> bool.
Definition t := cont -> cont.

Definition accept : cont := fun _ _ => true.

Definition eps : t := fun k => k.
Definition fail : t := fun _ _ _ => false.

Definition chr (p : ascii -> bool) : t := fun k _ s =>
    match s with
    | c :: rest => p c && k (Some c) rest
    | [] => false
    end.

Definition seq (a b : t) : t := fun k => a (b k).
Definition alt (a b : t) : t := fun k prev s => a k prev s || b k prev s.

  (** A literal character under [re.I]. *)
Definition chr_i (c : ascii) : t := chr (fun x => Ascii.eqb (lower x) (lower c)).

  (** A literal character that has no case. *)
Definition chr_eq (c : ascii) : t := chr (Ascii.eqb c).

Fixpoint word_i (w : str) : t :=
    match w with
    | [] => eps
    | c :: rest => seq (chr_i c) (word_i rest)
    end.

Definition word_opt (o : option ascii) : bool :=
    match o with Some c => is_word c | None => false end.

  (** [\b]: exactly one of the two neighbours is a word character. *)
Definition wb : t := fun k prev s =>
    xorb (word_opt prev) (word_opt (hd_error s)) && k prev s.

  (** [^] (no MULTILINE flag in the source). *)
Definition bos : t := fun k prev s =>
    match prev with None => k prev s | Some _ => false end.

  (** [p*] for a character class, greedy with backtracking. *)
Fixpoint star (p : ascii -> bool) (k : cont) (prev : option ascii) (s : str) : bool :=
    match s with
    | c :: rest => (p c && star p k (Some c) rest) || k prev s
    | [] => k prev s
    end.

Definition plus (p : ascii -> bool) : t := seq (chr p) (star p).

Definition alts (rs : list t) : t := fold_right alt fail rs.
Definition seqs (rs : list t) : t := fold_right seq eps rs.

Definition words (ws : list string) : t := alts (map (fun w => word_i (lit w)) ws).

Fixpoint search_from (r : t) (prev : option ascii) (s : str) : bool :=
    r accept prev s ||
    match s with
    | c :: rest => search_from r (Some c) rest
    | [] => false
    end.

  (** [re.search(r, s)] is not [None]. *)
Definition search (r : t) (s : str) : bool := search_from r None s.

  (** [re.match(r, s)] is not [None]. *)
Definition match_ (r : t) (s : str) : bool := r accept None s.

End Re.

(** ** The patterns of the source *)

(** [\b(INSERT|UPDATE|DELETE|CREATE|ALTER|REPLACE)\b] *)
Definition write_keywords : list string :=
  ["INSERT"; "UPDATE"; "DELETE"; "CREATE"; "ALTER"; "REPLACE"]%string.
Definition write_re : Re.t := Re.seqs [Re.wb; Re.words write_keywords; Re.wb].

(** [\b(DROP|TRUNCATE|EXEC|EXECUTE)\b] *)
Definition dangerous_keywords : list string :=
  ["DROP"; "TRUNCATE"; "EXEC"; "EXECUTE"]%string.
Definition dangerous_re : Re.t := Re.seqs [Re.wb; Re.words dangerous_keywords; Re.wb].

(** [(?is)^\s*(select|update|insert|delete)\b] *)
Definition allowed_keywords : list string :=
  ["select"; "update"; "insert"; "delete"]%string.
Definition allowed_re : Re.t :=
  Re.seqs [Re.bos; Re.star isspace; Re.words allowed_keywords; Re.wb].

(** [(?is)^\s*select\b] *)
Definition select_re : Re.t :=
  Re.seqs [Re.bos; Re.star isspace; Re.word_i (lit "select"); Re.wb].

(** [\blimit\s+\d+\b] *)
Definition limit_re : Re.t :=
  Re.seqs [Re.wb; Re.word_i (lit "limit"); Re.plus isspace; Re.plus isdecimal; Re.wb].

(** [\bcount\(|\bgroup\s+by\b|\bsum\(|\bavg\(|\bmax\(|\bmin\(] *)
Definition call_re (f : string) : Re.t :=
  Re.seqs [Re.wb; Re.word_i (lit f); Re.chr_eq "("%char].
Definition group_by_tail : Re.t :=
  Re.seqs [Re.word_i (lit "group"); Re.plus isspace; Re.word_i (lit "by"); Re.wb].
Definition aggregate_re : Re.t :=
  Re.alts [call_re "count"; Re.seq Re.wb group_by_tail; call_re "sum";
           call_re "avg"; call_re "max"; call_re "min"].

(** The read-only tool of [gemini_agent.py] spells two of its patterns
    differently.  Its keyword pattern is
    [\b(INSERT|UPDATE|DELETE|DROP|TRUNCATE|ALTER|CREATE|REPLACE)\b].  In its
    aggregate pattern the second alternative does not start with the word
    boundary [\b] of the other tools: the source line holds the control
    character BACKSPACE (code point 8) at that place, a literal character
    that the matcher wants in the text.  With [<BS>] for that character the
    pattern is [\bcount\(|<BS>group\s+by\b|\bsum\(|\bavg\(|\bmax\(|\bmin\(]. *)
Definition forbidden_keywords : list string :=
  ["INSERT"; "UPDATE"; "DELETE"; "DROP"; "TRUNCATE"; "ALTER"; "CREATE"; "REPLACE"]%string.
Definition forbidden_re : Re.t := Re.seqs [Re.wb; Re.words forbidden_keywords; Re.wb].
Definition backspace : ascii := "008"%char.
Definition aggregate_re_ro : Re.t :=
  Re.alts [call_re "count"; Re.seq (Re.chr_eq backspace) group_by_tail;
           call_re "sum"; call_re "avg"; call_re "max"; call_re "min"].

(** ** The data source and the values returned to the caller *)

(** What a cursor gives back: [result.keys()] and [result.fetchall()]. *)
Record cursor (V : Type) := Cursor { keys : list str; fetchall : list (list V) }.

Arguments Cursor {V} _ _.
Arguments keys {V} _.
Arguments fetchall {V} _.

(** The database behind [engine]: its committed contents, what
    [conn.exec_driver_sql] does on them (it raises, or yields a cursor and the
    contents as the open transaction sees them) and what [conn.commit] does
    with those (it raises, or makes them the committed contents).  A
    connection that is closed without a commit leaves the committed contents
    as they were. *)
Record driver := Driver {
  DB : Type;
  Value : Type;
  exec_driver_sql : str -> DB -> str + (cursor Value * DB);
  commit : DB -> str + DB
}.

(** What the data source sees of an invocation. *)
Inductive event :=
| Connect
| Execute (statement : str)
| Commit
| Close.

Record world (D : driver) := World { db : DB D; trace : list event }.

Arguments World {D} _ _.
Arguments db {D} _.
Arguments trace {D} _.

(** The values [_run] returns: a string, the dictionary
    [{"columns": cols, "rows": rows}], or a list of those. *)
#[warnings="-register-all"]
Inductive pyval (V : Type) :=
| PStr (s : str)
| PDict (columns : list str) (rows : list (list V))
| PList (items : list (pyval V)).

Arguments PStr {V} _.
Arguments PDict {V} _ _.
Arguments PList {V} _.

(** The security manager, as far as the gateway reads it. *)
Record SecurityManager := { is_authenticated : bool }.

(** [not self._security_manager or not <is_authenticated>] *)
Definition not_authenticated (sm : option SecurityManager) : bool :=
  match sm with
  | None => true
  | Some m => negb (is_authenticated m)
  end.

Definition err_dangerous : str :=
  lit "ERROR: Dangerous operations (DROP, TRUNCATE, EXEC) are not allowed for security reasons.".
Definition err_auth : str :=
  lit "ERROR: Write operations require authentication. Please authenticate first.".
Definition err_multiple : str := lit "ERROR: Multiple statements are not allowed.".
Definition err_only : str :=
  lit "ERROR: Only SELECT, UPDATE, INSERT, DELETE statements are allowed.".

(** The messages of the validation layers. *)
Definition validation_errors : list str :=
  [err_dangerous; err_auth; err_multiple; err_only].

Section Connection.

Variable D : driver.

Definition logged (es : list event) (w : world D) : world D :=
    World (db w) (trace w ++ es).

  (** The [with engine.connect() as conn:] block of the read/write tools.
      [inl e] stands for an exception whose text is [e] leaving the block,
      [inr v] for the value the block produces. *)
Definition with_connection (s : str) (w : world D)
    : (str + pyval (Value D)) * world D :=
    match exec_driver_sql D s (db w) with
    | inl e => (inl e, logged [Connect; Execute s; Close] w)
    | inr (result, pending) =>
        if Re.match_ select_re s then
          (inr (PDict (keys result) (fetchall result)),
           logged [Connect; Execute s; Close] w)
        else
          match commit D pending with
          | inl e => (inl e, logged [Connect; Execute s; Commit; Close] w)
          | inr db' =>
              let w' := World db' (trace w ++ [Connect; Execute s; Commit; Close]) in
              match split_ws s with
              | [] => (inl (lit "list index out of range"), w')
              | operation :: _ =>
                  (inr (PStr (upper operation ++ lit " operation completed successfully")), w')
              end
          end
    end.

  (** The block of the read-only tool: every statement is fetched. *)
Definition with_connection_ro (s : str) (w : world D)
    : (str + pyval (Value D)) * world D :=
    match exec_driver_sql D s (db w) with
    | inl e => (inl e, logged [Connect; Execute s; Close] w)
    | inr (result, _) =>
        (inr (PDict (keys result) (fetchall result)),
         logged [Connect; Execute s; Close] w)
    end.

End Connection.

Arguments logged {D} _ _.
Arguments with_connection {D} _ _.
Arguments with_connection_ro {D} _ _.

(** ** [main.py]: one statement per call *)

Module Main.
Section Gateway.

Variable D : driver.

Definition _run (sm : option SecurityManager) (sql : str) (w : world D)
    : pyval (Value D) * world D :=
    let s := normalise sql in
    let write_operations := Re.search write_re s in
    let dangerous_operations := Re.search dangerous_re s in
    if dangerous_operations then (PStr err_dangerous, w)
    else if write_operations && not_authenticated sm then (PStr err_auth, w)
    else if contains ";" s then (PStr err_multiple, w)
    else if negb (Re.match_ allowed_re s) then (PStr err_only, w)
    else
      let s :=
        if Re.match_ select_re s
           && negb (Re.search limit_re s)
           && negb (Re.search aggregate_re s)
        then s ++ lit " LIMIT 100" else s in
      match with_connection s w with
      | (inl e, w') => (PStr (lit "ERROR: " ++ e), w')
      | (inr v, w') => (v, w')
      end.

End Gateway.

Arguments _run {D} _ _ _.

End Main.

(** ** [app.py]: a batch of statements per call

    In [app.py] the flag that [not_authenticated] reads is
    [st.session_state.is_authenticated]; the security manager of the model
    carries it. *)

Module App.
Section Gateway.

Variable D : driver.

  (** [[s.strip() for s in sql.split(';') if s.strip()]] *)
Definition statements (sql : str) : list str :=
    map strip (filter (fun s => truthy (strip s)) (split ";" sql)).

  (** The body of the [for] loop: [inl e] is [return e], [inr v] is
      [results.append(v)]. *)
Definition body (sm : option SecurityManager) (s : str) (w : world D)
    : (str + pyval (Value D)) * world D :=
    let write_operations := Re.search write_re s in
    let dangerous_operations := Re.search dangerous_re s in
    if dangerous_operations then (inl err_dangerous, w)
    else if write_operations && not_authenticated sm then (inl err_auth, w)
    else if negb (Re.match_ allowed_re s) then (inl err_only, w)
    else
      let s :=
        if Re.match_ select_re s
           && negb (Re.search limit_re s)
           && negb (Re.search aggregate_re s)
        then s ++ lit " LIMIT 100" else s in
      match with_connection s w with
      | (inl e, w') => (inl (lit "ERROR: " ++ e), w')
      | (inr v, w') => (inr v, w')
      end.

  (** The [for] loop: [inl e] when the function returned [e] from inside the
      loop, [inr results] when the loop ran to its end. *)
Fixpoint loop (sm : option SecurityManager) (todo : list str)
           (results : list (pyval (Value D))) (w : world D)
    : (str + list (pyval (Value D))) * world D :=
    match todo with
    | [] => (inr results, w)
    | s :: rest =>
        match body sm s w with
        | (inl e, w') => (inl e, w')
        | (inr v, w') => loop sm rest (results ++ [v]) w'
        end
    end.

Definition _run (sm : option SecurityManager) (sql : str) (w : world D)
    : pyval (Value D) * world D :=
    match loop sm (statements sql) [] w with
    | (inl e, w') => (PStr e, w')
    | (inr results, w') =>
        (match results with [r] => r | _ => PList results end, w')
    end.

End Gateway.

Arguments body {D} _ _ _.
Arguments loop {D} _ _ _ _.
Arguments _run {D} _ _ _.

End App.

(** ** [scripts/gemini_agent.py]: one SELECT per call *)

Module Gemini.
Section Gateway.

Variable D : driver.

Definition err_write : str := lit "ERROR: write operations are not allowed.".
Definition err_multiple : str := lit "ERROR: multiple statements are not allowed.".
Definition err_only : str := lit "ERROR: only SELECT statements are allowed.".

Definition _run (sql : str) (w : world D) : pyval (Value D) * world D :=
    let s := normalise sql in
    if Re.search forbidden_re s then (PStr err_write, w)
    else if contains ";" s then (PStr err_multiple, w)
    else if negb (Re.match_ select_re s) then (PStr err_only, w)
    else
      let s :=
        if negb (Re.search limit_re s) && negb (Re.search aggregate_re_ro s)
        then s ++ lit " LIMIT 200" else s in
      match with_connection_ro s w with
      | (inl e, w') => (PStr (lit "ERROR: " ++ e), w')
      | (inr v, w') => (v, w')
      end.

End Gateway.

Arguments _run {D} _ _.

End Gemini.

(** ** Words of a string

    What "the keyword occurs as a standalone word" means, said without any
    matcher: the string is [pre ++ mid ++ post], [mid] is the keyword up to
    case, and neither the character before [mid] nor the one after it is a
    word character. *)

(** The character before the position reached after reading [pre]. *)
Fixpoint prev_of (prev : option ascii) (pre : str) : option ascii :=
  match pre with
  | [] => prev
  | c :: rest => prev_of (Some c) rest
  end.

Definition last_char (s : str) : option ascii := prev_of None s.

Definition same_word (mid kw : str) : Prop := map lower mid = map lower kw.

Definition occurs_as_word (kw : str) (s : str) : Prop :=
  exists pre mid post,
    s = pre ++ mid ++ post /\ same_word mid kw /\
    Re.word_opt (last_char pre) = false /\
    Re.word_opt (hd_error post) = false.

Definition has_keyword (kws : list string) (s : str) : Prop :=
  exists kw, In kw kws /\ occurs_as_word (lit kw) s.

Definition letter (c : ascii) : bool := between 65 90 c || between 97 122 c.

(** A keyword: a non-empty run of ASCII letters. *)
Definition keyword (kw : str) : Prop := kw <> [] /\ forallb letter kw = true.

Definition keyword_re (kws : list string) : Re.t :=
  Re.seqs [Re.wb; Re.words kws; Re.wb].

Definition nonword (c : ascii) : bool := negb (is_word c).

(** The statement starts, after optional white space, with the keyword as a
    whole word. *)
Definition leads_with (kw : str) (s : str) : Prop :=
  exists ws mid post,
    s = ws ++ mid ++ post /\ forallb isspace ws = true /\
    same_word mid kw /\ Re.word_opt (hd_error post) = false.

(** [^\s*(k1|k2|...)\b] *)
Definition leading_re (kws : list string) : Re.t :=
  Re.seqs [Re.bos; Re.star isspace; Re.words kws; Re.wb].

(** The statement the read/write tools hand to the driver for [s]: the
    expression of their security layer 4. *)
Definition with_limit (s : str) : str :=
  if Re.match_ select_re s
     && negb (Re.search limit_re s)
     && negb (Re.search aggregate_re s)
  then s ++ lit " LIMIT 100" else s.

(** The acknowledgment of a write whose first token is [operation]. *)
Definition acknowledgment (operation : str) : str :=
  upper operation ++ lit " operation completed successfully".

(** The same values by their shape: a table, or a string that ends with
    [ operation completed successfully]. *)
Definition table_or_acknowledgment {V : Type} (v : pyval V) : Prop :=
  (exists cols rows, v = PDict cols rows) \/
  (exists name, v = PStr (name ++ lit " operation completed successfully")).

(** The capitals of the characters of [s] are characters of Latin-1: [s]
    holds neither MICRO SIGN nor [y] with diaeresis, the two characters of
    Latin-1 that [str.upper] sends out of it. *)
Definition upper_closed (s : str) : bool :=
  forallb (fun c => negb (between 181 181 c || between 255 255 c)) s.

(** The values a statement that ran adds to [results]. *)
Definition produced {V : Type} (v : pyval V) : Prop :=
  (exists cols rows, v = PDict cols rows) \/
  (exists operation, v = PStr (acknowledgment operation)).

(** The row-bound clause: the word LIMIT (any case), white space, and an
    unsigned integer that ends at a word boundary. *)
Definition has_limit_clause (s : str) : Prop :=
  exists pre mid ws ds post,
    s = pre ++ mid ++ ws ++ ds ++ post /\ same_word mid (lit "limit") /\
    ws <> [] /\ forallb isspace ws = true /\
    ds <> [] /\ forallb isdecimal ds = true /\
    Re.word_opt (last_char pre) = false /\
    Re.word_opt (hd_error post) = false.

(** A call of [f]: the name (any case) at the start of a word, then [(]. *)
Definition has_call (f : str) (s : str) : Prop :=
  exists pre mid post,
    s = pre ++ mid ++ "("%char :: post /\ same_word mid f /\
    Re.word_opt (last_char pre) = false.

(** GROUP, white space, BY, with a word boundary after BY.  The tools
    other than [gemini_agent.py] want GROUP to start a word ([word_start] is
    true); with [word_start] false GROUP may stand anywhere, also inside a
    word or right after a BACKSPACE character. *)
Definition has_group_by (word_start : bool) (s : str) : Prop :=
  exists pre g ws b post,
    s = pre ++ g ++ ws ++ b ++ post /\ same_word g (lit "group") /\
    ws <> [] /\ forallb isspace ws = true /\ same_word b (lit "by") /\
    (word_start = true -> Re.word_opt (last_char pre) = false) /\
    Re.word_opt (hd_error post) = false.

Definition aggregate_functions : list string :=
  ["count"; "sum"; "avg"; "max"; "min"]%string.

(** The aggregate indicators: COUNT(, SUM(, AVG(, MAX(, MIN( and GROUP BY. *)
Definition has_aggregate (word_start : bool) (s : str) : Prop :=
  (exists f, In f aggregate_functions /\ has_call (lit f) s) \/
  has_group_by word_start s.

(** GROUP BY as the aggregate pattern of the read-only tool finds it: right
    after a BACKSPACE character. *)
Definition has_backspace_group_by (s : str) : Prop :=
  exists pre g ws b post,
    s = pre ++ backspace :: g ++ ws ++ b ++ post /\ same_word g (lit "group") /\
    ws <> [] /\ forallb isspace ws = true /\ same_word b (lit "by") /\
    Re.word_opt (hd_error post) = false.

(** What the [try] block of a read of [s] gives on the contents [d]: the
    driver is asked once; its exception [e] becomes [f"ERROR: {e}"] ([inl]),
    its cursor becomes the dictionary of the columns and the rows ([inr]). *)
Definition fetch {D : driver} (s : str) (d : DB D) : str + pyval (Value D) :=
  match exec_driver_sql D s d with
  | inl e => inl (lit "ERROR: " ++ e)
  | inr (result, _) => inr (PDict (keys result) (fetchall result))
  end.

(** The value a single-statement [_run] returns in both cases. *)
Definition returned {V : Type} (r : str + pyval V) : pyval V :=
  match r with
  | inl e => PStr e
  | inr v => v
  end.

(** The keyword is the whole first token of the statement: white space or
    the end of the statement follows it. *)
Definition first_token (kw : str) (s : str) : Prop :=
  exists ws mid post,
    s = ws ++ mid ++ post /\ forallb isspace ws = true /\ same_word mid kw /\
    forallb isspace (firstn 1 post) = true.

Definition ddl_keywords : list string := ["CREATE"; "ALTER"; "REPLACE"]%string.
Definition dml_keywords : list string := ["INSERT"; "UPDATE"; "DELETE"]%string.

(** ** The row bound as the specification words it

    The specification speaks of a statement that contains an explicit
    LIMIT <integer> clause, and of one that contains an aggregate indicator:
    COUNT(, GROUP BY, SUM(, AVG(, MAX(, MIN(, in any case.  Read as they
    stand, an integer may carry a sign, and an indicator is a piece of the
    text wherever it stands. *)

(** An integer literal: digits, with or without a sign. *)
Definition integer_literal (n : str) : bool :=
  match n with
  | [] => false
  | c :: ds =>
      if mem_char (lit "+-") c then truthy ds && forallb isdecimal ds
      else forallb isdecimal n
  end.

(** The word LIMIT (any case), white space and an integer. *)
Definition stated_limit_clause (s : str) : Prop :=
  exists pre mid ws n post,
    s = pre ++ mid ++ ws ++ n ++ post /\ same_word mid (lit "limit") /\
    ws <> [] /\ forallb isspace ws = true /\ integer_literal n = true /\
    Re.word_opt (last_char pre) = false /\
    Re.word_opt (hd_error post) = false.

(** The text holds [f(] (any case) somewhere. *)
Definition stated_call (f : str) (s : str) : Prop :=
  exists pre mid post, s = pre ++ mid ++ "("%char :: post /\ same_word mid f.

(** The toy data source of the examples: the database is the list of the
    statements committed so far, a SELECT answers with their number, and a
    statement that names [missing] raises. *)
Module Toy.

Definition mentions_missing (s : str) : bool :=
    Re.search (Re.word_i (lit "missing")) s.

Definition exec (s : str) (d : list str) : str + (cursor nat * list str) :=
    if mentions_missing s then inl (lit "no such table: missing")
    else if Re.match_ select_re s
         then inr (Cursor [lit "n"] [[List.length d]], d)
         else inr (Cursor [] [], d ++ [s]).

Definition D : driver :=
    {| DB := list str; Value := nat; exec_driver_sql := exec;
       commit := fun pending => inr pending |}.

Definition w0 : world D := World (D := D) [] [].

Definition admin : option SecurityManager := Some {| is_authenticated := true |}.
Definition guest : option SecurityManager := Some {| is_authenticated := false |}.

End Toy.

(** ** What the callers look at *)

(** [s.startswith(p)] *)
Fixpoint starts_with (p s : str) : bool :=
  match p, s with
  | [], _ => true
  | _ :: _, [] => false
  | a :: p', b :: s' => Ascii.eqb a b && starts_with p' s'
  end.

(** The statements handed to the driver, in the order of the events. *)
Fixpoint executed (es : list event) : list str :=
  match es with
  | [] => []
  | Execute s :: rest => s :: executed rest
  | _ :: rest => executed rest
  end.

(** ** [main.py]: the context window of the chat agent *)

(** A chat message, [{"role": role, "content": content}]. *)
Record message := Message { role : str; content : str }.

(** [l[i:]] for a Python integer [i]: a negative [i] counts from the end. *)
Definition slice_from {A : Type} (i : Z) (l : list A) : list A :=
  if (i <? 0)%Z
  then skipn (Z.to_nat (Z.max 0 (Z.of_nat (List.length l) + i))) l
  else skipn (Z.to_nat i) l.

(** [sep.join(parts)] *)
Fixpoint join (sep : str) (parts : list str) : str :=
  match parts with
  | [] => []
  | [p] => p
  | p :: rest => p ++ sep ++ join sep rest
  end.

Module Chat.

(** [MaterialSchoolChatAgent.add_to_context]: the new value of
    [self.context_window]. *)
Definition add_to_context (max_context_length : Z) (context_window : list message)
           (role content : str) : list message :=
  let context_window := context_window ++ [Message role content] in
  if (Z.of_nat (List.length context_window) >? max_context_length)%Z
  then slice_from (- max_context_length) context_window
  else context_window.

(** One line of the context: [f"{role}: {msg['content']}"]. *)
Definition context_line (msg : message) : str :=
  (if list_eq_dec ascii_dec (role msg) (lit "user") then lit "User" else lit "Assistant")
  ++ lit ": " ++ content msg.

(** [MaterialSchoolChatAgent.get_context_string] *)
Definition get_context_string (context_window : list message) : str :=
  match context_window with
  | [] => []
  | _ :: _ => join (lit (String "010" "")) (map context_line (slice_from (-5) context_window))
  end.

End Chat.

(** ** Cleaning the answer of the language model *)

(** [p in s] for strings: [p] occurs in [s]. *)
Fixpoint is_infix (p s : str) : bool :=
  starts_with p s ||
  match s with
  | [] => false
  | _ :: rest => is_infix p rest
  end.

(** [re.sub(p\s*, '', s)] for a literal, non-empty [p]: from left to right,
    every occurrence of [p] is removed with all the white space that follows
    it.  [skip] counts the characters of the current occurrence that are
    still to be dropped, [spaces] tells that the white space after an
    occurrence is being dropped. *)
Fixpoint sub_literal_spaces (p : str) (skip : nat) (spaces : bool) (s : str) : str :=
  match s with
  | [] => []
  | c :: rest =>
      match skip with
      | S k => sub_literal_spaces p k true rest
      | O =>
          if spaces && isspace c then sub_literal_spaces p 0 true rest
          else if starts_with p s then sub_literal_spaces p (List.length p - 1) true rest
          else c :: sub_literal_spaces p 0 false rest
      end
  end.


(** [str.lower] on one character: the capitals of Latin-1 move, the rest
    stays. *)
Definition lower_char (c : ascii) : ascii :=
  if between 65 90 c || between 192 214 c || between 216 222 c
  then ascii_of_N (code c + 32) else c.

(** [s.lower()] *)
Definition str_lower (s : str) : str := map lower_char s.

(** [any(phrase in text for phrase in phrases)] *)
Definition any_in (phrases : list string) (text : str) : bool :=
  existsb (fun phrase => is_infix (lit phrase) text) phrases.

(** The clean-up of [process_natural_language_query] in [main.py]:
    [re.sub(r'```sql\s*', '', q)], then [re.sub(r'```\s*', '', q)], then
    [strip()]. *)
Definition clean_sql (sql_query : str) : str :=
  let sql_query := sub_literal_spaces (lit "```sql") 0 false sql_query in
  let sql_query := sub_literal_spaces (lit "```") 0 false sql_query in
  strip sql_query.

(** ** [main.py]: conversational questions *)

(** What [handle_conversational_query] returns: [None], the value of one of
    the four summary methods of the agent, or the greeting. *)
Inductive conversational :=
| NotConversational
| ConversationSummary
| PreviousDataSummary
| ChartFromPreviousData
| CapabilitiesSummary
| Greeting.

Definition skipped_queries : list string :=
  ["?"; "!"; "."; ","; "helo"; "hello"; "hi"; "hey"]%string.

Definition topic_phrases : list string :=
  ["what were we talking about"; "what was i asking about"; "what did we discuss";
   "what were we discussing"; "what was the topic"; "what was the subject";
   "what did i ask"; "what did you tell me"; "what did we talk about"]%string.

Definition previous_data_phrases : list string :=
  ["what data did you show me"; "what did you find"; "what results did you give";
   "what information did you provide"; "what did you retrieve"]%string.

Definition chart_phrases : list string :=
  ["make a pie chart of that"; "create a chart of that data"; "show me a graph of that";
   "visualize that data"; "make a chart of it"; "turn that into a chart";
   "show that as a chart"; "graph that data"]%string.

Definition capability_phrases : list string :=
  ["what can you do"; "what are your capabilities"; "how can you help";
   "what features do you have"; "what can you show me"]%string.

Definition greeting_phrases : list string :=
  ["hello"; "hi"; "hey"; "good morning"; "good afternoon"; "good evening";
   "how are you"; "how's it going"; "what's up"]%string.

(** [MaterialSchoolChatAgent.handle_conversational_query] *)
Definition handle_conversational_query (query : str) : conversational :=
  let query_lower := strip (str_lower query) in
  if (List.length query_lower <? 3)
     || existsb (fun q => if list_eq_dec ascii_dec query_lower (lit q) then true else false)
                skipped_queries
  then NotConversational
  else if any_in topic_phrases query_lower then ConversationSummary
  else if any_in previous_data_phrases query_lower then PreviousDataSummary
  else if any_in chart_phrases query_lower then ChartFromPreviousData
  else if any_in capability_phrases query_lower then CapabilitiesSummary
  else if any_in greeting_phrases query_lower then Greeting
  else NotConversational.

(** ** [app.py]: from the question to the answer of the gateway *)

Module Pipeline.
Section Query.

Variable D : driver.

(** [get_schema_context()]: the schema text, or the text of the exception. *)
Variable get_schema_context : str + str.

(** [os.getenv("GEMINI_API_KEY")] *)
Variable gemini_api_key : option str.

(** [genai.configure], [GenerativeModel(...).generate_content(prompt)] and
    [response.text]: the answer, or the text of the exception. *)
Variable generate_content : str -> str + str.







End Query.
End Pipeline.

(** The Markdown fence. *)
Definition fence : str := lit "```".

(** ** The read-only school tools

    [SecureSchoolSQLTool._run] of [SQLAgent/chat_school_agent.py],
    [SQLAgent/school_management_agent.py] and
    [SQLAgent/material_school_agent.py]: the three methods have the same
    code. *)

(** [\b(INSERT|UPDATE|DELETE|DROP|TRUNCATE|ALTER|CREATE|REPLACE|EXEC|EXECUTE)\b] *)
Definition school_keywords : list string :=
  ["INSERT"; "UPDATE"; "DELETE"; "DROP"; "TRUNCATE"; "ALTER"; "CREATE";
   "REPLACE"; "EXEC"; "EXECUTE"]%string.
Definition school_re : Re.t := Re.seqs [Re.wb; Re.words school_keywords; Re.wb].

Module School.
Section Gateway.

Variable D : driver.

Definition err_write : str :=
  lit "ERROR: Write operations are not allowed. Only SELECT queries are permitted.".
Definition err_multiple : str := lit "ERROR: Multiple statements are not allowed.".
Definition err_only : str := lit "ERROR: Only SELECT statements are allowed.".

Definition _run (sql : str) (w : world D) : pyval (Value D) * world D :=
  let s := normalise sql in
  if Re.search school_re s then (PStr err_write, w)
  else if contains ";" s then (PStr err_multiple, w)
  else if negb (Re.match_ select_re s) then (PStr err_only, w)
  else
    let s :=
      if negb (Re.search limit_re s) && negb (Re.search aggregate_re s)
      then s ++ lit " LIMIT 100" else s in
    match with_connection_ro s w with
    | (inl e, w') => (PStr (lit "ERROR: " ++ e), w')
    | (inr v, w') => (v, w')
    end.

End Gateway.

Arguments _run {D} _ _.

End School.

(** * Facts about characters and strings *)

Ltac all_chars c :=
  destruct c as [[] [] [] [] [] [] [] []]; try reflexivity; try discriminate.

Lemma isspace_not_word (c : ascii) : isspace c = true -> is_word c = false.
Proof. all_chars c. Qed.

Lemma letter_is_word (c : ascii) : letter c = true -> is_word c = true.
Proof. all_chars c. Qed.

Lemma letter_lower (c : ascii) : letter (lower c) = letter c.
Proof. all_chars c. Qed.

Lemma letter_not_space (c : ascii) : letter c = true -> isspace c = false.
Proof. all_chars c. Qed.

Lemma same_letter (x c : ascii) :
  letter c = true -> lower x = lower c -> letter x = true.
Proof.
  intros Hc Hx. rewrite <- letter_lower, Hx, letter_lower. exact Hc.
Qed.

Lemma same_word_letters (mid kw : str) :
  same_word mid kw -> forallb letter kw = true -> forallb letter mid = true.
Proof.
  unfold same_word. revert kw.
  induction mid as [|x mid IH]; intros [|c kw] H Hk; simpl in *;
    try discriminate; try reflexivity.
  injection H as Hx Hrest.
  apply andb_true_iff in Hk as [Hc Hk].
  rewrite (same_letter x c Hc Hx). simpl. eauto.
Qed.

Lemma same_word_nonempty (mid kw : str) :
  same_word mid kw -> kw <> [] -> mid <> [].
Proof.
  unfold same_word. intros H Hk ->. destruct kw; [congruence | discriminate].
Qed.

Lemma prev_of_app (prev : option ascii) (a b : str) :
  prev_of prev (a ++ b) = prev_of (prev_of prev a) b.
Proof. revert prev. induction a as [|c a IH]; intros prev; simpl; auto. Qed.

Lemma prev_of_snoc (prev : option ascii) (a : str) (c : ascii) :
  prev_of prev (a ++ [c]) = Some c.
Proof. rewrite prev_of_app. reflexivity. Qed.

Lemma prev_of_nonempty (p q : option ascii) (a : str) :
  a <> [] -> prev_of p a = prev_of q a.
Proof.
  destruct a as [|c a]; [congruence | reflexivity].
Qed.

(** The last character of a run of letters is a word character. *)
Lemma prev_of_letters (prev : option ascii) (mid : str) :
  mid <> [] -> forallb letter mid = true ->
  Re.word_opt (prev_of prev mid) = true.
Proof.
  revert prev. induction mid as [|c mid IH]; intros prev Hne Hl; [congruence|].
  simpl in Hl. apply andb_true_iff in Hl as [Hc Hl]. simpl.
  destruct mid as [|c' mid'].
  - simpl. now apply letter_is_word.
  - apply IH; [discriminate | exact Hl].
Qed.

Lemma hd_letters (mid post : str) :
  mid <> [] -> forallb letter mid = true ->
  Re.word_opt (hd_error (mid ++ post)) = true.
Proof.
  destruct mid as [|c mid]; [congruence|]. simpl. intros _ H.
  apply andb_true_iff in H as [Hc _]. now apply letter_is_word.
Qed.

(** * The matchers find exactly the words *)

Lemma search_from_iff (r : Re.t) (prev : option ascii) (s : str) :
  Re.search_from r prev s = true <->
  exists pre rest, s = pre ++ rest /\ r Re.accept (prev_of prev pre) rest = true.
Proof.
  revert prev. induction s as [|c s IH]; intros prev; simpl.
  - rewrite orb_false_r. split.
    + intros H. now exists [], [].
    + intros (pre & rest & E & H).
      symmetry in E. apply app_eq_nil in E as [-> ->]. exact H.
  - rewrite orb_true_iff, IH. split.
    + intros [H | (pre & rest & E & H)].
      * now exists [], (c :: s).
      * exists (c :: pre), rest. subst s. now split.
    + intros (pre & rest & E & H). destruct pre as [|x pre].
      * left. simpl in E. subst rest. exact H.
      * right. injection E as -> ->. now exists pre, rest.
Qed.

Lemma word_i_iff (w : str) (k : Re.cont) (prev : option ascii) (s : str) :
  Re.word_i w k prev s = true <->
  exists mid post,
    s = mid ++ post /\ same_word mid w /\ k (prev_of prev mid) post = true.
Proof.
  unfold same_word.
  revert prev s. induction w as [|c w IH]; intros prev s; simpl.
  - unfold Re.eps. split.
    + intros H. now exists [], s.
    + intros (mid & post & -> & E & H).
      destruct mid; [exact H | discriminate].
  - unfold Re.seq, Re.chr_i, Re.chr. destruct s as [|x s].
    + split; [discriminate|].
      intros (mid & post & E & Hm & _).
      destruct mid; [discriminate | discriminate].
    + rewrite andb_true_iff, IH, Ascii.eqb_eq. split.
      * intros (Hx & mid & post & -> & Hm & H).
        exists (x :: mid), post. simpl. now rewrite Hx, Hm.
      * intros (mid & post & E & Hm & H).
        destruct mid as [|y mid]; [discriminate|].
        simpl in E, Hm, H. injection E as <- ->. injection Hm as Hx Hm.
        split; [exact Hx|]. now exists mid, post.
Qed.

Lemma words_iff (kws : list string) (k : Re.cont) (prev : option ascii) (s : str) :
  Re.words kws k prev s = true <->
  exists kw, In kw kws /\ Re.word_i (lit kw) k prev s = true.
Proof.
  unfold Re.words, Re.alts.
  induction kws as [|kw kws IH]; simpl.
  - unfold Re.fail. split; [discriminate | now intros (? & [] & _)].
  - unfold Re.alt at 1. rewrite orb_true_iff, IH. split.
    + intros [H | (kw' & Hin & H)]; [exists kw | exists kw']; auto.
    + intros (kw' & [<- | Hin] & H); [left | right; exists kw']; auto.
Qed.

(** At one position: the keyword pattern between two [\b] matches exactly
    when a keyword starts there, after a non-word character and before one. *)
Lemma keyword_re_at (kws : list string) (prev : option ascii) (s : str) :
  Forall (fun kw => keyword (lit kw)) kws ->
  keyword_re kws Re.accept prev s = true <->
  exists kw mid post,
    In kw kws /\ s = mid ++ post /\ same_word mid (lit kw) /\
    Re.word_opt prev = false /\ Re.word_opt (hd_error post) = false.
Proof.
  intros Hk. unfold keyword_re, Re.seqs. simpl.
  unfold Re.seq, Re.eps. unfold Re.wb at 1.
  rewrite andb_true_iff, words_iff. split.
  - intros (Hb & kw & Hin & H).
    apply word_i_iff in H as (mid & post & -> & Hm & H).
    rewrite Forall_forall in Hk. destruct (Hk kw Hin) as [Hne Hl].
    pose proof (same_word_nonempty _ _ Hm Hne) as Hmid.
    pose proof (same_word_letters _ _ Hm Hl) as Hlet.
    unfold Re.wb, Re.accept in H. rewrite andb_true_r in H.
    rewrite (prev_of_letters prev mid Hmid Hlet) in H.
    rewrite (hd_letters mid post Hmid Hlet) in Hb.
    exists kw, mid, post. repeat split; auto.
    + now destruct (Re.word_opt prev).
    + now destruct (Re.word_opt (hd_error post)).
  - intros (kw & mid & post & Hin & -> & Hm & Hp & Hn).
    rewrite Forall_forall in Hk. destruct (Hk kw Hin) as [Hne Hl].
    pose proof (same_word_nonempty _ _ Hm Hne) as Hmid.
    pose proof (same_word_letters _ _ Hm Hl) as Hlet.
    split.
    + now rewrite Hp, (hd_letters mid post Hmid Hlet).
    + exists kw. split; [exact Hin|]. apply word_i_iff.
      exists mid, post. repeat split; auto.
      unfold Re.wb, Re.accept.
      now rewrite (prev_of_letters prev mid Hmid Hlet), Hn.
Qed.

(** [re.search] with a keyword pattern succeeds exactly on the strings in
    which one of the keywords occurs as a standalone word. *)
Lemma search_keyword_iff (kws : list string) (s : str) :
  Forall (fun kw => keyword (lit kw)) kws ->
  Re.search (keyword_re kws) s = true <-> has_keyword kws s.
Proof.
  intros Hk. unfold Re.search. rewrite search_from_iff. split.
  - intros (pre & rest & -> & H).
    apply (keyword_re_at kws _ _ Hk) in H
      as (kw & mid & post & Hin & -> & Hm & Hp & Hn).
    exists kw. split; [exact Hin|]. now exists pre, mid, post.
  - intros (kw & Hin & pre & mid & post & -> & Hm & Hp & Hn).
    exists pre, (mid ++ post). split; [reflexivity|].
    apply (keyword_re_at kws _ _ Hk). now exists kw, mid, post.
Qed.

Lemma keywords_ok (kws : list string) :
  forallb (fun kw => truthy (lit kw) && forallb letter (lit kw)) kws = true ->
  Forall (fun kw => keyword (lit kw)) kws.
Proof.
  rewrite forallb_forall, Forall_forall. intros H kw Hin.
  specialize (H kw Hin). apply andb_true_iff in H as [Hne Hl].
  split; [|exact Hl]. intros E. now rewrite E in Hne.
Qed.

Lemma dangerous_keywords_ok : Forall (fun kw => keyword (lit kw)) dangerous_keywords.
Proof. now apply keywords_ok. Qed.

Lemma write_keywords_ok : Forall (fun kw => keyword (lit kw)) write_keywords.
Proof. now apply keywords_ok. Qed.

Lemma forbidden_keywords_ok : Forall (fun kw => keyword (lit kw)) forbidden_keywords.
Proof. now apply keywords_ok. Qed.

Lemma dangerous_iff (s : str) :
  Re.search dangerous_re s = true <-> has_keyword dangerous_keywords s.
Proof. exact (search_keyword_iff dangerous_keywords s dangerous_keywords_ok). Qed.

Lemma write_iff (s : str) :
  Re.search write_re s = true <-> has_keyword write_keywords s.
Proof. exact (search_keyword_iff write_keywords s write_keywords_ok). Qed.

(** * Stripping keeps the words *)

Lemma drop_while_split (p : ascii -> bool) (s : str) :
  exists l, s = l ++ drop_while p s /\ forallb p l = true.
Proof.
  induction s as [|c s (l & E & Hl)]; simpl.
  - now exists [].
  - destruct (p c) eqn:Hc.
    + exists (c :: l). simpl. now rewrite Hc, <- E.
    + now exists [].
Qed.

Lemma forallb_rev (p : ascii -> bool) (l : str) :
  forallb p l = true -> forallb p (rev l) = true.
Proof.
  rewrite !forallb_forall. intros H x Hx. apply H. now apply in_rev.
Qed.

Lemma rstrip_by_split (p : ascii -> bool) (s : str) :
  exists r, s = rstrip_by p s ++ r /\ forallb p r = true.
Proof.
  unfold rstrip_by. destruct (drop_while_split p (rev s)) as (l & E & Hl).
  exists (rev l). split; [|now apply forallb_rev].
  rewrite <- rev_app_distr, <- E. now rewrite rev_involutive.
Qed.

Lemma forallb_impl (p q : ascii -> bool) (l : str) :
  (forall c, p c = true -> q c = true) ->
  forallb p l = true -> forallb q l = true.
Proof. rewrite !forallb_forall. auto. Qed.

Lemma space_nonword (c : ascii) : isspace c = true -> nonword c = true.
Proof. intros H. unfold nonword. now rewrite (isspace_not_word c H). Qed.

Lemma semicolon_nonword (c : ascii) : mem_char (lit ";") c = true -> nonword c = true.
Proof.
  unfold mem_char. simpl. rewrite orb_false_r. intros H.
  apply Ascii.eqb_eq in H. now subst c.
Qed.

Lemma strip_split (s : str) :
  exists l r, s = l ++ strip s ++ r /\
              forallb isspace l = true /\ forallb isspace r = true.
Proof.
  unfold strip, lstrip_by.
  destruct (drop_while_split isspace s) as (l & E & Hl).
  destruct (rstrip_by_split isspace (drop_while isspace s)) as (r & E' & Hr).
  exists l, r. split; [|now split]. now rewrite <- E', <- E.
Qed.

(** [sql.strip().rstrip(";")] removes non-word characters at the two ends. *)
Lemma normalise_split (sql : str) :
  exists l r, sql = l ++ normalise sql ++ r /\
              forallb nonword l = true /\ forallb nonword r = true.
Proof.
  destruct (strip_split sql) as (l & r & E & Hl & Hr).
  destruct (rstrip_by_split (mem_char (lit ";")) (strip sql)) as (r' & E' & Hr').
  exists l, (r' ++ r). repeat split.
  - unfold normalise, rstrip. rewrite (app_assoc _ r' r), <- E'. exact E.
  - exact (forallb_impl _ _ l space_nonword Hl).
  - rewrite forallb_app.
    rewrite (forallb_impl _ _ r' semicolon_nonword Hr').
    exact (forallb_impl _ _ r space_nonword Hr).
Qed.

Section Frame.

Variable kw : str.
Hypothesis kw_ok : keyword kw.

Lemma occurs_drop_front (c : ascii) (s : str) :
    nonword c = true -> occurs_as_word kw (c :: s) -> occurs_as_word kw s.
  Proof.
    intros Hc (pre & mid & post & E & Hm & Hp & Hn).
    destruct kw_ok as [Hne Hl].
    pose proof (same_word_nonempty _ _ Hm Hne) as Hmid.
    pose proof (same_word_letters _ _ Hm Hl) as Hlet.
    destruct pre as [|x pre].
    - destruct mid as [|y mid]; [congruence|].
      simpl in E, Hlet. injection E as <- _.
      apply andb_true_iff in Hlet as [Hy _].
      apply letter_is_word in Hy. unfold nonword in Hc.
      rewrite Hy in Hc. discriminate.
    - simpl in E. injection E as <- ->.
      exists pre, mid, post. repeat split; auto.
      destruct pre as [|y pre]; [reflexivity | exact Hp].
  Qed.

Lemma occurs_drop_back (c : ascii) (s : str) :
    nonword c = true -> occurs_as_word kw (s ++ [c]) -> occurs_as_word kw s.
  Proof.
    intros Hc (pre & mid & post & E & Hm & Hp & Hn).
    destruct kw_ok as [Hne Hl].
    pose proof (same_word_nonempty _ _ Hm Hne) as Hmid.
    pose proof (same_word_letters _ _ Hm Hl) as Hlet.
    destruct post as [|x post _] using rev_ind.
    - rewrite app_nil_r in E.
      destruct mid as [|y mid _] using rev_ind; [congruence|].
      rewrite app_assoc in E. apply app_inj_tail in E as [_ <-].
      rewrite forallb_app in Hlet. apply andb_true_iff in Hlet as [_ Hy].
      simpl in Hy. rewrite andb_true_r in Hy.
      apply letter_is_word in Hy. unfold nonword in Hc.
      rewrite Hy in Hc. discriminate.
    - rewrite !app_assoc in E. apply app_inj_tail in E as [-> _].
      exists pre, mid, post. rewrite app_assoc. repeat split; auto.
      destruct post as [|y post]; [reflexivity | exact Hn].
  Qed.

Lemma occurs_inside (l s r : str) :
    forallb nonword l = true -> forallb nonword r = true ->
    occurs_as_word kw (l ++ s ++ r) -> occurs_as_word kw s.
  Proof.
    intros Hl Hr. induction l as [|c l IH]; simpl.
    - clear Hl. induction r as [|c r IH] using rev_ind.
      + now rewrite app_nil_r.
      + rewrite forallb_app in Hr. apply andb_true_iff in Hr as [Hr Hc].
        simpl in Hc. rewrite andb_true_r in Hc.
        rewrite app_assoc. intros H. apply IH; [exact Hr|].
        now apply (occurs_drop_back c).
    - simpl in Hl. apply andb_true_iff in Hl as [Hc Hl].
      intros H. apply IH; [exact Hl|]. now apply (occurs_drop_front c).
  Qed.

Lemma last_char_nonword (l : str) :
    forallb nonword l = true -> Re.word_opt (last_char l) = false.
  Proof.
    induction l as [|c l _] using rev_ind; [reflexivity|].
    rewrite forallb_app. intros H. apply andb_true_iff in H as [_ Hc].
    simpl in Hc. rewrite andb_true_r in Hc.
    unfold last_char. rewrite prev_of_snoc. simpl.
    unfold nonword in Hc. now destruct (is_word c).
  Qed.

Lemma hd_nonword (r : str) :
    forallb nonword r = true -> Re.word_opt (hd_error r) = false.
  Proof.
    destruct r as [|c r]; [reflexivity|]. simpl. intros H.
    apply andb_true_iff in H as [Hc _]. unfold nonword in Hc.
    now destruct (is_word c).
  Qed.

Lemma occurs_outside (l s r : str) :
    forallb nonword l = true -> forallb nonword r = true ->
    occurs_as_word kw s -> occurs_as_word kw (l ++ s ++ r).
  Proof.
    intros Hl Hr (pre & mid & post & -> & Hm & Hp & Hn).
    exists (l ++ pre), mid, (post ++ r). repeat split; auto.
    - now rewrite <- !app_assoc.
    - destruct pre as [|c pre].
      + rewrite app_nil_r. now apply last_char_nonword.
      + unfold last_char in *. rewrite prev_of_app.
        rewrite (prev_of_nonempty _ None (c :: pre)); [exact Hp | discriminate].
    - destruct post as [|c post]; [now apply hd_nonword | exact Hn].
  Qed.

End Frame.

Lemma has_keyword_normalise (kws : list string) (sql : str) :
  Forall (fun kw => keyword (lit kw)) kws ->
  has_keyword kws (normalise sql) <-> has_keyword kws sql.
Proof.
  intros Hk. rewrite Forall_forall in Hk.
  destruct (normalise_split sql) as (l & r & E & Hl & Hr).
  split; intros (kw & Hin & H); exists kw; (split; [exact Hin|]).
  - rewrite E. now apply occurs_outside.
  - rewrite E in H. apply (occurs_inside (lit kw) (Hk kw Hin) l _ r Hl Hr H).
Qed.

(** * Splitting keeps the words *)

Lemma split_nonempty (sep : ascii) (s : str) : split sep s <> [].
Proof.
  destruct s as [|c s]; simpl; [discriminate|].
  destruct (Ascii.eqb c sep); [discriminate|].
  destruct (split sep s); discriminate.
Qed.

Lemma split_app_sep (sep : ascii) (a b : str) :
  split sep (a ++ sep :: b) = split sep a ++ split sep b.
Proof.
  induction a as [|c a IH]; simpl.
  - now rewrite Ascii.eqb_refl.
  - destruct (Ascii.eqb c sep); [now rewrite IH|].
    rewrite IH. pose proof (split_nonempty sep a) as Hne.
    destruct (split sep a); [congruence | reflexivity].
Qed.

Lemma split_nosep (sep : ascii) (x : str) :
  contains sep x = false -> split sep x = [x].
Proof.
  unfold contains. induction x as [|c x IH]; simpl; [reflexivity|].
  intros H. apply orb_false_iff in H as [Hc Hx].
  rewrite Ascii.eqb_sym in Hc. rewrite Hc, (IH Hx). reflexivity.
Qed.

(** The part of a string after its last separator. *)
Lemma after_last_sep (sep : ascii) (a : str) :
  exists a2, contains sep a2 = false /\
             (a = a2 \/ exists a1, a = a1 ++ sep :: a2).
Proof.
  induction a as [|c a (a2 & Hno & Ha)].
  - exists []. now split; [|left].
  - destruct Ha as [-> | (a1 & ->)].
    + destruct (Ascii.eqb sep c) eqn:Hc.
      * apply Ascii.eqb_eq in Hc as <-. exists a2. split; [exact Hno|].
        right. now exists [].
      * exists (c :: a2). split; [|now left].
        unfold contains in *. simpl. now rewrite Hc.
    + exists a2. split; [exact Hno|]. right. now exists (c :: a1).
Qed.

(** The part of a string before its first separator. *)
Lemma before_first_sep (sep : ascii) (b : str) :
  exists b1, contains sep b1 = false /\
             (b = b1 \/ exists b2, b = b1 ++ sep :: b2).
Proof.
  induction b as [|c b (b1 & Hno & Hb)].
  - exists []. now split; [|left].
  - destruct (Ascii.eqb sep c) eqn:Hc.
    + apply Ascii.eqb_eq in Hc as <-. exists []. split; [reflexivity|].
      right. now exists b.
    + exists (c :: b1). split.
      * unfold contains in *. simpl. now rewrite Hc.
      * destruct Hb as [-> | (b2 & ->)]; [now left | right; now exists b2].
Qed.

Lemma contains_app (sep : ascii) (a b : str) :
  contains sep (a ++ b) = contains sep a || contains sep b.
Proof. unfold contains. apply existsb_app. Qed.

Lemma letters_no_semicolon (mid : str) :
  forallb letter mid = true -> contains ";" mid = false.
Proof.
  unfold contains. induction mid as [|c mid IH]; cbn [forallb existsb]; [reflexivity|].
  intros H. apply andb_true_iff in H as [Hc Hm]. rewrite (IH Hm), orb_false_r.
  destruct (Ascii.eqb ";" c) eqn:E; [|reflexivity].
  apply Ascii.eqb_eq in E. subst c. discriminate.
Qed.

(** A word of the input lies in one piece of [sql.split(';')]. *)
Lemma occurs_in_piece (kw : str) (sql : str) :
  keyword kw -> occurs_as_word kw sql ->
  exists piece, In piece (split ";" sql) /\ occurs_as_word kw piece.
Proof.
  intros [Hne Hl] (pre & mid & post & -> & Hm & Hp & Hn).
  pose proof (same_word_letters _ _ Hm Hl) as Hlet.
  destruct (after_last_sep ";" pre) as (a2 & Ha2 & Ha).
  destruct (before_first_sep ";" post) as (b1 & Hb1 & Hb).
  assert (Hno : contains ";" (a2 ++ mid ++ b1) = false).
  { now rewrite !contains_app, Ha2, Hb1, (letters_no_semicolon mid Hlet). }
  assert (Hp' : Re.word_opt (last_char a2) = false).
  { destruct Ha as [-> | (a1 & ->)]; [exact Hp|].
    destruct a2 as [|c a2]; [reflexivity|].
    unfold last_char in *. rewrite prev_of_app in Hp.
    rewrite (prev_of_nonempty _ None (";"%char :: c :: a2)) in Hp by discriminate.
    exact Hp. }
  assert (Hn' : Re.word_opt (hd_error b1) = false).
  { destruct Hb as [-> | (b2 & ->)]; [exact Hn|].
    destruct b1 as [|c b1]; [reflexivity | exact Hn]. }
  exists (a2 ++ mid ++ b1). split; [|now exists a2, mid, b1].
  destruct Ha as [-> | (a1 & ->)]; destruct Hb as [-> | (b2 & ->)].
  - rewrite (split_nosep _ _ Hno). now left.
  - replace (a2 ++ mid ++ b1 ++ ";"%char :: b2)
      with ((a2 ++ mid ++ b1) ++ ";"%char :: b2) by now rewrite <- !app_assoc.
    rewrite split_app_sep, (split_nosep _ _ Hno). now left.
  - rewrite <- app_assoc. simpl. rewrite split_app_sep, (split_nosep _ _ Hno).
    apply in_or_app. right. now left.
  - replace ((a1 ++ ";"%char :: a2) ++ mid ++ b1 ++ ";"%char :: b2)
      with (a1 ++ ";"%char :: ((a2 ++ mid ++ b1) ++ ";"%char :: b2))
      by now rewrite <- !app_assoc.
    rewrite !split_app_sep, (split_nosep _ _ Hno).
    apply in_or_app. right. now left.
Qed.

Lemma occurs_truthy (kw s : str) :
  keyword kw -> occurs_as_word kw s -> truthy s = true.
Proof.
  intros [Hne _] (pre & mid & post & -> & Hm & _).
  pose proof (same_word_nonempty _ _ Hm Hne) as Hmid.
  destruct pre; [|reflexivity]. destruct mid; [congruence | reflexivity].
Qed.

Lemma occurs_strip (kw s : str) :
  keyword kw -> occurs_as_word kw s <-> occurs_as_word kw (strip s).
Proof.
  intros Hk. destruct (strip_split s) as (l & r & E & Hl & Hr).
  pose proof (forallb_impl _ _ l space_nonword Hl) as Hl'.
  pose proof (forallb_impl _ _ r space_nonword Hr) as Hr'.
  split; intros H.
  - rewrite E in H. exact (occurs_inside kw Hk l _ r Hl' Hr' H).
  - rewrite E. now apply occurs_outside.
Qed.

(** A keyword of the input is a keyword of one of the statements of the batch. *)
Lemma has_keyword_statement (kws : list string) (sql : str) :
  Forall (fun kw => keyword (lit kw)) kws ->
  has_keyword kws sql ->
  exists s, In s (App.statements sql) /\ has_keyword kws s.
Proof.
  intros Hk (kw & Hin & H). rewrite Forall_forall in Hk.
  destruct (occurs_in_piece (lit kw) sql (Hk kw Hin) H) as (piece & Hp & Ho).
  apply (occurs_strip (lit kw) piece (Hk kw Hin)) in Ho.
  exists (strip piece). split; [|now exists kw].
  unfold App.statements. apply in_map, filter_In. split; [exact Hp|].
  exact (occurs_truthy (lit kw) _ (Hk kw Hin) Ho).
Qed.

(** * Leading keywords *)

Lemma star_iff (p : ascii -> bool) (k : Re.cont) (prev : option ascii) (s : str) :
  Re.star p k prev s = true <->
  exists ws rest,
    s = ws ++ rest /\ forallb p ws = true /\ k (prev_of prev ws) rest = true.
Proof.
  revert prev. induction s as [|c s IH]; intros prev; simpl.
  - split.
    + intros H. now exists [], [].
    + intros (ws & rest & E & _ & H).
      symmetry in E. apply app_eq_nil in E as [-> ->]. exact H.
  - rewrite orb_true_iff, andb_true_iff, IH. split.
    + intros [(Hc & ws & rest & -> & Hws & H) | H].
      * exists (c :: ws), rest. simpl. now rewrite Hc.
      * now exists [], (c :: s).
    + intros (ws & rest & E & Hws & H). destruct ws as [|x ws].
      * right. simpl in E. now subst rest.
      * left. simpl in E, Hws. injection E as -> ->.
        apply andb_true_iff in Hws as [Hc Hws].
        split; [exact Hc|]. now exists ws, rest.
Qed.

Lemma word_then_wb_iff (w : str) (prev : option ascii) (s : str) :
  keyword w ->
  Re.word_i w (Re.wb Re.accept) prev s = true <->
  exists mid post,
    s = mid ++ post /\ same_word mid w /\ Re.word_opt (hd_error post) = false.
Proof.
  intros [Hne Hl]. rewrite word_i_iff.
  split; intros (mid & post & E & Hm & H); exists mid, post;
    (split; [exact E|]); (split; [exact Hm|]);
    pose proof (same_word_nonempty _ _ Hm Hne) as Hmid;
    pose proof (same_word_letters _ _ Hm Hl) as Hlet;
    unfold Re.wb, Re.accept in *;
    rewrite (prev_of_letters prev mid Hmid Hlet) in *.
  - now destruct (Re.word_opt (hd_error post)).
  - now rewrite H.
Qed.

Lemma leading_word_iff (w : str) (s : str) :
  keyword w ->
  Re.match_ (Re.seqs [Re.bos; Re.star isspace; Re.word_i w; Re.wb]) s = true <->
  leads_with w s.
Proof.
  intros Hk. unfold Re.match_, Re.seqs. simpl.
  unfold Re.seq, Re.eps, Re.bos. rewrite star_iff. split.
  - intros (ws & rest & -> & Hws & H).
    apply (word_then_wb_iff w _ _ Hk) in H as (mid & post & -> & Hm & Hn).
    now exists ws, mid, post.
  - intros (ws & mid & post & -> & Hws & Hm & Hn).
    exists ws, (mid ++ post). repeat split; auto.
    apply (word_then_wb_iff w _ _ Hk). now exists mid, post.
Qed.

Lemma leading_re_iff (kws : list string) (s : str) :
  Forall (fun kw => keyword (lit kw)) kws ->
  Re.match_ (leading_re kws) s = true <->
  exists kw, In kw kws /\ leads_with (lit kw) s.
Proof.
  intros Hk. rewrite Forall_forall in Hk.
  unfold Re.match_, leading_re, Re.seqs. simpl.
  unfold Re.seq, Re.eps, Re.bos. rewrite star_iff. split.
  - intros (ws & rest & -> & Hws & H).
    apply words_iff in H as (kw & Hin & H).
    apply (word_then_wb_iff _ _ _ (Hk kw Hin)) in H as (mid & post & -> & Hm & Hn).
    exists kw. split; [exact Hin|]. now exists ws, mid, post.
  - intros (kw & Hin & ws & mid & post & -> & Hws & Hm & Hn).
    exists ws, (mid ++ post). repeat split; auto.
    apply words_iff. exists kw. split; [exact Hin|].
    apply (word_then_wb_iff _ _ _ (Hk kw Hin)). now exists mid, post.
Qed.

Lemma select_keyword : keyword (lit "select").
Proof. split; [discriminate | reflexivity]. Qed.

Lemma allowed_keywords_ok : Forall (fun kw => keyword (lit kw)) allowed_keywords.
Proof. now apply keywords_ok. Qed.

Lemma select_iff (s : str) :
  Re.match_ select_re s = true <-> leads_with (lit "select") s.
Proof. exact (leading_word_iff (lit "select") s select_keyword). Qed.

Lemma allowed_iff (s : str) :
  Re.match_ allowed_re s = true <->
  exists kw, In kw allowed_keywords /\ leads_with (lit kw) s.
Proof. exact (leading_re_iff allowed_keywords s allowed_keywords_ok). Qed.

(** A leading keyword stays one when text that starts with a non-word
    character is appended. *)
Lemma leads_with_app (kw s x : str) :
  Re.word_opt (hd_error x) = false -> leads_with kw s -> leads_with kw (s ++ x).
Proof.
  intros Hx (ws & mid & post & -> & Hws & Hm & Hn).
  exists ws, mid, (post ++ x). repeat split; auto.
  - now rewrite <- !app_assoc.
  - destruct post as [|c post]; [exact Hx | exact Hn].
Qed.

Lemma select_app_limit (s : str) (cap : string) :
  Re.match_ select_re s = true ->
  Re.match_ select_re (s ++ lit (String " " cap)) = true.
Proof.
  rewrite !select_iff. apply leads_with_app. reflexivity.
Qed.

(** A leading keyword is a word of the statement. *)
Lemma leads_with_occurs (kw s : str) :
  leads_with kw s -> occurs_as_word kw s.
Proof.
  intros (ws & mid & post & -> & Hws & Hm & Hn).
  exists ws, mid, post. repeat split; auto.
  apply last_char_nonword. exact (forallb_impl _ _ ws space_nonword Hws).
Qed.

(** The two leading keywords of a statement are the same word. *)
Lemma leads_with_same (kw1 kw2 s : str) :
  keyword kw1 -> keyword kw2 ->
  leads_with kw1 s -> leads_with kw2 s -> hd_error (map lower kw1) = hd_error (map lower kw2).
Proof.
  intros [Hne1 Hl1] [Hne2 Hl2]
         (ws & mid & post & -> & Hws & Hm & _) (ws' & mid' & post' & E & Hws' & Hm' & _).
  pose proof (same_word_nonempty _ _ Hm Hne1) as Hmid.
  pose proof (same_word_letters _ _ Hm Hl1) as Hlet.
  pose proof (same_word_nonempty _ _ Hm' Hne2) as Hmid'.
  pose proof (same_word_letters _ _ Hm' Hl2) as Hlet'.
  unfold same_word in Hm, Hm'. rewrite <- Hm, <- Hm'.
  clear Hm Hm' Hne1 Hne2 Hl1 Hl2.
  revert ws' E Hws'. induction ws as [|c ws IH]; intros ws' E Hws'.
  - destruct mid as [|x mid]; [congruence|].
    destruct ws' as [|c' ws'].
    + destruct mid' as [|x' mid']; [congruence|].
      simpl in E. injection E as -> _. reflexivity.
    + simpl in E, Hws', Hlet. injection E as -> _.
      apply andb_true_iff in Hws' as [Hc _].
      apply andb_true_iff in Hlet as [Hx _].
      rewrite (letter_not_space _ Hx) in Hc. discriminate.
  - simpl in Hws. apply andb_true_iff in Hws as [Hc Hws].
    destruct ws' as [|c' ws'].
    + destruct mid' as [|x' mid']; [congruence|].
      simpl in E, Hlet'. injection E as -> _.
      apply andb_true_iff in Hlet' as [Hx _].
      rewrite (letter_not_space _ Hx) in Hc. discriminate.
    + simpl in E, Hws'. injection E as _ E.
      apply andb_true_iff in Hws' as [_ Hws'].
      exact (IH Hws ws' E Hws').
Qed.

(** * The batch loop *)

Lemma loop_app (D : driver) (sm : option SecurityManager) (a b : list str)
      (acc : list (pyval (Value D))) (w : world D) :
  App.loop sm (a ++ b) acc w =
  match App.loop sm a acc w with
  | (inl e, w') => (inl e, w')
  | (inr acc', w') => App.loop sm b acc' w'
  end.
Proof.
  revert acc w. induction a as [|s a IH]; intros acc w; [reflexivity|].
  cbn [app App.loop]. destruct (App.body sm s w) as [[e | v] w'].
  - reflexivity.
  - apply IH.
Qed.

Lemma first_such (f : str -> bool) (l : list str) :
  (exists x, In x l /\ f x = true) ->
  exists before d after,
    l = before ++ d :: after /\ f d = true /\
    Forall (fun x => f x = false) before.
Proof.
  induction l as [|y l IH]; intros (x & Hin & Hx); [destruct Hin|].
  destruct (f y) eqn:Hy.
  - exists [], y, l. now repeat split.
  - destruct Hin as [-> | Hin]; [congruence|].
    destruct IH as (before & d & after & -> & Hd & Hb); [now exists x|].
    exists (y :: before), d, after. repeat split; auto.
Qed.

Lemma body_dangerous (D : driver) (sm : option SecurityManager) (s : str) (w : world D) :
  Re.search dangerous_re s = true -> App.body sm s w = (inl err_dangerous, w).
Proof. intros H. unfold App.body. cbv zeta. now rewrite H. Qed.

(** * The claims *)

(** C1, as stated, fails on the batch gateway of [app.py]: with nobody
    logged in, the batch [DELETE FROM t; DROP TABLE t] holds the standalone
    word DROP and is answered with the authentication error of its first
    statement, not with the dangerous-operation error. *)
Lemma dangerous_keyword_batch_counterexample :
  has_keyword dangerous_keywords (lit "DELETE FROM t; DROP TABLE t") /\
  App._run Toy.guest (lit "DELETE FROM t; DROP TABLE t") Toy.w0
    = (PStr err_auth, Toy.w0) /\
  err_auth <> err_dangerous.
Proof.
  split; [|split].
  - apply dangerous_iff. vm_compute. reflexivity.
  - reflexivity.
  - discriminate.
Qed.

(** C1 (amended).  When DROP, TRUNCATE, EXEC or EXECUTE occurs in the raw
    input as a standalone word (any case), the single-statement gateway of
    [main.py] returns the dangerous-operation error and touches nothing,
    whatever else the input holds and whatever the authorization state.  The
    batch gateway of [app.py] checks and runs its statements one after the
    other: the batch has a first statement that holds such a word, and the
    call returns the dangerous-operation error as soon as the statements
    before it have run without error; if one of them is refused or fails,
    its error is returned instead. *)
Theorem dangerous_keyword_rejected
        (D : driver) (sm : option SecurityManager) (sql : str) (w : world D) :
  has_keyword dangerous_keywords sql ->
  Main._run sm sql w = (PStr err_dangerous, w) /\
  exists before s after,
    App.statements sql = before ++ s :: after /\
    has_keyword dangerous_keywords s /\
    Forall (fun x => ~ has_keyword dangerous_keywords x) before /\
    (forall results w1,
        App.loop sm before [] w = (inr results, w1) ->
        App._run sm sql w = (PStr err_dangerous, w1)) /\
    (forall e w1,
        App.loop sm before [] w = (inl e, w1) ->
        App._run sm sql w = (PStr e, w1)).
Proof.
  intros H. split.
  - apply (has_keyword_normalise _ sql dangerous_keywords_ok) in H.
    apply dangerous_iff in H.
    unfold Main._run. cbv zeta. now rewrite H.
  - destruct (has_keyword_statement _ sql dangerous_keywords_ok H) as (x & Hin & Hx).
    destruct (first_such (Re.search dangerous_re) (App.statements sql))
      as (before & s & after & E & Hs & Hb).
    { exists x. split; [exact Hin|]. now apply dangerous_iff. }
    exists before, s, after. split; [exact E|].
    split; [now apply dangerous_iff|]. split.
    + apply Forall_impl with (2 := Hb). intros y Hy Hk.
      apply dangerous_iff in Hk. congruence.
    + split; intros r w1 Hloop; unfold App._run;
        rewrite E, loop_app, Hloop; [|reflexivity].
      cbn [App.loop]. now rewrite (body_dangerous D sm s w1 Hs).
Qed.

Lemma dangerous_keyword_rejected_witness :
  has_keyword dangerous_keywords (lit "SELECT 1; drop table t") /\
  Main._run Toy.admin (lit "SELECT 1; drop table t") Toy.w0
    = (PStr err_dangerous, Toy.w0).
Proof.
  assert (H : has_keyword dangerous_keywords (lit "SELECT 1; drop table t")).
  { apply dangerous_iff. vm_compute. reflexivity. }
  split; [exact H|].
  exact (proj1 (dangerous_keyword_rejected Toy.D Toy.admin _ Toy.w0 H)).
Defined.

(** * One pass through the connection block *)

Lemma split_ws_aux_nil (cur s : str) :
  split_ws_aux cur s = [] -> cur = [] /\ forallb isspace s = true.
Proof.
  revert cur. induction s as [|c s IH]; intros cur; simpl.
  - destruct cur; [auto | discriminate].
  - destruct (isspace c).
    + destruct cur; [|discriminate]. intros H. now destruct (IH [] H).
    + intros H. destruct (IH _ H) as [E _]. discriminate.
Qed.

Lemma leads_with_split_ws (kw s : str) :
  keyword kw -> leads_with kw s -> split_ws s <> [].
Proof.
  intros [Hne Hl] (ws & mid & post & -> & _ & Hm & _) E.
  apply split_ws_aux_nil in E as [_ E].
  rewrite !forallb_app in E.
  apply andb_true_iff in E as [_ E]. apply andb_true_iff in E as [E _].
  pose proof (same_word_nonempty _ _ Hm Hne) as Hmid.
  pose proof (same_word_letters _ _ Hm Hl) as Hlet.
  destruct mid as [|x mid]; [congruence|]. simpl in E, Hlet.
  apply andb_true_iff in E as [Hx _]. apply andb_true_iff in Hlet as [Hx' _].
  rewrite (letter_not_space _ Hx') in Hx. discriminate.
Qed.

Lemma allowed_split_ws (s : str) :
  Re.match_ allowed_re s = true -> split_ws s <> [].
Proof.
  intros H. apply allowed_iff in H as (kw & Hin & H).
  pose proof allowed_keywords_ok as Hk. rewrite Forall_forall in Hk.
  exact (leads_with_split_ws _ _ (Hk kw Hin) H).
Qed.

Lemma with_limit_select (s : str) :
  Re.match_ select_re s = true -> Re.match_ select_re (with_limit s) = true.
Proof.
  intros H. unfold with_limit.
  destruct (_ && _ && _); [now apply (select_app_limit s "LIMIT 100") | exact H].
Qed.

Lemma with_limit_other (s : str) :
  Re.match_ select_re s = false -> with_limit s = s.
Proof. intros H. unfold with_limit. now rewrite H. Qed.

(** What the connection block does with an accepted statement: a SELECT is
    executed and fetched and nothing is committed; any other statement is
    executed, committed and acknowledged, and keeps the committed contents
    as they were when the driver raises. *)
Lemma execution_cases (D : driver) (s : str) (w : world D)
      (r : str + pyval (Value D)) (w' : world D) :
  Re.match_ allowed_re s = true ->
  with_connection (with_limit s) w = (r, w') ->
  (Re.match_ select_re s = true /\
   w' = logged [Connect; Execute (with_limit s); Close] w /\
   ((exists e, r = inl e) \/ exists cols rows, r = inr (PDict cols rows)))
  \/
  (Re.match_ select_re s = false /\
   ((db w' = db w /\ exists e, r = inl e) \/
    (exists operation rest,
        split_ws s = operation :: rest /\
        r = inr (PStr (acknowledgment operation)))) /\
   exists es, trace w' = trace w ++ es /\
              (es = [Connect; Execute s; Close] \/
               es = [Connect; Execute s; Commit; Close])).
Proof.
  intros Ha. destruct (Re.match_ select_re s) eqn:Hs.
  - pose proof (with_limit_select s Hs) as Hs'.
    unfold with_connection. rewrite Hs'.
    destruct (exec_driver_sql D (with_limit s) (db w)) as [e | [result pending]];
      intros E; injection E as <- <-; left; repeat split; eauto.
  - rewrite (with_limit_other s Hs). unfold with_connection. rewrite Hs.
    pose proof (allowed_split_ws s Ha) as Hne.
    destruct (exec_driver_sql D s (db w)) as [e | [result pending]].
    + intros E; injection E as <- <-. right.
      split; [reflexivity|]. split; [left; split; [reflexivity | now exists e]|].
      exists [Connect; Execute s; Close]. split; [reflexivity | now left].
    + destruct (commit D pending) as [e | db'].
      * intros E; injection E as <- <-. right.
        split; [reflexivity|]. split; [left; split; [reflexivity | now exists e]|].
        exists [Connect; Execute s; Commit; Close]. split; [reflexivity | now right].
      * destruct (split_ws s) as [|operation rest]; [congruence|].
        intros E; injection E as <- <-. right.
        split; [reflexivity|]. split; [right; now exists operation, rest|].
        exists [Connect; Execute s; Commit; Close]. split; [reflexivity | now right].
Qed.

Lemma last_char_app (a b : str) :
  b <> [] -> last_char (a ++ b) = last_char b.
Proof.
  intros Hb. unfold last_char. rewrite prev_of_app.
  now apply prev_of_nonempty.
Qed.

Lemma acknowledgment_not_error (operation e : str) :
  In e validation_errors -> acknowledgment operation <> e.
Proof.
  intros Hin E. apply (f_equal last_char) in E.
  unfold acknowledgment in E. rewrite last_char_app in E by discriminate.
  destruct Hin as [<- | [<- | [<- | [<- | []]]]]; discriminate.
Qed.

(** The committed contents after [main.py]'s [_run] returned a validation
    message are the ones before the call. *)
Lemma main_error_db (D : driver) (sm : option SecurityManager) (sql : str)
      (w w' : world D) (e : str) :
  In e validation_errors ->
  Main._run sm sql w = (PStr e, w') -> db w' = db w.
Proof.
  intros He. unfold Main._run. cbv zeta.
  destruct (Re.search dangerous_re _); [now intros [= _ <-]|].
  destruct (_ && not_authenticated sm); [now intros [= _ <-]|].
  destruct (contains _ _); [now intros [= _ <-]|].
  destruct (Re.match_ allowed_re _) eqn:Ha; [|now intros [= _ <-]].
  cbn [negb]. change (if Re.match_ select_re (normalise sql) && _ && _ then _ else _)
    with (with_limit (normalise sql)).
  destruct (with_connection _ w) as [r w1] eqn:Hw.
  destruct (execution_cases D _ w r w1 Ha Hw)
    as [(_ & -> & Hr) | (_ & [[Hdb (x & ->)] | (op & rest & _ & ->)] & _)].
  - destruct Hr as [(x & ->) | (cols & rows & ->)]; [now intros [= _ <-]|].
    discriminate.
  - intros [= _ <-]. exact Hdb.
  - intros [= Hack _]. now apply acknowledgment_not_error in Hack.
Qed.

(** * One turn of the batch loop *)

(** Either a validation layer refuses the statement and nothing happens, or
    the statement goes through the connection block. *)
Lemma body_cases (D : driver) (sm : option SecurityManager) (s : str)
      (w : world D) (r : str + pyval (Value D)) (w' : world D) :
  App.body sm s w = (r, w') ->
  (w' = w /\ exists e, r = inl e /\ In e validation_errors)
  \/
  (Re.search dangerous_re s = false /\
   Re.search write_re s && not_authenticated sm = false /\
   Re.match_ allowed_re s = true /\
   exists r0, with_connection (with_limit s) w = (r0, w') /\
              r = match r0 with
                  | inl e => inl (lit "ERROR: " ++ e)
                  | inr v => inr v
                  end).
Proof.
  unfold App.body. cbv zeta.
  destruct (Re.search dangerous_re s).
  { intros [= <- <-]. left. split; [reflexivity|].
    exists err_dangerous. split; [reflexivity|]. simpl. auto. }
  destruct (_ && not_authenticated sm).
  { intros [= <- <-]. left. split; [reflexivity|].
    exists err_auth. split; [reflexivity|]. simpl. auto. }
  destruct (Re.match_ allowed_re s).
  2: { intros [= <- <-]. left. split; [reflexivity|].
       exists err_only. split; [reflexivity|]. simpl. auto. }
  cbn [negb]. change (if Re.match_ select_re s && _ && _ then _ else _)
    with (with_limit s).
  destruct (with_connection _ w) as [r0 w1].
  intros E. right. repeat split; auto. exists r0.
  destruct r0; injection E as <- <-; auto.
Qed.

Lemma body_inl_db (D : driver) (sm : option SecurityManager) (s : str)
      (w w' : world D) (e : str) :
  App.body sm s w = (inl e, w') -> db w' = db w.
Proof.
  intros H. apply body_cases in H
    as [(-> & _) | (_ & _ & Ha & r0 & Hw & Hr)]; [reflexivity|].
  destruct (execution_cases D s w r0 w' Ha Hw)
    as [(_ & -> & _) | (_ & [[Hdb _] | (op & rest & _ & ->)] & _)];
    [reflexivity | exact Hdb | discriminate].
Qed.

Lemma body_inr_shape (D : driver) (sm : option SecurityManager) (s : str)
      (w w' : world D) (v : pyval (Value D)) :
  App.body sm s w = (inr v, w') ->
  (exists cols rows, v = PDict cols rows) \/
  (exists operation, v = PStr (acknowledgment operation)).
Proof.
  intros H. apply body_cases in H
    as [(_ & e & He & _) | (_ & _ & Ha & r0 & Hw & Hr)]; [discriminate|].
  destruct (execution_cases D s w r0 w' Ha Hw)
    as [(_ & _ & [(x & ->) | (cols & rows & ->)])
       | (_ & [[_ (x & ->)] | (op & rest & _ & ->)] & _)];
    try discriminate; injection Hr as ->; [left | right]; eauto.
Qed.

Lemma loop_inl (D : driver) (sm : option SecurityManager) (l : list str)
      (acc : list (pyval (Value D))) (w w' : world D) (e : str) :
  App.loop sm l acc w = (inl e, w') ->
  exists before s after acc1 w1,
    l = before ++ s :: after /\
    App.loop sm before acc w = (inr acc1, w1) /\
    App.body sm s w1 = (inl e, w').
Proof.
  revert acc w. induction l as [|s l IH]; intros acc w; cbn [App.loop].
  - discriminate.
  - destruct (App.body sm s w) as [[x | v] w1] eqn:Hb.
    + intros [= <- <-]. now exists [], s, l, acc, w.
    + intros H. destruct (IH _ _ H) as (before & s' & after & acc1 & w2 & -> & Hl & Hs).
      exists (s :: before), s', after, acc1, w2. repeat split; auto.
      cbn [App.loop]. now rewrite Hb.
Qed.

Lemma loop_inr (D : driver) (sm : option SecurityManager) (l : list str)
      (acc : list (pyval (Value D))) (w w' : world D)
      (results : list (pyval (Value D))) :
  App.loop sm l acc w = (inr results, w') ->
  exists new, results = acc ++ new /\ Forall produced new /\
              List.length new = List.length l.
Proof.
  revert acc w. induction l as [|s l IH]; intros acc w; cbn [App.loop].
  - intros [= <- <-]. exists []. now rewrite app_nil_r.
  - destruct (App.body sm s w) as [[x | v] w1] eqn:Hb; [discriminate|].
    intros H. destruct (IH _ _ H) as (new & -> & Hnew & Hlen).
    exists (v :: new). rewrite <- app_assoc. repeat split; auto.
    + constructor; [|exact Hnew]. exact (body_inr_shape D sm s w w1 v Hb).
    + simpl. now rewrite Hlen.
Qed.

(** A validation message returned by [app.py]'s [_run] comes from inside the
    loop: some statement was refused (or raised), the statements before it
    ran to their end, and the refused one left the committed contents alone. *)
Lemma app_error_db (D : driver) (sm : option SecurityManager) (sql : str)
      (w w' : world D) (e : str) :
  In e validation_errors ->
  App._run sm sql w = (PStr e, w') ->
  exists before s after results w1,
    App.statements sql = before ++ s :: after /\
    App.loop sm before [] w = (inr results, w1) /\
    App.body sm s w1 = (inl e, w') /\
    db w' = db w1.
Proof.
  intros He. unfold App._run.
  destruct (App.loop sm (App.statements sql) [] w) as [[x | results] w1] eqn:Hl.
  - intros [= <- <-].
    destruct (loop_inl D sm _ _ _ _ _ Hl) as (before & s & after & acc1 & w2 & E & Hb & Hs).
    exists before, s, after, acc1, w2. repeat split; auto.
    exact (body_inl_db D sm s w2 w1 x Hs).
  - destruct (loop_inr D sm _ _ _ _ _ Hl) as (new & -> & Hnew & _).
    cbn [app]. destruct new as [|v [|v' new]]; try discriminate.
    intros [= -> _]. apply Forall_inv in Hnew.
    destruct Hnew as [(cols & rows & Hv) | (op & Hv)]; [discriminate|].
    injection Hv as ->. destruct (acknowledgment_not_error op _ He eq_refl).
Qed.

(** C2, as stated, fails on the batch gateway of [app.py]: for the batch
    [UPDATE t SET a = 1; DROP TABLE t] of a logged-in caller the call
    returns the dangerous-operation message, and the UPDATE of the same
    input has been executed and committed. *)
Lemma validation_error_after_commit_counterexample :
  In err_dangerous validation_errors /\
  fst (App._run Toy.admin (lit "UPDATE t SET a = 1; DROP TABLE t") Toy.w0)
    = PStr err_dangerous /\
  db (snd (App._run Toy.admin (lit "UPDATE t SET a = 1; DROP TABLE t") Toy.w0))
    = [lit "UPDATE t SET a = 1"] /\
  db (snd (App._run Toy.admin (lit "UPDATE t SET a = 1; DROP TABLE t") Toy.w0))
    <> db Toy.w0.
Proof.
  split; [simpl; auto|]. split; [reflexivity|].
  split; [reflexivity|].
  intros H. apply (f_equal (@List.length _)) in H. revert H.
  vm_compute. discriminate.
Qed.

(** C2 (amended).  When a call returns one of the validation messages
    (dangerous operation, authentication required, multiple statements,
    unsupported statement type), the single-statement gateway of [main.py]
    has left the committed contents of the data source as they were.  In the
    batch gateway of [app.py] the message belongs to one statement of the
    batch: the statements before it have run to their end, and the data
    source is as they left it; the refused statement and the ones after it
    have changed nothing. *)
Theorem validation_error_no_partial_execution
        (D : driver) (sm : option SecurityManager) (sql : str)
        (w w' : world D) (e : str) :
  In e validation_errors ->
  (Main._run sm sql w = (PStr e, w') -> db w' = db w) /\
  (App._run sm sql w = (PStr e, w') ->
   exists before s after results w1,
     App.statements sql = before ++ s :: after /\
     App.loop sm before [] w = (inr results, w1) /\
     App.body sm s w1 = (inl e, w') /\
     db w' = db w1).
Proof.
  intros He. split.
  - exact (main_error_db D sm sql w w' e He).
  - exact (app_error_db D sm sql w w' e He).
Qed.

Lemma validation_error_no_partial_execution_witness :
  In err_multiple validation_errors /\
  Main._run Toy.admin (lit "UPDATE t SET a = 1; SELECT 2") Toy.w0
    = (PStr err_multiple, Toy.w0) /\
  db Toy.w0 = db Toy.w0.
Proof.
  assert (He : In err_multiple validation_errors) by (simpl; auto).
  assert (Hr : Main._run Toy.admin (lit "UPDATE t SET a = 1; SELECT 2") Toy.w0
               = (PStr err_multiple, Toy.w0)) by reflexivity.
  split; [exact He|]. split; [exact Hr|].
  exact (proj1 (validation_error_no_partial_execution
                  Toy.D Toy.admin _ Toy.w0 Toy.w0 err_multiple He) Hr).
Defined.

Lemma dangerous_normalise (sql : str) :
  Re.search dangerous_re (normalise sql) = true <->
  has_keyword dangerous_keywords sql.
Proof.
  rewrite dangerous_iff. exact (has_keyword_normalise _ sql dangerous_keywords_ok).
Qed.

Lemma write_normalise (sql : str) :
  Re.search write_re (normalise sql) = true <-> has_keyword write_keywords sql.
Proof.
  rewrite write_iff. exact (has_keyword_normalise _ sql write_keywords_ok).
Qed.

Lemma not_true_iff (b : bool) (P : Prop) : (b = true <-> P) -> ~ P -> b = false.
Proof. intros H Hn. destruct b; [|reflexivity]. now destruct Hn; apply H. Qed.

(** The validation layers of [main.py], in the order in which they answer. *)
Lemma main_layers (D : driver) (sm : option SecurityManager) (sql : str) (w : world D) :
  (has_keyword dangerous_keywords sql ->
   Main._run sm sql w = (PStr err_dangerous, w)) /\
  (~ has_keyword dangerous_keywords sql ->
   has_keyword write_keywords sql -> not_authenticated sm = true ->
   Main._run sm sql w = (PStr err_auth, w)) /\
  (~ has_keyword dangerous_keywords sql ->
   (has_keyword write_keywords sql -> not_authenticated sm = false) ->
   contains ";" (normalise sql) = true ->
   Main._run sm sql w = (PStr err_multiple, w)) /\
  (~ has_keyword dangerous_keywords sql ->
   (has_keyword write_keywords sql -> not_authenticated sm = false) ->
   contains ";" (normalise sql) = false ->
   Re.match_ allowed_re (normalise sql) = false ->
   Main._run sm sql w = (PStr err_only, w)).
Proof.
  assert (Hauth : (has_keyword write_keywords sql -> not_authenticated sm = false) ->
                  Re.search write_re (normalise sql) && not_authenticated sm = false).
  { intros H. destruct (Re.search write_re (normalise sql)) eqn:Hw; [|reflexivity].
    apply write_normalise in Hw. now rewrite (H Hw). }
  unfold Main._run. cbv zeta. repeat split.
  - intros H. apply dangerous_normalise in H. now rewrite H.
  - intros Hd Hw Ha. apply (not_true_iff _ _ (dangerous_normalise sql)) in Hd.
    apply write_normalise in Hw. now rewrite Hd, Hw, Ha.
  - intros Hd Hw Hc. apply (not_true_iff _ _ (dangerous_normalise sql)) in Hd.
    now rewrite Hd, (Hauth Hw), Hc.
  - intros Hd Hw Hc Ha. apply (not_true_iff _ _ (dangerous_normalise sql)) in Hd.
    now rewrite Hd, (Hauth Hw), Hc, Ha.
Qed.

Lemma has_keyword_dec (kws : list string) (s : str) :
  Forall (fun kw => keyword (lit kw)) kws ->
  has_keyword kws s \/ ~ has_keyword kws s.
Proof.
  intros Hk. destruct (Re.search (keyword_re kws) s) eqn:E.
  - left. now apply search_keyword_iff.
  - right. intros H. apply (search_keyword_iff kws s Hk) in H. congruence.
Qed.

(** C3, as stated, fails: [ALTER TABLE t DROP COLUMN c] is a write (ALTER)
    submitted without authorization, and the answer is the
    dangerous-operation message, not the authentication one. *)
Lemma unauthenticated_write_counterexample :
  has_keyword write_keywords (lit "ALTER TABLE t DROP COLUMN c") /\
  not_authenticated Toy.guest = true /\
  Main._run Toy.guest (lit "ALTER TABLE t DROP COLUMN c") Toy.w0
    = (PStr err_dangerous, Toy.w0) /\
  err_dangerous <> err_auth.
Proof.
  split; [apply write_iff; vm_compute; reflexivity|].
  split; [reflexivity|]. split; [reflexivity | discriminate].
Qed.

(** C3 (amended).  A statement that holds INSERT, UPDATE, DELETE, CREATE,
    ALTER or REPLACE as a word and is submitted while the authorization
    context is false is refused before any connection is opened: the data
    source and its trace are as before the statement.  The message is the
    authentication one when the statement holds none of DROP, TRUNCATE, EXEC,
    EXECUTE as a word, and the dangerous-operation one when it does.  In the
    batch gateway this is what happens when the loop reaches the statement. *)
Theorem unauthenticated_write_rejected
        (D : driver) (sm : option SecurityManager) (s : str) (w : world D) :
  has_keyword write_keywords s ->
  not_authenticated sm = true ->
  exists e,
    (has_keyword dangerous_keywords s -> e = err_dangerous) /\
    (~ has_keyword dangerous_keywords s -> e = err_auth) /\
    Main._run sm s w = (PStr e, w) /\
    App.body sm s w = (inl e, w) /\
    (forall sql before after results w0,
        App.statements sql = before ++ s :: after ->
        App.loop sm before [] w0 = (inr results, w) ->
        App._run sm sql w0 = (PStr e, w)).
Proof.
  intros Hw Ha.
  assert (Hbody : forall e,
             App.body sm s w = (inl e, w) ->
             forall sql before after results w0,
               App.statements sql = before ++ s :: after ->
               App.loop sm before [] w0 = (inr results, w) ->
               App._run sm sql w0 = (PStr e, w)).
  { intros e Hb sql before after results w0 E Hl.
    unfold App._run. rewrite E, loop_app, Hl. cbn [App.loop]. now rewrite Hb. }
  destruct (main_layers D sm s w) as (L1 & L2 & _).
  destruct (has_keyword_dec dangerous_keywords s dangerous_keywords_ok) as [Hd | Hd].
  - exists err_dangerous. split; [reflexivity|]. split; [contradiction|].
    split; [exact (L1 Hd)|].
    assert (Hb : App.body sm s w = (inl err_dangerous, w)).
    { apply body_dangerous. now apply dangerous_iff. }
    split; [exact Hb | exact (Hbody _ Hb)].
  - exists err_auth. split; [contradiction|]. split; [reflexivity|].
    split; [exact (L2 Hd Hw Ha)|].
    assert (Hb : App.body sm s w = (inl err_auth, w)).
    { unfold App.body. cbv zeta.
      rewrite (not_true_iff _ _ (dangerous_iff s) Hd).
      apply write_iff in Hw. now rewrite Hw, Ha. }
    split; [exact Hb | exact (Hbody _ Hb)].
Qed.

Lemma unauthenticated_write_rejected_witness :
  has_keyword write_keywords (lit "delete from students") /\
  not_authenticated None = true /\
  exists e,
    (has_keyword dangerous_keywords (lit "delete from students") -> e = err_dangerous) /\
    (~ has_keyword dangerous_keywords (lit "delete from students") -> e = err_auth) /\
    Main._run None (lit "delete from students") Toy.w0 = (PStr e, Toy.w0) /\
    App.body None (lit "delete from students") Toy.w0 = (inl e, Toy.w0) /\
    (forall sql before after results w0,
        App.statements sql = before ++ lit "delete from students" :: after ->
        App.loop None before [] w0 = (inr results, Toy.w0) ->
        App._run None sql w0 = (PStr e, Toy.w0)).
Proof.
  assert (Hw : has_keyword write_keywords (lit "delete from students")).
  { apply write_iff. vm_compute. reflexivity. }
  split; [exact Hw|]. split; [reflexivity|].
  exact (unauthenticated_write_rejected Toy.D None _ Toy.w0 Hw eq_refl).
Defined.

(** C4, as stated, fails: [SELECT 1; DROP TABLE t] still holds a separator
    after trimming, and the answer is the dangerous-operation message, not
    the multiple-statements one. *)
Lemma multiple_statements_counterexample :
  contains ";" (normalise (lit "SELECT 1; DROP TABLE t")) = true /\
  Main._run Toy.admin (lit "SELECT 1; DROP TABLE t") Toy.w0
    = (PStr err_dangerous, Toy.w0) /\
  err_dangerous <> err_multiple.
Proof.
  split; [vm_compute; reflexivity|].
  split; [reflexivity | discriminate].
Qed.

(** C4 (amended).  In the single-statement gateway of [main.py], an input
    whose trimmed body (after stripping trailing separators) still holds the
    separator [;] is refused as a whole before anything is executed: the
    data source and its trace are untouched.  The message is the
    multiple-statements one unless an earlier layer answers first: the
    dangerous-operation message when the input holds DROP, TRUNCATE, EXEC or
    EXECUTE as a word, else the authentication message when it holds a write
    keyword and the caller is not authorized. *)
Theorem multiple_statements_rejected
        (D : driver) (sm : option SecurityManager) (sql : str) (w : world D) :
  contains ";" (normalise sql) = true ->
  exists e,
    Main._run sm sql w = (PStr e, w) /\
    (has_keyword dangerous_keywords sql -> e = err_dangerous) /\
    (~ has_keyword dangerous_keywords sql ->
     has_keyword write_keywords sql /\ not_authenticated sm = true ->
     e = err_auth) /\
    (~ has_keyword dangerous_keywords sql ->
     ~ (has_keyword write_keywords sql /\ not_authenticated sm = true) ->
     e = err_multiple).
Proof.
  intros Hc. destruct (main_layers D sm sql w) as (L1 & L2 & L3 & _).
  destruct (has_keyword_dec dangerous_keywords sql dangerous_keywords_ok) as [Hd | Hd].
  { exists err_dangerous. split; [exact (L1 Hd)|]. repeat split; tauto. }
  destruct (has_keyword_dec write_keywords sql write_keywords_ok) as [Hw | Hw].
  - destruct (not_authenticated sm) eqn:Ha.
    + exists err_auth. split; [exact (L2 Hd Hw eq_refl)|]. repeat split; tauto.
    + exists err_multiple. split; [exact (L3 Hd (fun _ => eq_refl) Hc)|].
      repeat split; try tauto. intros _ [_ H]. discriminate.
  - exists err_multiple. split; [apply (L3 Hd); [tauto | exact Hc]|].
    repeat split; tauto.
Qed.

Lemma multiple_statements_rejected_witness :
  contains ";" (normalise (lit "SELECT 1; SELECT 2")) = true /\
  exists e,
    Main._run Toy.guest (lit "SELECT 1; SELECT 2") Toy.w0 = (PStr e, Toy.w0) /\
    (has_keyword dangerous_keywords (lit "SELECT 1; SELECT 2") -> e = err_dangerous) /\
    (~ has_keyword dangerous_keywords (lit "SELECT 1; SELECT 2") ->
     has_keyword write_keywords (lit "SELECT 1; SELECT 2") /\
     not_authenticated Toy.guest = true ->
     e = err_auth) /\
    (~ has_keyword dangerous_keywords (lit "SELECT 1; SELECT 2") ->
     ~ (has_keyword write_keywords (lit "SELECT 1; SELECT 2") /\
        not_authenticated Toy.guest = true) ->
     e = err_multiple).
Proof.
  split; [vm_compute; reflexivity|].
  apply (multiple_statements_rejected Toy.D Toy.guest _ Toy.w0).
  vm_compute. reflexivity.
Defined.

(** C10.  In the single-statement gateway of [main.py] the validation layers
    look at the whole input (trimmed, before any splitting) and answer in a
    fixed order: dangerous keyword, then write without authorization, then
    multiple statements, then leading keyword.  So an input that holds both a
    dangerous keyword and several statements gets the dangerous-operation
    message.  None of these answers touches the data source. *)
Theorem validation_order
        (D : driver) (sm : option SecurityManager) (sql : str) (w : world D) :
  (has_keyword dangerous_keywords sql ->
   Main._run sm sql w = (PStr err_dangerous, w)) /\
  (has_keyword dangerous_keywords sql ->
   contains ";" (normalise sql) = true ->
   Main._run sm sql w = (PStr err_dangerous, w) /\ err_dangerous <> err_multiple) /\
  (~ has_keyword dangerous_keywords sql ->
   has_keyword write_keywords sql -> not_authenticated sm = true ->
   Main._run sm sql w = (PStr err_auth, w)) /\
  (~ has_keyword dangerous_keywords sql ->
   (has_keyword write_keywords sql -> not_authenticated sm = false) ->
   contains ";" (normalise sql) = true ->
   Main._run sm sql w = (PStr err_multiple, w)) /\
  (~ has_keyword dangerous_keywords sql ->
   (has_keyword write_keywords sql -> not_authenticated sm = false) ->
   contains ";" (normalise sql) = false ->
   Re.match_ allowed_re (normalise sql) = false ->
   Main._run sm sql w = (PStr err_only, w)).
Proof.
  destruct (main_layers D sm sql w) as (L1 & L2 & L3 & L4).
  split; [exact L1|]. split; [|now repeat split].
  intros Hd _. split; [exact (L1 Hd) | discriminate].
Qed.

Lemma validation_order_witness :
  has_keyword dangerous_keywords (lit "SELECT 1; TRUNCATE TABLE t") /\
  contains ";" (normalise (lit "SELECT 1; TRUNCATE TABLE t")) = true /\
  Main._run Toy.admin (lit "SELECT 1; TRUNCATE TABLE t") Toy.w0
    = (PStr err_dangerous, Toy.w0) /\
  err_dangerous <> err_multiple.
Proof.
  assert (Hd : has_keyword dangerous_keywords (lit "SELECT 1; TRUNCATE TABLE t")).
  { apply dangerous_iff. vm_compute. reflexivity. }
  assert (Hc : contains ";" (normalise (lit "SELECT 1; TRUNCATE TABLE t")) = true).
  { vm_compute. reflexivity. }
  split; [exact Hd|]. split; [exact Hc|].
  exact (proj1 (proj2 (validation_order Toy.D Toy.admin _ Toy.w0)) Hd Hc).
Defined.

(** * The row-bound clause and the aggregate indicators *)

Lemma chr_iff (p : ascii -> bool) (k : Re.cont) (prev : option ascii) (s : str) :
  Re.chr p k prev s = true <->
  exists c rest, s = c :: rest /\ p c = true /\ k (Some c) rest = true.
Proof.
  unfold Re.chr. destruct s as [|c rest].
  - split; [discriminate | now intros (? & ? & ? & _)].
  - rewrite andb_true_iff. split.
    + intros [Hc H]. now exists c, rest.
    + now intros (c' & rest' & [= -> ->] & Hc & H).
Qed.

Lemma plus_iff (p : ascii -> bool) (k : Re.cont) (prev : option ascii) (s : str) :
  Re.plus p k prev s = true <->
  exists ws rest,
    s = ws ++ rest /\ ws <> [] /\ forallb p ws = true /\
    k (prev_of prev ws) rest = true.
Proof.
  unfold Re.plus, Re.seq. rewrite chr_iff. split.
  - intros (c & r & -> & Hc & H).
    apply star_iff in H as (ws & rest & -> & Hws & H).
    exists (c :: ws), rest. simpl. rewrite Hc. now repeat split.
  - intros (ws & rest & -> & Hne & Hws & H).
    destruct ws as [|c ws]; [congruence|]. simpl in Hws, H.
    apply andb_true_iff in Hws as [Hc Hws].
    exists c, (ws ++ rest). repeat split; auto.
    apply star_iff. now exists ws, rest.
Qed.

Lemma alts_iff (rs : list Re.t) (k : Re.cont) (prev : option ascii) (s : str) :
  Re.alts rs k prev s = true <-> exists r, In r rs /\ r k prev s = true.
Proof.
  unfold Re.alts. induction rs as [|r rs IH]; simpl.
  - unfold Re.fail. split; [discriminate | now intros (? & [] & _)].
  - unfold Re.alt at 1. rewrite orb_true_iff, IH. split.
    + intros [H | (r' & Hin & H)]; [exists r | exists r']; auto.
    + intros (r' & [<- | Hin] & H); [left | right; exists r']; auto.
Qed.

Lemma digit_is_word (c : ascii) : isdecimal c = true -> is_word c = true.
Proof. all_chars c. Qed.

Lemma prev_of_digits (prev : option ascii) (ds : str) :
  ds <> [] -> forallb isdecimal ds = true ->
  Re.word_opt (prev_of prev ds) = true.
Proof.
  revert prev. induction ds as [|c ds IH]; intros prev Hne Hd; [congruence|].
  simpl in Hd. apply andb_true_iff in Hd as [Hc Hd]. simpl.
  destruct ds as [|c' ds'].
  - simpl. now apply digit_is_word.
  - apply IH; [discriminate | exact Hd].
Qed.

Lemma word_keyword (w : string) :
  truthy (lit w) && forallb letter (lit w) = true -> keyword (lit w).
Proof.
  intros H. apply andb_true_iff in H as [Hne Hl]. split; [|exact Hl].
  intros E. now rewrite E in Hne.
Qed.

(** The word [w] read at a position, with what the first [\b] asks. *)
Lemma wb_word_iff (w : str) (k : Re.cont) (prev : option ascii) (s : str) :
  keyword w ->
  Re.wb (Re.word_i w k) prev s = true <->
  Re.word_opt prev = false /\
  exists mid rest,
    s = mid ++ rest /\ same_word mid w /\ k (prev_of prev mid) rest = true.
Proof.
  intros [Hne Hl]. unfold Re.wb. rewrite andb_true_iff, word_i_iff. split.
  - intros (Hb & mid & rest & -> & Hm & H).
    pose proof (same_word_nonempty _ _ Hm Hne) as Hmid.
    pose proof (same_word_letters _ _ Hm Hl) as Hlet.
    rewrite (hd_letters mid rest Hmid Hlet) in Hb.
    split; [now destruct (Re.word_opt prev)|]. now exists mid, rest.
  - intros (Hp & mid & rest & -> & Hm & H).
    pose proof (same_word_nonempty _ _ Hm Hne) as Hmid.
    pose proof (same_word_letters _ _ Hm Hl) as Hlet.
    rewrite Hp, (hd_letters mid rest Hmid Hlet).
    split; [reflexivity|]. now exists mid, rest.
Qed.

Lemma limit_at (prev : option ascii) (s : str) :
  limit_re Re.accept prev s = true <->
  Re.word_opt prev = false /\
  exists mid ws ds post,
    s = mid ++ ws ++ ds ++ post /\ same_word mid (lit "limit") /\
    ws <> [] /\ forallb isspace ws = true /\
    ds <> [] /\ forallb isdecimal ds = true /\
    Re.word_opt (hd_error post) = false.
Proof.
  assert (Hk : keyword (lit "limit")) by now apply word_keyword.
  change (limit_re Re.accept prev s)
    with (Re.wb (Re.word_i (lit "limit")
                   (Re.plus isspace (Re.plus isdecimal (Re.wb Re.accept)))) prev s).
  rewrite (wb_word_iff _ _ _ _ Hk). split.
  - intros (Hp & mid & r1 & -> & Hm & H).
    apply plus_iff in H as (ws & r2 & -> & Hws & Hsp & H).
    apply plus_iff in H as (ds & post & -> & Hds & Hdg & H).
    unfold Re.wb, Re.accept in H. rewrite andb_true_r in H.
    rewrite (prev_of_digits _ ds Hds Hdg) in H.
    split; [exact Hp|]. exists mid, ws, ds, post. repeat split; auto.
    now destruct (Re.word_opt (hd_error post)).
  - intros (Hp & mid & ws & ds & post & -> & Hm & Hws & Hsp & Hds & Hdg & Hn).
    split; [exact Hp|].
    exists mid, (ws ++ ds ++ post). repeat split; auto.
    apply plus_iff. exists ws, (ds ++ post). repeat split; auto.
    apply plus_iff. exists ds, post. repeat split; auto.
    unfold Re.wb, Re.accept. now rewrite (prev_of_digits _ ds Hds Hdg), Hn.
Qed.

Lemma limit_iff (s : str) :
  Re.search limit_re s = true <-> has_limit_clause s.
Proof.
  unfold Re.search. rewrite search_from_iff. split.
  - intros (pre & rest & -> & H).
    apply limit_at in H as (Hp & mid & ws & ds & post & -> & H).
    exists pre, mid, ws, ds, post. tauto.
  - intros (pre & mid & ws & ds & post & -> & Hm & Hws & Hsp & Hds & Hdg & Hp & Hn).
    exists pre, (mid ++ ws ++ ds ++ post). split; [reflexivity|].
    apply limit_at. split; [exact Hp|]. now exists mid, ws, ds, post.
Qed.

Lemma call_at_iff (f : string) (prev : option ascii) (s : str) :
  keyword (lit f) ->
  call_re f Re.accept prev s = true <->
  Re.word_opt prev = false /\
  exists mid post, s = mid ++ "("%char :: post /\ same_word mid (lit f).
Proof.
  intros Hk.
  change (call_re f Re.accept prev s)
    with (Re.wb (Re.word_i (lit f) (Re.chr_eq "("%char Re.accept)) prev s).
  rewrite (wb_word_iff _ _ _ _ Hk). split.
  - intros (Hp & mid & rest & -> & Hm & H).
    apply (chr_iff _ _ None) in H as (c & post & -> & Hc & _).
    apply Ascii.eqb_eq in Hc. subst c. split; [exact Hp|]. now exists mid, post.
  - intros (Hp & mid & post & -> & Hm). split; [exact Hp|].
    exists mid, ("("%char :: post). repeat split; auto.
Qed.

Lemma group_by_tail_iff (prev : option ascii) (s : str) :
  group_by_tail Re.accept prev s = true <->
  exists g ws b post,
    s = g ++ ws ++ b ++ post /\ same_word g (lit "group") /\
    ws <> [] /\ forallb isspace ws = true /\ same_word b (lit "by") /\
    Re.word_opt (hd_error post) = false.
Proof.
  assert (Hby : keyword (lit "by")) by now apply word_keyword.
  change (group_by_tail Re.accept prev s)
    with (Re.word_i (lit "group")
            (Re.plus isspace (Re.word_i (lit "by") (Re.wb Re.accept))) prev s).
  rewrite word_i_iff. split.
  - intros (g & r1 & -> & Hg & H).
    apply plus_iff in H as (ws & r2 & -> & Hws & Hsp & H).
    apply (word_then_wb_iff _ _ _ Hby) in H as (b & post & -> & Hb & Hn).
    now exists g, ws, b, post.
  - intros (g & ws & b & post & -> & Hg & Hws & Hsp & Hb & Hn).
    exists g, (ws ++ b ++ post). repeat split; auto.
    apply plus_iff. exists ws, (b ++ post). repeat split; auto.
    apply (word_then_wb_iff _ _ _ Hby). now exists b, post.
Qed.

Lemma hd_group (g rest : str) :
  same_word g (lit "group") -> Re.word_opt (hd_error (g ++ rest)) = true.
Proof.
  intros Hg. assert (Hk : keyword (lit "group")) by now apply word_keyword.
  destruct Hk as [Hne Hl]. apply hd_letters.
  - exact (same_word_nonempty _ _ Hg Hne).
  - exact (same_word_letters _ _ Hg Hl).
Qed.

Lemma aggregate_functions_ok :
  forall f, In f aggregate_functions -> keyword (lit f).
Proof.
  intros f Hin. apply word_keyword.
  destruct Hin as [<- | [<- | [<- | [<- | [<- | []]]]]]; reflexivity.
Qed.

Lemma wb_group_by_iff (prev : option ascii) (s : str) :
  Re.seq Re.wb group_by_tail Re.accept prev s = true <->
  Re.word_opt prev = false /\ group_by_tail Re.accept prev s = true.
Proof.
  unfold Re.seq, Re.wb. rewrite andb_true_iff. split; intros [Hb H].
  - split; [|exact H]. apply group_by_tail_iff in H as (g & ws & b & post & -> & Hg & _).
    rewrite (hd_group g _ Hg) in Hb. now destruct (Re.word_opt prev).
  - split; [|exact H]. apply group_by_tail_iff in H as (g & ws & b & post & -> & Hg & _).
    now rewrite (hd_group g _ Hg), Hb.
Qed.

Lemma call_search_iff (f : string) (s : str) :
  keyword (lit f) ->
  (exists pre rest, s = pre ++ rest /\ call_re f Re.accept (prev_of None pre) rest = true)
  <-> has_call (lit f) s.
Proof.
  intros Hk. split.
  - intros (pre & rest & -> & H).
    apply (call_at_iff f _ _ Hk) in H as (Hp & mid & post & -> & Hm).
    now exists pre, mid, post.
  - intros (pre & mid & post & -> & Hm & Hp).
    exists pre, (mid ++ "("%char :: post). split; [reflexivity|].
    apply (call_at_iff f _ _ Hk). split; [exact Hp|]. now exists mid, post.
Qed.

Lemma aggregate_iff (s : str) :
  Re.search aggregate_re s = true <-> has_aggregate true s.
Proof.
  unfold Re.search. rewrite search_from_iff. unfold aggregate_re. split.
  - intros (pre & rest & E & H). apply alts_iff in H as (r & Hin & H).
    assert (Hcall : forall f, In f aggregate_functions ->
                    call_re f Re.accept (prev_of None pre) rest = true ->
                    has_aggregate true s).
    { intros f Hf Hc. left. exists f. split; [exact Hf|].
      apply (call_search_iff f s (aggregate_functions_ok f Hf)).
      now exists pre, rest. }
    destruct Hin as [<- | [<- | [<- | [<- | [<- | [<- | []]]]]]];
      try (eapply Hcall; [|exact H]; simpl; tauto).
    right. apply wb_group_by_iff in H as [Hp H].
    apply group_by_tail_iff in H as (g & ws & b & post & -> & H).
    subst s. exists pre, g, ws, b, post. tauto.
  - intros [(f & Hf & H) | (pre & g & ws & b & post & -> & Hg & Hws & Hsp & Hb & Hp & Hn)].
    + apply (call_search_iff f s (aggregate_functions_ok f Hf)) in H
        as (pre & rest & E & H).
      exists pre, rest. split; [exact E|]. apply alts_iff. exists (call_re f).
      split; [|exact H].
      destruct Hf as [<- | [<- | [<- | [<- | [<- | []]]]]]; simpl; tauto.
    + exists pre, (g ++ ws ++ b ++ post). split; [reflexivity|].
      apply alts_iff. exists (Re.seq Re.wb group_by_tail).
      split; [simpl; tauto|]. apply wb_group_by_iff. split; [now apply Hp|].
      apply group_by_tail_iff. now exists g, ws, b, post.
Qed.

Lemma backspace_group_by_at (prev : option ascii) (s : str) :
  Re.seq (Re.chr_eq backspace) group_by_tail Re.accept prev s = true <->
  exists rest,
    s = backspace :: rest /\ group_by_tail Re.accept (Some backspace) rest = true.
Proof.
  unfold Re.seq, Re.chr_eq. rewrite chr_iff. split.
  - intros (c & rest & -> & Hc & H). apply Ascii.eqb_eq in Hc. subst c.
    now exists rest.
  - intros (rest & -> & H). exists backspace, rest.
    repeat split; auto.
Qed.

(** What the aggregate pattern of the read-only tool finds: a call of an
    aggregate function, or GROUP BY right after a BACKSPACE character. *)
Lemma aggregate_ro_iff (s : str) :
  Re.search aggregate_re_ro s = true <->
  (exists f, In f aggregate_functions /\ has_call (lit f) s) \/
  has_backspace_group_by s.
Proof.
  unfold Re.search. rewrite search_from_iff. unfold aggregate_re_ro. split.
  - intros (pre & rest & E & H). apply alts_iff in H as (r & Hin & H).
    assert (Hcall : forall f, In f aggregate_functions ->
                    call_re f Re.accept (prev_of None pre) rest = true ->
                    (exists f, In f aggregate_functions /\ has_call (lit f) s) \/
                    has_backspace_group_by s).
    { intros f Hf Hc. left. exists f. split; [exact Hf|].
      apply (call_search_iff f s (aggregate_functions_ok f Hf)).
      now exists pre, rest. }
    destruct Hin as [<- | [<- | [<- | [<- | [<- | [<- | []]]]]]];
      try (eapply Hcall; [|exact H]; simpl; tauto).
    right. apply backspace_group_by_at in H as (rest' & -> & H).
    apply group_by_tail_iff in H as (g & ws & b & post & -> & H).
    subst s. exists pre, g, ws, b, post. tauto.
  - intros [(f & Hf & H) | (pre & g & ws & b & post & -> & Hg & Hws & Hsp & Hb & Hn)].
    + apply (call_search_iff f s (aggregate_functions_ok f Hf)) in H
        as (pre & rest & E & H).
      exists pre, rest. split; [exact E|]. apply alts_iff. exists (call_re f).
      split; [|exact H].
      destruct Hf as [<- | [<- | [<- | [<- | [<- | []]]]]]; simpl; tauto.
    + exists pre, (backspace :: g ++ ws ++ b ++ post). split; [reflexivity|].
      apply alts_iff. exists (Re.seq (Re.chr_eq backspace) group_by_tail).
      split; [simpl; tauto|]. apply backspace_group_by_at.
      exists (g ++ ws ++ b ++ post). split; [reflexivity|].
      apply group_by_tail_iff. now exists g, ws, b, post.
Qed.

Lemma backspace_group_by_weaker (s : str) :
  has_backspace_group_by s -> has_group_by false s.
Proof.
  intros (pre & g & ws & b & post & -> & Hg & Hws & Hsp & Hb & Hn).
  exists (pre ++ [backspace]), g, ws, b, post.
  rewrite <- app_assoc. cbn [app].
  split; [reflexivity|]. split; [exact Hg|]. split; [exact Hws|].
  split; [exact Hsp|]. split; [exact Hb|]. split; [discriminate | exact Hn].
Qed.

Lemma backspace_group_by_contains (s : str) :
  has_backspace_group_by s -> contains backspace s = true.
Proof.
  intros (pre & g & ws & b & post & -> & _).
  unfold contains. rewrite existsb_app. cbn [existsb].
  rewrite Ascii.eqb_refl. cbn [orb]. apply orb_true_r.
Qed.

Lemma aggregate_ro_none (s : str) :
  ~ has_aggregate false s -> Re.search aggregate_re_ro s = false.
Proof.
  intros Hn. apply (not_true_iff _ _ (aggregate_ro_iff s)).
  intros [H | H]; apply Hn; [now left | right].
  now apply backspace_group_by_weaker.
Qed.

Lemma aggregate_ro_call (s : str) :
  (exists f, In f aggregate_functions /\ has_call (lit f) s) ->
  Re.search aggregate_re_ro s = true.
Proof. intros H. apply aggregate_ro_iff. now left. Qed.

Lemma aggregate_ro_plain (s : str) :
  ~ (exists f, In f aggregate_functions /\ has_call (lit f) s) ->
  contains backspace s = false ->
  Re.search aggregate_re_ro s = false.
Proof.
  intros Hn Hb. apply (not_true_iff _ _ (aggregate_ro_iff s)).
  intros [H | H]; [now apply Hn|].
  apply backspace_group_by_contains in H. congruence.
Qed.

(** * Accepted statements *)

Lemma select_allowed (s : str) :
  Re.match_ select_re s = true -> Re.match_ allowed_re s = true.
Proof.
  intros H. apply select_iff in H. apply allowed_iff.
  exists "select"%string. split; [simpl; auto | exact H].
Qed.

Lemma main_accepted (D : driver) (sm : option SecurityManager) (sql : str) (w : world D) :
  ~ has_keyword dangerous_keywords sql ->
  (has_keyword write_keywords sql -> not_authenticated sm = false) ->
  contains ";" (normalise sql) = false ->
  Re.match_ allowed_re (normalise sql) = true ->
  Main._run sm sql w =
  match with_connection (with_limit (normalise sql)) w with
  | (inl e, w') => (PStr (lit "ERROR: " ++ e), w')
  | (inr v, w') => (v, w')
  end.
Proof.
  intros Hd Hw Hc Ha. unfold Main._run. cbv zeta.
  rewrite (not_true_iff _ _ (dangerous_normalise sql) Hd), Hc, Ha.
  destruct (Re.search write_re (normalise sql)) eqn:E.
  - apply write_normalise in E. now rewrite (Hw E).
  - reflexivity.
Qed.

Lemma body_accepted (D : driver) (sm : option SecurityManager) (s : str) (w : world D) :
  ~ has_keyword dangerous_keywords s ->
  (has_keyword write_keywords s -> not_authenticated sm = false) ->
  Re.match_ allowed_re s = true ->
  App.body sm s w =
  match with_connection (with_limit s) w with
  | (inl e, w') => (inl (lit "ERROR: " ++ e), w')
  | (inr v, w') => (inr v, w')
  end.
Proof.
  intros Hd Hw Ha. unfold App.body. cbv zeta.
  rewrite (not_true_iff _ _ (dangerous_iff s) Hd), Ha.
  destruct (Re.search write_re s) eqn:E.
  - apply write_iff in E. now rewrite (Hw E).
  - reflexivity.
Qed.

Lemma select_run (D : driver) (s : str) (w : world D) :
  Re.match_ select_re s = true ->
  exists r,
    with_connection (with_limit s) w
      = (r, logged [Connect; Execute (with_limit s); Close] w) /\
    ((exists e, r = inl e) \/ exists cols rows, r = inr (PDict cols rows)).
Proof.
  intros Hs. destruct (with_connection (with_limit s) w) as [r w'] eqn:Hw.
  destruct (execution_cases D s w r w' (select_allowed s Hs) Hw)
    as [(_ & -> & Hr) | (Hs' & _)]; [|congruence].
  now exists r.
Qed.

Lemma with_limit_appended (s : str) :
  Re.match_ select_re s = true ->
  ~ has_limit_clause s -> ~ has_aggregate true s ->
  with_limit s = s ++ lit " LIMIT 100".
Proof.
  intros Hs Hl Ha. unfold with_limit.
  now rewrite Hs, (not_true_iff _ _ (limit_iff s) Hl),
    (not_true_iff _ _ (aggregate_iff s) Ha).
Qed.

Lemma with_limit_unchanged (s : str) :
  has_limit_clause s \/ has_aggregate true s -> with_limit s = s.
Proof.
  intros H. unfold with_limit.
  destruct H as [H | H]; [apply limit_iff in H | apply aggregate_iff in H];
    rewrite H; cbn [negb]; now rewrite ?andb_false_r.
Qed.

(** The connection block of the read/write tools on a SELECT. *)
Lemma with_connection_read (D : driver) (s : str) (w : world D) :
  Re.match_ select_re s = true ->
  match with_connection s w with
  | (inl e, w') => (inl (lit "ERROR: " ++ e), w')
  | (inr v, w') => (inr v, w')
  end = (fetch s (db w), logged [Connect; Execute s; Close] w).
Proof.
  intros Hs. unfold with_connection, fetch. rewrite Hs.
  now destruct (exec_driver_sql D s (db w)) as [e | [result pending]].
Qed.

(** The connection block of the read-only tools. *)
Lemma with_connection_ro_read (D : driver) (s : str) (w : world D) :
  match with_connection_ro s w with
  | (inl e, w') => (PStr (lit "ERROR: " ++ e), w')
  | (inr v, w') => (v, w')
  end = (returned (fetch s (db w)), logged [Connect; Execute s; Close] w).
Proof.
  unfold with_connection_ro, fetch.
  now destruct (exec_driver_sql D s (db w)) as [e | [result pending]].
Qed.

Lemma body_read (D : driver) (sm : option SecurityManager) (s : str) (w : world D) :
  leads_with (lit "select") s ->
  ~ has_keyword dangerous_keywords s ->
  (has_keyword write_keywords s -> not_authenticated sm = false) ->
  App.body sm s w
    = (fetch (with_limit s) (db w),
       logged [Connect; Execute (with_limit s); Close] w).
Proof.
  intros Hs Hd Hw. apply select_iff in Hs.
  rewrite (body_accepted D sm s w Hd Hw (select_allowed _ Hs)).
  exact (with_connection_read D _ w (with_limit_select s Hs)).
Qed.

Lemma main_read (D : driver) (sm : option SecurityManager) (sql : str) (w : world D) :
  leads_with (lit "select") (normalise sql) ->
  ~ has_keyword dangerous_keywords sql ->
  (has_keyword write_keywords sql -> not_authenticated sm = false) ->
  contains ";" (normalise sql) = false ->
  Main._run sm sql w
    = (returned (fetch (with_limit (normalise sql)) (db w)),
       logged [Connect; Execute (with_limit (normalise sql)); Close] w).
Proof.
  intros Hs Hd Hw Hc. apply select_iff in Hs.
  rewrite (main_accepted D sm sql w Hd Hw Hc (select_allowed _ Hs)).
  pose proof (with_connection_read D _ w (with_limit_select _ Hs)) as H.
  destruct (with_connection (with_limit (normalise sql)) w) as [[e | v] w'];
    injection H as Hf Hw'; now rewrite <- Hf, <- Hw'.
Qed.

Lemma forbidden_normalise (sql : str) :
  Re.search forbidden_re (normalise sql) = true <->
  has_keyword forbidden_keywords sql.
Proof.
  rewrite <- (has_keyword_normalise _ sql forbidden_keywords_ok).
  exact (search_keyword_iff forbidden_keywords _ forbidden_keywords_ok).
Qed.

Lemma gemini_accepted (D : driver) (sql : str) (w : world D) :
  leads_with (lit "select") (normalise sql) ->
  ~ has_keyword forbidden_keywords sql ->
  contains ";" (normalise sql) = false ->
  Gemini._run sql w =
  (let s := if negb (Re.search limit_re (normalise sql))
               && negb (Re.search aggregate_re_ro (normalise sql))
            then normalise sql ++ lit " LIMIT 200" else normalise sql in
   (returned (fetch s (db w)), logged [Connect; Execute s; Close] w)).
Proof.
  intros Hs Hf Hc. apply select_iff in Hs.
  unfold Gemini._run. cbv zeta.
  rewrite (not_true_iff _ _ (forbidden_normalise sql) Hf), Hc, Hs. cbn [negb].
  apply with_connection_ro_read.
Qed.

(** C5, as stated, fails on [main.py].  [SELECT discount(price) FROM t]
    holds the indicator COUNT( (inside [discount(]), and
    [SELECT * FROM t LIMIT -1] holds a LIMIT clause with an integer; the
    gateway hands both to the driver with [ LIMIT 100] appended, not as they
    are. *)
Lemma default_limit_counterexample :
  (leads_with (lit "select") (lit "SELECT discount(price) FROM t") /\
   stated_call (lit "COUNT") (lit "SELECT discount(price) FROM t") /\
   Main._run Toy.guest (lit "SELECT discount(price) FROM t") Toy.w0
     = (PDict [lit "n"] [[0]],
        World (D := Toy.D) []
          [Connect; Execute (lit "SELECT discount(price) FROM t LIMIT 100"); Close]) /\
   lit "SELECT discount(price) FROM t LIMIT 100"
     <> normalise (lit "SELECT discount(price) FROM t")) /\
  (leads_with (lit "select") (lit "SELECT * FROM t LIMIT -1") /\
   stated_limit_clause (lit "SELECT * FROM t LIMIT -1") /\
   Main._run Toy.guest (lit "SELECT * FROM t LIMIT -1") Toy.w0
     = (PDict [lit "n"] [[0]],
        World (D := Toy.D) []
          [Connect; Execute (lit "SELECT * FROM t LIMIT -1 LIMIT 100"); Close]) /\
   lit "SELECT * FROM t LIMIT -1 LIMIT 100"
     <> normalise (lit "SELECT * FROM t LIMIT -1")).
Proof.
  split.
  - split; [apply select_iff; reflexivity|].
    split; [exists (lit "SELECT dis"), (lit "count"), (lit "price) FROM t");
            split; reflexivity|].
    split; [reflexivity|].
    intros H. apply (f_equal (@List.length _)) in H. revert H.
    vm_compute. discriminate.
  - split; [apply select_iff; reflexivity|].
    split.
    { exists (lit "SELECT * FROM t "), (lit "LIMIT"), (lit " "), (lit "-1"), [].
      repeat split; try reflexivity. discriminate. }
    split; [reflexivity|].
    intros H. apply (f_equal (@List.length _)) in H. revert H.
    vm_compute. discriminate.
Qed.

(** C5 (amended).  A read statement that the gateway accepts is handed to
    the driver once, and what the driver answers is what the caller gets: the
    dictionary of the columns and rows of its cursor, or [ERROR: ] and the
    text of its exception.  In [main.py] and [app.py] the text handed over
    is the statement with [ LIMIT 100] appended when the statement holds
    neither a row-bound clause (the word LIMIT, white space, unsigned digits
    that end at a word boundary) nor an aggregate indicator (COUNT(, SUM(,
    AVG(, MAX( or MIN( with the name at the start of a word, or the words
    GROUP BY), and the statement as it is when it holds one of them.  In
    [gemini_agent.py] it is the statement with [ LIMIT 200] appended when
    the statement holds no row-bound clause, no such call and no GROUP BY at
    all, and the statement as it is when it holds a row-bound clause or such
    a call.  Nothing is committed.  For [main.py] and [gemini_agent.py] the
    statement is the trimmed input; for [app.py] it is a statement of the
    batch. *)
Theorem default_limit_appended
        (D : driver) (sm : option SecurityManager) (sql : str) (w : world D) :
  (leads_with (lit "select") (normalise sql) ->
   contains ";" (normalise sql) = false ->
   ~ has_keyword dangerous_keywords sql ->
   (has_keyword write_keywords sql -> not_authenticated sm = false) ->
   (~ has_limit_clause (normalise sql) -> ~ has_aggregate true (normalise sql) ->
    Main._run sm sql w
      = (returned (fetch (normalise sql ++ lit " LIMIT 100") (db w)),
         logged [Connect; Execute (normalise sql ++ lit " LIMIT 100"); Close] w)) /\
   (has_limit_clause (normalise sql) \/ has_aggregate true (normalise sql) ->
    Main._run sm sql w
      = (returned (fetch (normalise sql) (db w)),
         logged [Connect; Execute (normalise sql); Close] w))) /\
  (leads_with (lit "select") sql ->
   ~ has_keyword dangerous_keywords sql ->
   (has_keyword write_keywords sql -> not_authenticated sm = false) ->
   (~ has_limit_clause sql -> ~ has_aggregate true sql ->
    App.body sm sql w
      = (fetch (sql ++ lit " LIMIT 100") (db w),
         logged [Connect; Execute (sql ++ lit " LIMIT 100"); Close] w)) /\
   (has_limit_clause sql \/ has_aggregate true sql ->
    App.body sm sql w
      = (fetch sql (db w), logged [Connect; Execute sql; Close] w))) /\
  (leads_with (lit "select") (normalise sql) ->
   contains ";" (normalise sql) = false ->
   ~ has_keyword forbidden_keywords sql ->
   (~ has_limit_clause (normalise sql) -> ~ has_aggregate false (normalise sql) ->
    Gemini._run sql w
      = (returned (fetch (normalise sql ++ lit " LIMIT 200") (db w)),
         logged [Connect; Execute (normalise sql ++ lit " LIMIT 200"); Close] w)) /\
   (has_limit_clause (normalise sql) \/
    (exists f, In f aggregate_functions /\ has_call (lit f) (normalise sql)) ->
    Gemini._run sql w
      = (returned (fetch (normalise sql) (db w)),
         logged [Connect; Execute (normalise sql); Close] w))).
Proof.
  split; [|split].
  - intros Hs Hc Hd Hw.
    pose proof (main_read D sm sql w Hs Hd Hw Hc) as Hm. split.
    + intros Hl Ha.
      now rewrite (with_limit_appended _ (proj2 (select_iff _) Hs) Hl Ha) in Hm.
    + intros H. now rewrite (with_limit_unchanged _ H) in Hm.
  - intros Hs Hd Hw.
    pose proof (body_read D sm sql w Hs Hd Hw) as Hb. split.
    + intros Hl Ha.
      now rewrite (with_limit_appended _ (proj2 (select_iff _) Hs) Hl Ha) in Hb.
    + intros H. now rewrite (with_limit_unchanged _ H) in Hb.
  - intros Hs Hc Hf. rewrite (gemini_accepted D sql w Hs Hf Hc). cbv zeta. split.
    + intros Hl Ha.
      now rewrite (not_true_iff _ _ (limit_iff _) Hl), (aggregate_ro_none _ Ha).
    + intros [H | H].
      * apply limit_iff in H. now rewrite H.
      * rewrite (aggregate_ro_call _ H). cbn [negb]. now rewrite andb_false_r.
Qed.

Lemma default_limit_appended_witness :
  (leads_with (lit "select") (normalise (lit "SELECT id, gpa FROM students;")) /\
   contains ";" (normalise (lit "SELECT id, gpa FROM students;")) = false /\
   ~ has_keyword dangerous_keywords (lit "SELECT id, gpa FROM students;") /\
   (has_keyword write_keywords (lit "SELECT id, gpa FROM students;") ->
    not_authenticated Toy.guest = false) /\
   ~ has_limit_clause (normalise (lit "SELECT id, gpa FROM students;")) /\
   ~ has_aggregate true (normalise (lit "SELECT id, gpa FROM students;")) /\
   Main._run Toy.guest (lit "SELECT id, gpa FROM students;") Toy.w0
     = (PDict [lit "n"] [[0]],
        World (D := Toy.D) []
          [Connect; Execute (lit "SELECT id, gpa FROM students LIMIT 100"); Close])) /\
  (~ has_keyword forbidden_keywords (lit "SELECT max(gpa) FROM students") /\
   (exists f, In f aggregate_functions /\
              has_call (lit f) (normalise (lit "SELECT max(gpa) FROM students"))) /\
   Gemini._run (lit "SELECT max(gpa) FROM students") Toy.w0
     = (PDict [lit "n"] [[0]],
        World (D := Toy.D) []
          [Connect; Execute (lit "SELECT max(gpa) FROM students"); Close])).
Proof.
  assert (H1 : leads_with (lit "select") (normalise (lit "SELECT id, gpa FROM students;"))).
  { apply select_iff. vm_compute. reflexivity. }
  assert (H2 : contains ";" (normalise (lit "SELECT id, gpa FROM students;")) = false).
  { vm_compute. reflexivity. }
  assert (H3 : ~ has_keyword dangerous_keywords (lit "SELECT id, gpa FROM students;")).
  { intros H. apply dangerous_iff in H. vm_compute in H. discriminate. }
  assert (H4 : has_keyword write_keywords (lit "SELECT id, gpa FROM students;") ->
               not_authenticated Toy.guest = false).
  { intros H. apply write_iff in H. vm_compute in H. discriminate. }
  assert (H5 : ~ has_limit_clause (normalise (lit "SELECT id, gpa FROM students;"))).
  { intros H. apply limit_iff in H. vm_compute in H. discriminate. }
  assert (H6 : ~ has_aggregate true (normalise (lit "SELECT id, gpa FROM students;"))).
  { intros H. apply aggregate_iff in H. vm_compute in H. discriminate. }
  assert (G1 : leads_with (lit "select") (normalise (lit "SELECT max(gpa) FROM students"))).
  { apply select_iff. vm_compute. reflexivity. }
  assert (G2 : contains ";" (normalise (lit "SELECT max(gpa) FROM students")) = false).
  { vm_compute. reflexivity. }
  assert (G3 : ~ has_keyword forbidden_keywords (lit "SELECT max(gpa) FROM students")).
  { intros H. apply (search_keyword_iff forbidden_keywords _ forbidden_keywords_ok) in H.
    vm_compute in H. discriminate. }
  assert (G4 : exists f, In f aggregate_functions /\
               has_call (lit f) (normalise (lit "SELECT max(gpa) FROM students"))).
  { exists "max"%string. split; [simpl; tauto|].
    exists (lit "SELECT "), (lit "max"), (lit "gpa) FROM students").
    repeat split; reflexivity. }
  split.
  - repeat (split; [assumption|]).
    exact (proj1 (proj1 (default_limit_appended Toy.D Toy.guest _ Toy.w0) H1 H2 H3 H4)
             H5 H6).
  - split; [exact G3|]. split; [exact G4|].
    exact (proj2 (proj2 (proj2 (default_limit_appended Toy.D Toy.guest _ Toy.w0))
                    G1 G2 G3) (or_intror G4)).
Defined.

(** * Leading keywords and the layers *)

Lemma leads_with_fold (kw kw' s : str) :
  map lower kw = map lower kw' -> leads_with kw s -> leads_with kw' s.
Proof.
  intros E (ws & mid & post & -> & Hws & Hm & Hn).
  exists ws, mid, post. repeat split; auto.
  unfold same_word in *. congruence.
Qed.

Lemma ddl_keywords_ok : Forall (fun kw => keyword (lit kw)) ddl_keywords.
Proof. now apply keywords_ok. Qed.

Lemma dml_keywords_ok : Forall (fun kw => keyword (lit kw)) dml_keywords.
Proof. now apply keywords_ok. Qed.

(** A statement led by CREATE, ALTER or REPLACE does not pass layer 3. *)
Lemma ddl_not_allowed (kw : string) (s : str) :
  In kw ddl_keywords -> leads_with (lit kw) s -> Re.match_ allowed_re s = false.
Proof.
  intros Hin Hs. destruct (Re.match_ allowed_re s) eqn:E; [|reflexivity].
  apply allowed_iff in E as (kw' & Hin' & Hs').
  pose proof ddl_keywords_ok as Hk. rewrite Forall_forall in Hk.
  pose proof allowed_keywords_ok as Hk'. rewrite Forall_forall in Hk'.
  pose proof (leads_with_same _ _ s (Hk kw Hin) (Hk' kw' Hin') Hs Hs') as H.
  destruct Hin as [<- | [<- | [<- | []]]];
    destruct Hin' as [<- | [<- | [<- | [<- | []]]]]; discriminate.
Qed.

(** A statement led by INSERT, UPDATE or DELETE passes layer 3 and is not a
    SELECT. *)
Lemma dml_allowed (kw : string) (s : str) :
  In kw dml_keywords -> leads_with (lit kw) s ->
  Re.match_ allowed_re s = true /\ Re.match_ select_re s = false.
Proof.
  intros Hin Hs. split.
  - apply allowed_iff.
    destruct Hin as [<- | [<- | [<- | []]]];
      [exists "insert"%string | exists "update"%string | exists "delete"%string];
      (split; [simpl; tauto|]);
      (eapply leads_with_fold; [|exact Hs]); reflexivity.
  - destruct (Re.match_ select_re s) eqn:E; [|reflexivity].
    apply select_iff in E.
    pose proof dml_keywords_ok as Hk. rewrite Forall_forall in Hk.
    pose proof (leads_with_same _ _ s (Hk kw Hin) select_keyword Hs E) as H.
    destruct Hin as [<- | [<- | [<- | []]]]; discriminate.
Qed.

(** A leading write keyword makes the input a write. *)
Lemma leading_write (kw : string) (sql : str) :
  In kw write_keywords -> leads_with (lit kw) (normalise sql) ->
  has_keyword write_keywords sql.
Proof.
  intros Hin Hs. apply (has_keyword_normalise _ sql write_keywords_ok).
  exists kw. split; [exact Hin|]. now apply leads_with_occurs.
Qed.

(** * The first token *)

Lemma split_ws_aux_spaces (ws rest : str) :
  forallb isspace ws = true ->
  split_ws_aux [] (ws ++ rest) = split_ws_aux [] rest.
Proof.
  induction ws as [|c ws IH]; simpl; [reflexivity|].
  intros H. apply andb_true_iff in H as [Hc Hws]. rewrite Hc. now apply IH.
Qed.

Lemma split_ws_aux_letters (cur mid rest : str) :
  forallb letter mid = true ->
  split_ws_aux cur (mid ++ rest) = split_ws_aux (rev mid ++ cur) rest.
Proof.
  revert cur. induction mid as [|c mid IH]; intros cur; simpl; [reflexivity|].
  intros H. apply andb_true_iff in H as [Hc Hm].
  rewrite (letter_not_space c Hc), (IH _ Hm). now rewrite <- app_assoc.
Qed.

Lemma first_token_split_ws (kw s : str) :
  keyword kw -> first_token kw s ->
  exists mid rest, split_ws s = mid :: rest /\ same_word mid kw.
Proof.
  intros [Hne Hl] (ws & mid & post & -> & Hws & Hm & Hp).
  pose proof (same_word_nonempty _ _ Hm Hne) as Hmid.
  pose proof (same_word_letters _ _ Hm Hl) as Hlet.
  unfold split_ws. rewrite (split_ws_aux_spaces ws _ Hws).
  rewrite (split_ws_aux_letters [] mid post Hlet), app_nil_r.
  assert (Hr : rev mid <> []).
  { intros E. apply (f_equal (@rev ascii)) in E. rewrite rev_involutive in E.
    now apply Hmid. }
  destruct post as [|c post]; simpl.
  - destruct (rev mid) eqn:E; [congruence|]. rewrite <- E, rev_involutive.
    now exists mid, [].
  - simpl in Hp. rewrite andb_true_r in Hp. rewrite Hp.
    destruct (rev mid) eqn:E; [congruence|]. rewrite <- E, rev_involutive.
    now exists mid, (split_ws_aux [] post).
Qed.

Lemma upper_lower (c : ascii) : letter c = true -> upper_char (lower c) = upper_char c.
Proof. all_chars c. Qed.

Lemma upper_same_word (mid kw : str) :
  forallb letter kw = true -> same_word mid kw -> upper mid = upper kw.
Proof.
  unfold same_word, upper. revert kw.
  induction mid as [|x mid IH]; intros [|c kw] Hl H; simpl in *;
    try discriminate; try reflexivity.
  injection H as Hx Hrest. apply andb_true_iff in Hl as [Hc Hl].
  rewrite (IH kw Hl Hrest).
  rewrite <- (upper_lower x (same_letter x c Hc Hx)), Hx, (upper_lower c Hc).
  reflexivity.
Qed.

(** C6, as stated, fails: for a logged-in caller [CREATE TABLE t (a INT)]
    is answered with the message of layer 3, nothing is executed, and no
    acknowledgment is returned. *)
Lemma create_statement_counterexample :
  leads_with (lit "CREATE") (normalise (lit "CREATE TABLE t (a INT)")) /\
  not_authenticated Toy.admin = false /\
  Main._run Toy.admin (lit "CREATE TABLE t (a INT)") Toy.w0
    = (PStr err_only, Toy.w0) /\
  err_only <> acknowledgment (lit "CREATE").
Proof.
  split.
  { apply (leading_word_iff (lit "CREATE")); [now apply word_keyword|].
    vm_compute. reflexivity. }
  split; [reflexivity|]. split; [reflexivity | discriminate].
Qed.

Lemma main_write_run (D : driver) (sm : option SecurityManager) (sql : str)
      (w : world D) (result : cursor (Value D)) (pending db' : DB D)
      (operation : str) (rest : list str) :
  ~ has_keyword dangerous_keywords sql ->
  (has_keyword write_keywords sql -> not_authenticated sm = false) ->
  contains ";" (normalise sql) = false ->
  Re.match_ allowed_re (normalise sql) = true ->
  Re.match_ select_re (normalise sql) = false ->
  exec_driver_sql D (normalise sql) (db w) = inr (result, pending) ->
  commit D pending = inr db' ->
  split_ws (normalise sql) = operation :: rest ->
  Main._run sm sql w =
  (PStr (acknowledgment operation),
   World db' (trace w ++ [Connect; Execute (normalise sql); Commit; Close])).
Proof.
  intros Hd Hw Hc Ha Hs He Hco Hop.
  rewrite (main_accepted D sm sql w Hd Hw Hc Ha), (with_limit_other _ Hs).
  unfold with_connection. now rewrite He, Hs, Hco, Hop.
Qed.

(** C6 (amended).  A statement whose leading keyword is CREATE, ALTER or
    REPLACE is classified as a write, but the gateway of [main.py] never
    executes it: every call returns a validation message and leaves the data
    source untouched, and for an authorized caller (no dangerous keyword, a
    single statement) the message is the one of layer 3, "Only SELECT,
    UPDATE, INSERT, DELETE statements are allowed".  The acknowledgment
    "<OPERATION> operation completed successfully" is what an authorized
    caller gets for a statement led by INSERT, UPDATE or DELETE that the
    driver executes and commits.  <OPERATION> is the keyword in upper case
    when white space or the end of the statement follows the keyword; in
    general it is the whole first token of the statement in upper case
    (stated for the tokens whose capitals are characters of Latin-1). *)
Theorem ddl_refused_dml_acknowledged
        (D : driver) (sm : option SecurityManager) (sql : str) (w : world D)
        (kw : string) :
  (In kw ddl_keywords -> leads_with (lit kw) (normalise sql) ->
   has_keyword write_keywords sql /\
   exists e,
     Main._run sm sql w = (PStr e, w) /\ In e validation_errors /\
     (not_authenticated sm = false ->
      ~ has_keyword dangerous_keywords sql ->
      contains ";" (normalise sql) = false ->
      e = err_only)) /\
  (In kw dml_keywords -> leads_with (lit kw) (normalise sql) ->
   has_keyword write_keywords sql /\
   (not_authenticated sm = false ->
    ~ has_keyword dangerous_keywords sql ->
    contains ";" (normalise sql) = false ->
    forall result pending db',
      exec_driver_sql D (normalise sql) (db w) = inr (result, pending) ->
      commit D pending = inr db' ->
      snd (Main._run sm sql w)
        = World db' (trace w ++ [Connect; Execute (normalise sql); Commit; Close]) /\
      (first_token (lit kw) (normalise sql) ->
       fst (Main._run sm sql w)
         = PStr (lit kw ++ lit " operation completed successfully")) /\
      exists operation rest,
        split_ws (normalise sql) = operation :: rest /\
        (upper_closed operation = true ->
         fst (Main._run sm sql w) = PStr (acknowledgment operation)))).
Proof.
  split.
  - intros Hin Hs.
    assert (Hw : has_keyword write_keywords sql).
    { apply (leading_write kw); [|exact Hs].
      destruct Hin as [<- | [<- | [<- | []]]]; simpl; tauto. }
    split; [exact Hw|].
    pose proof (ddl_not_allowed kw _ Hin Hs) as Ha.
    destruct (main_layers D sm sql w) as (L1 & L2 & L3 & L4).
    destruct (has_keyword_dec dangerous_keywords sql dangerous_keywords_ok) as [Hd | Hd].
    { exists err_dangerous. split; [exact (L1 Hd)|].
      split; [simpl; tauto | tauto]. }
    destruct (not_authenticated sm) eqn:Hauth.
    { exists err_auth. split; [exact (L2 Hd Hw eq_refl)|].
      split; [simpl; tauto | discriminate]. }
    destruct (contains ";" (normalise sql)) eqn:Hc.
    { exists err_multiple. split; [exact (L3 Hd (fun _ => eq_refl) eq_refl)|].
      split; [simpl; tauto | discriminate]. }
    exists err_only. split; [exact (L4 Hd (fun _ => eq_refl) eq_refl Ha)|].
    split; [simpl; tauto | reflexivity].
  - intros Hin Hs.
    assert (Hw : has_keyword write_keywords sql).
    { apply (leading_write kw); [|exact Hs].
      destruct Hin as [<- | [<- | [<- | []]]]; simpl; tauto. }
    split; [exact Hw|].
    intros Hauth Hd Hc result pending db' He Hco.
    destruct (dml_allowed kw _ Hin Hs) as [Ha Hsel].
    pose proof (allowed_split_ws _ Ha) as Hne.
    destruct (split_ws (normalise sql)) as [|operation rest] eqn:Hop; [congruence|].
    rewrite (main_write_run D sm sql w result pending db' operation rest
               Hd (fun _ => Hauth) Hc Ha Hsel He Hco Hop).
    cbn [fst snd]. split; [reflexivity|]. split.
    + intros Hft.
      pose proof dml_keywords_ok as Hk. rewrite Forall_forall in Hk.
      destruct (first_token_split_ws _ _ (Hk kw Hin) Hft) as (mid & rest' & E & Hm).
      rewrite Hop in E. injection E as -> _.
      unfold acknowledgment. do 2 f_equal.
      rewrite (upper_same_word mid (lit kw) (proj2 (Hk kw Hin)) Hm).
      destruct Hin as [<- | [<- | [<- | []]]]; reflexivity.
    + exists operation, rest. split; [reflexivity|]. reflexivity.
Qed.

Lemma ddl_refused_dml_acknowledged_witness :
  (In "ALTER"%string ddl_keywords /\
   leads_with (lit "ALTER") (normalise (lit "alter table t add column c int")) /\
   has_keyword write_keywords (lit "alter table t add column c int") /\
   exists e,
     Main._run Toy.admin (lit "alter table t add column c int") Toy.w0
       = (PStr e, Toy.w0) /\
     In e validation_errors /\
     (not_authenticated Toy.admin = false ->
      ~ has_keyword dangerous_keywords (lit "alter table t add column c int") ->
      contains ";" (normalise (lit "alter table t add column c int")) = false ->
      e = err_only)) /\
  (In "DELETE"%string dml_keywords /\
   leads_with (lit "DELETE") (normalise (lit "delete from students where id = 7;")) /\
   first_token (lit "DELETE") (normalise (lit "delete from students where id = 7;")) /\
   fst (Main._run Toy.admin (lit "delete from students where id = 7;") Toy.w0)
     = PStr (lit "DELETE" ++ lit " operation completed successfully")).
Proof.
  assert (H1 : In "ALTER"%string ddl_keywords) by (simpl; tauto).
  assert (H2 : leads_with (lit "ALTER")
                 (normalise (lit "alter table t add column c int"))).
  { apply (leading_word_iff (lit "ALTER")); [now apply word_keyword|].
    vm_compute. reflexivity. }
  assert (G1 : In "DELETE"%string dml_keywords) by (simpl; tauto).
  assert (G2 : leads_with (lit "DELETE")
                 (normalise (lit "delete from students where id = 7;"))).
  { apply (leading_word_iff (lit "DELETE")); [now apply word_keyword|].
    vm_compute. reflexivity. }
  assert (G3 : first_token (lit "DELETE")
                 (normalise (lit "delete from students where id = 7;"))).
  { exists [], (lit "delete"), (lit " from students where id = 7").
    repeat split; reflexivity. }
  assert (G4 : ~ has_keyword dangerous_keywords (lit "delete from students where id = 7;")).
  { intros H. apply dangerous_iff in H. vm_compute in H. discriminate. }
  assert (G5 : contains ";" (normalise (lit "delete from students where id = 7;")) = false).
  { vm_compute. reflexivity. }
  split.
  - split; [exact H1|]. split; [exact H2|].
    exact (proj1 (ddl_refused_dml_acknowledged Toy.D Toy.admin _ Toy.w0 "ALTER") H1 H2).
  - split; [exact G1|]. split; [exact G2|]. split; [exact G3|].
    exact (proj1 (proj2 (proj2 (proj2 (ddl_refused_dml_acknowledged
                                         Toy.D Toy.admin _ Toy.w0 "DELETE") G1 G2)
                                 eq_refl G4 G5
                                 (Cursor [] []) _ _ eq_refl eq_refl)) G3).
Defined.

(** * Reads leave the data source alone *)

Lemma main_cases (D : driver) (sm : option SecurityManager) (sql : str)
      (w : world D) (r : pyval (Value D)) (w' : world D) :
  Main._run sm sql w = (r, w') ->
  (w' = w /\ exists e, r = PStr e /\ In e validation_errors)
  \/
  (Re.search write_re (normalise sql) && not_authenticated sm = false /\
   Re.match_ allowed_re (normalise sql) = true /\
   exists r0, with_connection (with_limit (normalise sql)) w = (r0, w') /\
              r = match r0 with
                  | inl e => PStr (lit "ERROR: " ++ e)
                  | inr v => v
                  end).
Proof.
  unfold Main._run. cbv zeta.
  destruct (Re.search dangerous_re _).
  { intros [= <- <-]. left. split; [reflexivity|].
    exists err_dangerous. split; [reflexivity|]. simpl. auto. }
  destruct (_ && not_authenticated sm).
  { intros [= <- <-]. left. split; [reflexivity|].
    exists err_auth. split; [reflexivity|]. simpl. auto. }
  destruct (contains _ _).
  { intros [= <- <-]. left. split; [reflexivity|].
    exists err_multiple. split; [reflexivity|]. simpl. auto. }
  destruct (Re.match_ allowed_re _).
  2: { intros [= <- <-]. left. split; [reflexivity|].
       exists err_only. split; [reflexivity|]. simpl. auto. }
  cbn [negb]. change (if Re.match_ select_re (normalise sql) && _ && _ then _ else _)
    with (with_limit (normalise sql)).
  destruct (with_connection _ w) as [r0 w1].
  intros E. right. repeat split; auto. exists r0.
  destruct r0; injection E as <- <-; auto.
Qed.

Lemma occurs_fold (kw kw' s : str) :
  map lower kw = map lower kw' -> occurs_as_word kw s -> occurs_as_word kw' s.
Proof.
  intros E (pre & mid & post & -> & Hm & H).
  exists pre, mid, post. repeat split; try tauto.
  unfold same_word in *. congruence.
Qed.

(** What passes layer 3 and is not a SELECT holds a write keyword. *)
Lemma allowed_not_select_write (s : str) :
  Re.match_ allowed_re s = true -> Re.match_ select_re s = false ->
  Re.search write_re s = true.
Proof.
  intros Ha Hs. apply allowed_iff in Ha as (kw & Hin & Hl).
  apply write_iff.
  destruct Hin as [<- | [<- | [<- | [<- | []]]]].
  - apply select_iff in Hl. congruence.
  - exists "UPDATE"%string. split; [simpl; tauto|].
    apply (occurs_fold (lit "update")); [reflexivity | now apply leads_with_occurs].
  - exists "INSERT"%string. split; [simpl; tauto|].
    apply (occurs_fold (lit "insert")); [reflexivity | now apply leads_with_occurs].
  - exists "DELETE"%string. split; [simpl; tauto|].
    apply (occurs_fold (lit "delete")); [reflexivity | now apply leads_with_occurs].
Qed.

(** The events of one pass through the connection block, and what a commit
    among them tells. *)
Lemma execution_trace (D : driver) (s : str) (w : world D)
      (r : str + pyval (Value D)) (w' : world D) :
  Re.match_ allowed_re s = true ->
  with_connection (with_limit s) w = (r, w') ->
  exists es,
    trace w' = trace w ++ es /\
    (Re.match_ select_re s = true -> db w' = db w /\ ~ In Commit es) /\
    (In Commit es -> Re.search write_re s = true /\ Re.match_ select_re s = false).
Proof.
  intros Ha Hw.
  destruct (execution_cases D s w r w' Ha Hw)
    as [(Hs & -> & _) | (Hs & _ & es & E & Hes)].
  - exists [Connect; Execute (with_limit s); Close]. split; [reflexivity|].
    split.
    + intros _. split; [reflexivity|]. simpl. intros [H | [H | [H | []]]]; discriminate.
    + simpl. intros [H | [H | [H | []]]]; discriminate.
  - exists es. split; [exact E|]. split; [congruence|].
    intros _. split; [now apply allowed_not_select_write | exact Hs].
Qed.

Lemma main_trace (D : driver) (sm : option SecurityManager) (sql : str) (w : world D) :
  exists es,
    trace (snd (Main._run sm sql w)) = trace w ++ es /\
    (Re.match_ select_re (normalise sql) = true ->
     db (snd (Main._run sm sql w)) = db w /\ ~ In Commit es) /\
    (In Commit es ->
     Re.search write_re (normalise sql) = true /\
     not_authenticated sm = false /\
     Re.match_ select_re (normalise sql) = false).
Proof.
  destruct (Main._run sm sql w) as [r w'] eqn:H. cbn [snd].
  apply main_cases in H as [(-> & _) | (Hauth & Ha & r0 & Hw & _)].
  - exists []. rewrite app_nil_r. split; [reflexivity|].
    split; [intros _; split; [reflexivity | intros []] | intros []].
  - destruct (execution_trace D _ w r0 w' Ha Hw) as (es & E & Hsel & Hco).
    exists es. split; [exact E|]. split; [exact Hsel|].
    intros Hin. destruct (Hco Hin) as [Hwr Hs].
    rewrite Hwr in Hauth. simpl in Hauth. now repeat split.
Qed.

Lemma body_trace (D : driver) (sm : option SecurityManager) (s : str) (w : world D) :
  exists es,
    trace (snd (App.body sm s w)) = trace w ++ es /\
    (Re.match_ select_re s = true ->
     db (snd (App.body sm s w)) = db w /\ ~ In Commit es) /\
    (In Commit es ->
     Re.search write_re s = true /\
     not_authenticated sm = false /\
     Re.match_ select_re s = false).
Proof.
  destruct (App.body sm s w) as [r w'] eqn:H. cbn [snd].
  apply body_cases in H as [(-> & _) | (_ & Hauth & Ha & r0 & Hw & _)].
  - exists []. rewrite app_nil_r. split; [reflexivity|].
    split; [intros _; split; [reflexivity | intros []] | intros []].
  - destruct (execution_trace D _ w r0 w' Ha Hw) as (es & E & Hsel & Hco).
    exists es. split; [exact E|]. split; [exact Hsel|].
    intros Hin. destruct (Hco Hin) as [Hwr Hs].
    rewrite Hwr in Hauth. simpl in Hauth. now repeat split.
Qed.

Lemma loop_select_db (D : driver) (sm : option SecurityManager) (l : list str)
      (acc : list (pyval (Value D))) (w : world D) :
  Forall (leads_with (lit "select")) l ->
  db (snd (App.loop sm l acc w)) = db w /\
  exists es, trace (snd (App.loop sm l acc w)) = trace w ++ es /\ ~ In Commit es.
Proof.
  intros Hl. revert acc w. induction Hl as [|s l Hs Hl IH]; intros acc w.
  - split; [reflexivity|]. exists []. now rewrite app_nil_r.
  - cbn [App.loop].
    destruct (body_trace D sm s w) as (es & E & Hsel & _).
    destruct (Hsel (proj2 (select_iff s) Hs)) as [Hdb Hno].
    destruct (App.body sm s w) as [[e | v] w1]; cbn [snd] in *.
    + split; [exact Hdb|]. now exists es.
    + destruct (IH (acc ++ [v]) w1) as (Hdb' & es' & E' & Hno').
      split; [congruence|]. exists (es ++ es').
      rewrite E', E, app_assoc. split; [reflexivity|].
      intros Hin. apply in_app_or in Hin. tauto.
Qed.

(** C8.  A statement that starts with SELECT never reaches [conn.commit()]:
    whatever the gateway answers, the committed contents of the data source
    after the call are the ones before it and no commit appears among the
    events of the call.  This holds for the single-statement gateway, for
    one turn of the batch loop, and for a batch made of SELECT statements.
    A commit among the events of a call means that the statement holds a
    write keyword, that the caller is authorized and that the statement does
    not start with SELECT. *)
Theorem reads_never_commit
        (D : driver) (sm : option SecurityManager) (sql : str) (w : world D) :
  (leads_with (lit "select") (normalise sql) ->
   db (snd (Main._run sm sql w)) = db w /\
   exists es, trace (snd (Main._run sm sql w)) = trace w ++ es /\ ~ In Commit es) /\
  (leads_with (lit "select") sql ->
   db (snd (App.body sm sql w)) = db w /\
   exists es, trace (snd (App.body sm sql w)) = trace w ++ es /\ ~ In Commit es) /\
  (Forall (leads_with (lit "select")) (App.statements sql) ->
   db (snd (App._run sm sql w)) = db w /\
   exists es, trace (snd (App._run sm sql w)) = trace w ++ es /\ ~ In Commit es) /\
  (forall es,
      trace (snd (Main._run sm sql w)) = trace w ++ es -> In Commit es ->
      has_keyword write_keywords sql /\ not_authenticated sm = false /\
      ~ leads_with (lit "select") (normalise sql)) /\
  (forall es,
      trace (snd (App.body sm sql w)) = trace w ++ es -> In Commit es ->
      has_keyword write_keywords sql /\ not_authenticated sm = false /\
      ~ leads_with (lit "select") sql).
Proof.
  split; [|split; [|split; [|split]]].
  - intros Hs. destruct (main_trace D sm sql w) as (es & E & Hsel & _).
    destruct (Hsel (proj2 (select_iff _) Hs)) as [Hdb Hno].
    split; [exact Hdb|]. now exists es.
  - intros Hs. destruct (body_trace D sm sql w) as (es & E & Hsel & _).
    destruct (Hsel (proj2 (select_iff _) Hs)) as [Hdb Hno].
    split; [exact Hdb|]. now exists es.
  - intros Hl. unfold App._run.
    destruct (loop_select_db D sm _ [] w Hl) as (Hdb & es & E & Hno).
    destruct (App.loop sm (App.statements sql) [] w) as [[e | results] w1];
      cbn [snd] in *; (split; [exact Hdb|]); now exists es.
  - intros es E Hin. destruct (main_trace D sm sql w) as (es' & E' & _ & Hco).
    rewrite E' in E. apply app_inv_head in E. subst es'.
    destruct (Hco Hin) as (Hw & Ha & Hs).
    split; [now apply write_normalise|]. split; [exact Ha|].
    intros H. apply select_iff in H. congruence.
  - intros es E Hin. destruct (body_trace D sm sql w) as (es' & E' & _ & Hco).
    rewrite E' in E. apply app_inv_head in E. subst es'.
    destruct (Hco Hin) as (Hw & Ha & Hs).
    split; [now apply write_iff|]. split; [exact Ha|].
    intros H. apply select_iff in H. congruence.
Qed.

Lemma reads_never_commit_witness :
  leads_with (lit "select") (normalise (lit "SELECT COUNT(*) FROM students")) /\
  db (snd (Main._run Toy.guest (lit "SELECT COUNT(*) FROM students") Toy.w0))
    = db Toy.w0 /\
  exists es,
    trace (snd (Main._run Toy.guest (lit "SELECT COUNT(*) FROM students") Toy.w0))
      = trace Toy.w0 ++ es /\
    ~ In Commit es.
Proof.
  assert (H : leads_with (lit "select")
                (normalise (lit "SELECT COUNT(*) FROM students"))).
  { apply select_iff. vm_compute. reflexivity. }
  split; [exact H|].
  exact (proj1 (reads_never_commit Toy.D Toy.guest _ Toy.w0) H).
Defined.

(** * The answer is a function of the statement and the data source *)











(** * The empty batch *)

Lemma strip_spaces (s : str) : forallb isspace s = true -> strip s = [].
Proof.
  intros H. unfold strip, lstrip_by, rstrip_by.
  assert (E : drop_while isspace s = []).
  { induction s as [|c s IH]; [reflexivity|]. simpl in *.
    apply andb_true_iff in H as [Hc Hs]. rewrite Hc. now apply IH. }
  now rewrite E.
Qed.

Lemma split_spaces (s : str) :
  forallb (fun c => isspace c || Ascii.eqb c ";") s = true ->
  Forall (fun piece => forallb isspace piece = true) (split ";" s).
Proof.
  induction s as [|c s IH]; cbn [split forallb].
  - intros _. now constructor.
  - intros H. apply andb_true_iff in H as [Hc Hs]. specialize (IH Hs).
    destruct (Ascii.eqb c ";") eqn:E.
    + now constructor.
    + rewrite orb_false_r in Hc.
      destruct (split ";" s) as [|p ps].
      { constructor; [cbn [forallb]; now rewrite Hc | constructor]. }
      inversion IH as [|? ? Hp Hps]; subst.
      constructor; [|exact Hps]. cbn [forallb]. now rewrite Hc.
Qed.

Lemma statements_nil (sql : str) :
  Forall (fun piece => strip piece = []) (split ";" sql) ->
  App.statements sql = [].
Proof.
  unfold App.statements. induction 1 as [|p ps Hp _ IH]; [reflexivity|].
  cbn [filter]. rewrite Hp. exact IH.
Qed.

(** C9.  In the batch gateway of [app.py], an input none of whose pieces
    (split at [;], then trimmed) is non-empty makes [_run] return the empty
    list, which is neither a message nor a table, and the data source is not
    contacted.  The empty string and every string made of semicolons and
    white space are such inputs. *)
Theorem empty_batch_returns_empty_list
        (D : driver) (sm : option SecurityManager) (sql : str) (w : world D) :
  (Forall (fun piece => strip piece = []) (split ";" sql) ->
   App._run sm sql w = (PList [], w)) /\
  (forallb (fun c => isspace c || Ascii.eqb c ";") sql = true ->
   App._run sm sql w = (PList [], w)).
Proof.
  assert (H : Forall (fun piece => strip piece = []) (split ";" sql) ->
              App._run sm sql w = (PList [], w)).
  { intros Hp. unfold App._run. now rewrite (statements_nil sql Hp). }
  split; [exact H|].
  intros Hs. apply H. apply Forall_impl with (2 := split_spaces sql Hs).
  intros piece. apply strip_spaces.
Qed.

Lemma empty_batch_returns_empty_list_witness :
  forallb (fun c => isspace c || Ascii.eqb c ";") (lit " ; ;;  ") = true /\
  App._run Toy.admin (lit " ; ;;  ") Toy.w0 = (PList [], Toy.w0).
Proof.
  assert (H : forallb (fun c => isspace c || Ascii.eqb c ";") (lit " ; ;;  ") = true)
    by reflexivity.
  split; [exact H|].
  exact (proj2 (empty_batch_returns_empty_list Toy.D Toy.admin (lit " ; ;;  ") Toy.w0) H).
Defined.

(** * Beyond the claims: what the gateways never do *)

Lemma no_commit_in_read (t : str) : ~ In Commit [Connect; Execute t; Close].
Proof. intros [H | [H | [H | []]]]; discriminate. Qed.

(** One pass through the connection block hands exactly one statement to the
    driver.  Either nothing is committed, or the statement is not a SELECT
    and a commit is attempted: it raises and the contents stay, or it
    succeeds and the write is acknowledged. *)
Lemma execution_commit (D : driver) (s : str) (w : world D)
      (r : str + pyval (Value D)) (w' : world D) :
  Re.match_ allowed_re s = true ->
  with_connection (with_limit s) w = (r, w') ->
  exists es,
    trace w' = trace w ++ es /\ executed es = [with_limit s] /\
    ((es = [Connect; Execute (with_limit s); Close] /\ db w' = db w /\
      ((exists e, r = inl e) \/ exists cols rows, r = inr (PDict cols rows)))
     \/
     (Re.match_ select_re s = false /\
      es = [Connect; Execute s; Commit; Close] /\
      ((db w' = db w /\ exists e, r = inl e) \/
       exists operation rest,
         split_ws s = operation :: rest /\
         r = inr (PStr (acknowledgment operation))))).
Proof.
  intros Ha.
  destruct (Re.match_ select_re s) eqn:Hs.
  - pose proof (with_limit_select s Hs) as Hs'.
    unfold with_connection. rewrite Hs'.
    destruct (exec_driver_sql D (with_limit s) (db w)) as [e | [result pending]];
      intros E; injection E as <- <-;
      exists [Connect; Execute (with_limit s); Close];
      (split; [reflexivity|]); (split; [reflexivity|]); left;
      (split; [reflexivity|]); (split; [reflexivity|]); eauto.
  - rewrite (with_limit_other s Hs). unfold with_connection. rewrite Hs.
    pose proof (allowed_split_ws s Ha) as Hne.
    destruct (exec_driver_sql D s (db w)) as [e | [result pending]].
    + intros E; injection E as <- <-.
      exists [Connect; Execute s; Close].
      split; [reflexivity|]. split; [reflexivity|]. left.
      split; [reflexivity|]. split; [reflexivity|]. eauto.
    + destruct (commit D pending) as [e | db'].
      * intros E; injection E as <- <-.
        exists [Connect; Execute s; Commit; Close].
        split; [reflexivity|]. split; [reflexivity|]. right.
        split; [reflexivity|]. split; [reflexivity|]. left. eauto.
      * destruct (split_ws s) as [|operation rest]; [congruence|].
        intros E; injection E as <- <-.
        exists [Connect; Execute s; Commit; Close].
        split; [reflexivity|]. split; [reflexivity|]. right.
        split; [reflexivity|]. split; [reflexivity|]. right. eauto.
Qed.

(** A turn of the batch loop for a caller who is not authorized. *)
Lemma body_unauthenticated (D : driver) (sm : option SecurityManager) (s : str)
      (w : world D) :
  not_authenticated sm = true ->
  db (snd (App.body sm s w)) = db w /\
  exists es, trace (snd (App.body sm s w)) = trace w ++ es /\ ~ In Commit es.
Proof.
  intros Hauth. destruct (App.body sm s w) as [r w'] eqn:H. cbn [snd].
  apply body_cases in H as [(-> & _) | (_ & Hw & Ha & r0 & Hc & _)].
  - split; [reflexivity|]. exists []. now rewrite app_nil_r.
  - destruct (execution_commit D s w r0 w' Ha Hc)
      as (es & E & _ & [(-> & Hdb & _) | (Hs & _)]).
    + split; [exact Hdb|]. eexists. split; [exact E | apply no_commit_in_read].
    + rewrite (allowed_not_select_write s Ha Hs), Hauth in Hw. discriminate.
Qed.

Lemma loop_unauthenticated (D : driver) (sm : option SecurityManager)
      (l : list str) (acc : list (pyval (Value D))) (w : world D) :
  not_authenticated sm = true ->
  db (snd (App.loop sm l acc w)) = db w /\
  exists es, trace (snd (App.loop sm l acc w)) = trace w ++ es /\ ~ In Commit es.
Proof.
  intros Hauth. revert acc w. induction l as [|s l IH]; intros acc w.
  - split; [reflexivity|]. exists []. now rewrite app_nil_r.
  - cbn [App.loop].
    destruct (body_unauthenticated D sm s w Hauth) as (Hdb & es & E & Hno).
    destruct (App.body sm s w) as [[e | v] w1]; cbn [snd] in *.
    + split; [exact Hdb|]. now exists es.
    + destruct (IH (acc ++ [v]) w1) as (Hdb' & es' & E' & Hno').
      split; [congruence|]. exists (es ++ es').
      rewrite E', E, app_assoc. split; [reflexivity|].
      intros Hin. apply in_app_or in Hin. tauto.
Qed.

(** X1.  A caller who is not authorized cannot change the data source,
    whatever text is submitted: after [_run] of [main.py] and after [_run]
    of [app.py] the committed contents are the ones before the call, and no
    commit is among the events of the call. *)
Theorem unauthenticated_never_writes
        (D : driver) (sm : option SecurityManager) (sql : str) (w : world D) :
  not_authenticated sm = true ->
  (db (snd (Main._run sm sql w)) = db w /\
   exists es, trace (snd (Main._run sm sql w)) = trace w ++ es /\ ~ In Commit es) /\
  (db (snd (App._run sm sql w)) = db w /\
   exists es, trace (snd (App._run sm sql w)) = trace w ++ es /\ ~ In Commit es).
Proof.
  intros Hauth. split.
  - destruct (Main._run sm sql w) as [r w'] eqn:H. cbn [snd].
    apply main_cases in H as [(-> & _) | (Hw & Ha & r0 & Hc & _)].
    + split; [reflexivity|]. exists []. now rewrite app_nil_r.
    + destruct (execution_commit D _ w r0 w' Ha Hc)
        as (es & E & _ & [(-> & Hdb & _) | (Hs & _)]).
      * split; [exact Hdb|]. eexists. split; [exact E | apply no_commit_in_read].
      * rewrite (allowed_not_select_write _ Ha Hs), Hauth in Hw. discriminate.
  - unfold App._run.
    destruct (loop_unauthenticated D sm (App.statements sql) [] w Hauth)
      as (Hdb & es & E & Hno).
    destruct (App.loop sm (App.statements sql) [] w) as [[e | results] w1];
      cbn [snd] in *; (split; [exact Hdb|]); now exists es.
Qed.

Lemma unauthenticated_never_writes_witness :
  not_authenticated Toy.guest = true /\
  db (snd (App._run Toy.guest
             (lit "SELECT 1; UPDATE students SET gpa = 4.0") Toy.w0))
    = db Toy.w0.
Proof.
  split; [reflexivity|].
  exact (proj1 (proj2 (unauthenticated_never_writes
                         Toy.D Toy.guest
                         (lit "SELECT 1; UPDATE students SET gpa = 4.0")
                         Toy.w0 eq_refl))).
Defined.

Lemma with_limit_cases (s : str) :
  with_limit s = s \/ with_limit s = s ++ lit " LIMIT 100".
Proof. unfold with_limit. destruct (_ && _ && _); auto. Qed.

(** X2.  The read-only tool of [gemini_agent.py] cannot change the data
    source, whatever text is submitted.  It answers with a message that
    starts with [ERROR: ] or with a table.  Either it leaves the data source
    alone, or it hands one statement to the driver, returns what the driver
    answers and never commits; the statement is the trimmed input, alone or
    followed by [ LIMIT 200], where the trimmed input starts with SELECT,
    holds no separator, and the input holds none of INSERT, UPDATE, DELETE,
    DROP, TRUNCATE, ALTER, CREATE, REPLACE as a word. *)
Theorem read_only_tool_never_writes (D : driver) (sql : str) (w : world D) :
  db (snd (Gemini._run sql w)) = db w /\
  ((exists e, fst (Gemini._run sql w) = PStr e /\
              starts_with (lit "ERROR: ") e = true) \/
   (exists cols rows, fst (Gemini._run sql w) = PDict cols rows)) /\
  (snd (Gemini._run sql w) = w \/
   exists t,
     Gemini._run sql w
       = (returned (fetch t (db w)), logged [Connect; Execute t; Close] w) /\
     (t = normalise sql \/ t = normalise sql ++ lit " LIMIT 200") /\
     leads_with (lit "select") (normalise sql) /\
     ~ has_keyword forbidden_keywords sql /\
     contains ";" (normalise sql) = false).
Proof.
  unfold Gemini._run. cbv zeta.
  destruct (Re.search forbidden_re (normalise sql)) eqn:Hf.
  { split; [reflexivity|]. split; [left; eexists; split; reflexivity | now left]. }
  destruct (contains ";" (normalise sql)) eqn:Hc.
  { split; [reflexivity|]. split; [left; eexists; split; reflexivity | now left]. }
  destruct (Re.match_ select_re (normalise sql)) eqn:Hs; cbn [negb].
  2: { split; [reflexivity|]. split; [left; eexists; split; reflexivity | now left]. }
  assert (Hf' : ~ has_keyword forbidden_keywords sql).
  { intros H. apply forbidden_normalise in H. congruence. }
  apply select_iff in Hs.
  match goal with
  | |- context [with_connection_ro ?x w] =>
      assert (Ht : x = normalise sql \/ x = normalise sql ++ lit " LIMIT 200")
        by (destruct (_ && _); auto);
      revert Ht; generalize x
  end.
  intros t Ht. rewrite (with_connection_ro_read D t w). cbn [fst snd].
  split; [reflexivity|]. split.
  - unfold fetch.
    destruct (exec_driver_sql D t (db w)) as [e | [result pending]]; cbn [returned].
    + left. eexists. split; reflexivity.
    + right. eauto.
  - right. exists t. now repeat split.
Qed.

(** X16.  The aggregate pattern of [gemini_agent.py] holds a BACKSPACE
    character where the patterns of the other tools hold the word boundary
    before GROUP.  So the words GROUP BY do not keep the row bound away: a
    SELECT that the tool accepts and that holds no row-bound clause and no
    call of COUNT, SUM, AVG, MAX or MIN is handed to the driver as it is
    when GROUP BY stands right after a BACKSPACE character, and with
    [ LIMIT 200] appended otherwise, in particular whenever the text holds
    no BACKSPACE. *)
Theorem gemini_group_by_is_bounded (D : driver) (sql : str) (w : world D) :
  leads_with (lit "select") (normalise sql) ->
  contains ";" (normalise sql) = false ->
  ~ has_keyword forbidden_keywords sql ->
  ~ has_limit_clause (normalise sql) ->
  ~ (exists f, In f aggregate_functions /\ has_call (lit f) (normalise sql)) ->
  (has_backspace_group_by (normalise sql) ->
   Gemini._run sql w
     = (returned (fetch (normalise sql) (db w)),
        logged [Connect; Execute (normalise sql); Close] w)) /\
  (~ has_backspace_group_by (normalise sql) ->
   Gemini._run sql w
     = (returned (fetch (normalise sql ++ lit " LIMIT 200") (db w)),
        logged [Connect; Execute (normalise sql ++ lit " LIMIT 200"); Close] w)) /\
  (contains backspace (normalise sql) = false ->
   ~ has_backspace_group_by (normalise sql)).
Proof.
  intros Hs Hc Hf Hl Hn. rewrite (gemini_accepted D sql w Hs Hf Hc). cbv zeta.
  rewrite (not_true_iff _ _ (limit_iff _) Hl). cbn [negb andb].
  split; [|split].
  - intros Hb.
    assert (E : Re.search aggregate_re_ro (normalise sql) = true)
      by (apply aggregate_ro_iff; now right).
    now rewrite E.
  - intros Hb.
    assert (E : Re.search aggregate_re_ro (normalise sql) = false).
    { apply (not_true_iff _ _ (aggregate_ro_iff _)). tauto. }
    now rewrite E.
  - intros Hb H. apply backspace_group_by_contains in H. congruence.
Qed.

Lemma gemini_group_by_is_bounded_witness :
  has_group_by true (normalise (lit "SELECT major FROM students GROUP BY major")) /\
  Gemini._run (lit "SELECT major FROM students GROUP BY major") Toy.w0
    = (PDict [lit "n"] [[0]],
       World (D := Toy.D) []
         [Connect;
          Execute (lit "SELECT major FROM students GROUP BY major LIMIT 200");
          Close]).
Proof.
  assert (H0 : has_group_by true
                 (normalise (lit "SELECT major FROM students GROUP BY major"))).
  { exists (lit "SELECT major FROM students "), (lit "GROUP"), (lit " "), (lit "BY"),
      (lit " major").
    repeat split; try reflexivity. discriminate. }
  assert (H1 : leads_with (lit "select")
                 (normalise (lit "SELECT major FROM students GROUP BY major"))).
  { apply select_iff. vm_compute. reflexivity. }
  assert (H2 : contains ";" (normalise (lit "SELECT major FROM students GROUP BY major"))
               = false) by (vm_compute; reflexivity).
  assert (H3 : ~ has_keyword forbidden_keywords
                 (lit "SELECT major FROM students GROUP BY major")).
  { intros H. apply (search_keyword_iff forbidden_keywords _ forbidden_keywords_ok) in H.
    vm_compute in H. discriminate. }
  assert (H4 : ~ has_limit_clause
                 (normalise (lit "SELECT major FROM students GROUP BY major"))).
  { intros H. apply limit_iff in H. vm_compute in H. discriminate. }
  assert (H5 : ~ (exists f, In f aggregate_functions /\
                   has_call (lit f)
                     (normalise (lit "SELECT major FROM students GROUP BY major")))).
  { intros H. apply aggregate_ro_call in H. vm_compute in H. discriminate. }
  assert (H6 : ~ has_backspace_group_by
                 (normalise (lit "SELECT major FROM students GROUP BY major"))).
  { intros H. assert (E : Re.search aggregate_re_ro
                 (normalise (lit "SELECT major FROM students GROUP BY major")) = true)
      by (apply aggregate_ro_iff; now right).
    vm_compute in E. discriminate. }
  split; [exact H0|].
  exact (proj1 (proj2 (gemini_group_by_is_bounded Toy.D _ Toy.w0 H1 H2 H3 H4 H5)) H6).
Defined.

(** * Beyond the claims: the read-only school tools *)

Lemma school_keywords_ok : Forall (fun kw => keyword (lit kw)) school_keywords.
Proof. now apply keywords_ok. Qed.

Lemma school_normalise (sql : str) :
  Re.search school_re (normalise sql) = true <-> has_keyword school_keywords sql.
Proof.
  rewrite <- (has_keyword_normalise _ sql school_keywords_ok).
  exact (search_keyword_iff school_keywords _ school_keywords_ok).
Qed.

Lemma has_keyword_incl (kws kws' : list string) (s : str) :
  incl kws kws' -> has_keyword kws s -> has_keyword kws' s.
Proof. intros Hi (kw & Hin & H). exists kw. split; [now apply Hi | exact H]. Qed.

Lemma dangerous_in_school : incl dangerous_keywords school_keywords.
Proof. intros kw H. simpl in *. tauto. Qed.

Lemma write_in_school : incl write_keywords school_keywords.
Proof. intros kw H. simpl in *. tauto. Qed.

(** X17.  [SecureSchoolSQLTool._run] of [chat_school_agent.py],
    [school_management_agent.py] and [material_school_agent.py] cannot
    change the data source, whatever text is submitted.  It answers with a
    message that starts with [ERROR: ] or with a table.  Either it leaves
    the data source alone, or it hands one statement to the driver, returns
    what the driver answers and never commits; the statement is the trimmed
    input, alone or followed by [ LIMIT 100], where the trimmed input starts
    with SELECT, holds no separator, and the input holds none of INSERT,
    UPDATE, DELETE, DROP, TRUNCATE, ALTER, CREATE, REPLACE, EXEC, EXECUTE as
    a word. *)
Theorem school_tool_never_writes (D : driver) (sql : str) (w : world D) :
  db (snd (School._run sql w)) = db w /\
  ((exists e, fst (School._run sql w) = PStr e /\
              starts_with (lit "ERROR: ") e = true) \/
   (exists cols rows, fst (School._run sql w) = PDict cols rows)) /\
  (snd (School._run sql w) = w \/
   exists t,
     School._run sql w
       = (returned (fetch t (db w)), logged [Connect; Execute t; Close] w) /\
     (t = normalise sql \/ t = normalise sql ++ lit " LIMIT 100") /\
     leads_with (lit "select") (normalise sql) /\
     ~ has_keyword school_keywords sql /\
     contains ";" (normalise sql) = false).
Proof.
  unfold School._run. cbv zeta.
  destruct (Re.search school_re (normalise sql)) eqn:Hf.
  { split; [reflexivity|]. split; [left; eexists; split; reflexivity | now left]. }
  destruct (contains ";" (normalise sql)) eqn:Hc.
  { split; [reflexivity|]. split; [left; eexists; split; reflexivity | now left]. }
  destruct (Re.match_ select_re (normalise sql)) eqn:Hs; cbn [negb].
  2: { split; [reflexivity|]. split; [left; eexists; split; reflexivity | now left]. }
  assert (Hf' : ~ has_keyword school_keywords sql).
  { intros H. apply school_normalise in H. congruence. }
  apply select_iff in Hs.
  match goal with
  | |- context [with_connection_ro ?x w] =>
      assert (Ht : x = normalise sql \/ x = normalise sql ++ lit " LIMIT 100")
        by (destruct (_ && _); auto);
      revert Ht; generalize x
  end.
  intros t Ht. rewrite (with_connection_ro_read D t w). cbn [fst snd].
  split; [reflexivity|]. split.
  - unfold fetch.
    destruct (exec_driver_sql D t (db w)) as [e | [result pending]]; cbn [returned].
    + left. eexists. split; reflexivity.
    + right. eauto.
  - right. exists t. now repeat split.
Qed.

(** X18.  Where the school tools run a statement or refuse it for its
    separator, the gateway of [main.py] does the same for every caller,
    authorized or not: on an input that holds none of the ten keywords of
    the school tools and whose trimmed text starts with SELECT or holds a
    separator, both return the same value and have the same effects. *)
Theorem school_tool_agrees_with_main
        (D : driver) (sm : option SecurityManager) (sql : str) (w : world D) :
  ~ has_keyword school_keywords sql ->
  leads_with (lit "select") (normalise sql) \/ contains ";" (normalise sql) = true ->
  Main._run sm sql w = School._run sql w.
Proof.
  intros Hk Hs.
  assert (Hd : ~ has_keyword dangerous_keywords sql)
    by (intros H; apply Hk; exact (has_keyword_incl _ _ _ dangerous_in_school H)).
  assert (Hw : ~ has_keyword write_keywords sql)
    by (intros H; apply Hk; exact (has_keyword_incl _ _ _ write_in_school H)).
  unfold Main._run, School._run. cbv zeta.
  rewrite (not_true_iff _ _ (dangerous_normalise sql) Hd),
    (not_true_iff _ _ (write_normalise sql) Hw),
    (not_true_iff _ _ (school_normalise sql) Hk).
  cbn [andb].
  destruct (contains ";" (normalise sql)) eqn:Hc; [reflexivity|].
  destruct Hs as [Hs | Hs]; [|discriminate].
  apply select_iff in Hs. rewrite Hs, (select_allowed _ Hs). cbn [negb andb].
  set (t := if negb (Re.search limit_re (normalise sql))
               && negb (Re.search aggregate_re (normalise sql))
            then normalise sql ++ lit " LIMIT 100" else normalise sql).
  assert (Ht : Re.match_ select_re t = true).
  { unfold t. destruct (_ && _); [now apply (select_app_limit _ "LIMIT 100") | exact Hs]. }
  unfold with_connection, with_connection_ro. rewrite Ht.
  now destruct (exec_driver_sql D t (db w)) as [e | [result pending]].
Qed.

Lemma school_tool_agrees_with_main_witness :
  ~ has_keyword school_keywords (lit "SELECT name FROM students WHERE gpa > 3;") /\
  Main._run Toy.guest (lit "SELECT name FROM students WHERE gpa > 3;") Toy.w0
    = School._run (lit "SELECT name FROM students WHERE gpa > 3;") Toy.w0.
Proof.
  assert (H1 : ~ has_keyword school_keywords
                 (lit "SELECT name FROM students WHERE gpa > 3;")).
  { intros H. apply (search_keyword_iff school_keywords _ school_keywords_ok) in H.
    vm_compute in H. discriminate. }
  assert (H2 : leads_with (lit "select")
                 (normalise (lit "SELECT name FROM students WHERE gpa > 3;"))).
  { apply select_iff. vm_compute. reflexivity. }
  split; [exact H1|].
  exact (school_tool_agrees_with_main Toy.D Toy.guest _ Toy.w0 H1 (or_introl H2)).
Defined.

(** X3.  Whatever text is submitted, the gateway of [main.py] contacts the
    driver at most once per call, and only with a statement that passed
    every validation layer: the statement is the trimmed input, alone or
    followed by [ LIMIT 100]; the input holds no dangerous keyword; the
    trimmed input holds no separator and starts with SELECT, UPDATE, INSERT
    or DELETE; and if the input holds a write keyword the caller is
    authorized. *)
Theorem main_executes_only_validated
        (D : driver) (sm : option SecurityManager) (sql : str) (w : world D) :
  snd (Main._run sm sql w) = w \/
  exists t es,
    trace (snd (Main._run sm sql w)) = trace w ++ es /\
    (es = [Connect; Execute t; Close] \/ es = [Connect; Execute t; Commit; Close]) /\
    (t = normalise sql \/ t = normalise sql ++ lit " LIMIT 100") /\
    ~ has_keyword dangerous_keywords sql /\
    contains ";" (normalise sql) = false /\
    (exists kw, In kw allowed_keywords /\ leads_with (lit kw) (normalise sql)) /\
    (has_keyword write_keywords sql -> not_authenticated sm = false).
Proof.
  unfold Main._run. cbv zeta.
  destruct (Re.search dangerous_re (normalise sql)) eqn:Hd; [now left|].
  destruct (Re.search write_re (normalise sql) && not_authenticated sm) eqn:Hw;
    [now left|].
  destruct (contains ";" (normalise sql)) eqn:Hc; [now left|].
  destruct (Re.match_ allowed_re (normalise sql)) eqn:Ha; [|now left].
  cbn [negb]. change (if Re.match_ select_re (normalise sql) && _ && _ then _ else _)
    with (with_limit (normalise sql)).
  right. exists (with_limit (normalise sql)).
  destruct (with_connection (with_limit (normalise sql)) w) as [r w'] eqn:Hx.
  assert (Hw' : snd (let (s, w'0) := (r, w') in
                     match s with
                     | inl e => (PStr (lit "ERROR: " ++ e), w'0)
                     | inr v => (v, w'0)
                     end) = w') by now destruct r.
  rewrite Hw'. clear Hw'.
  destruct (execution_commit D _ w r w' Ha Hx) as (es & E & _ & Hes).
  exists es. split; [exact E|]. split.
  { destruct Hes as [(-> & _) | (Hs & -> & _)]; [now left|].
    right. now rewrite (with_limit_other _ Hs). }
  split; [apply with_limit_cases|].
  split; [intros H; apply dangerous_normalise in H; congruence|].
  split; [reflexivity|]. split; [now apply allowed_iff|].
  intros H. apply write_normalise in H. rewrite H in Hw. exact Hw.
Qed.

(** * Beyond the claims: the batch *)

Lemma drop_while_head (p : ascii -> bool) (l : str) :
  (forall c, In c l -> p c = false) -> drop_while p l = l.
Proof.
  destruct l as [|c l]; [reflexivity|]. intros H. simpl.
  now rewrite (H c (or_introl eq_refl)).
Qed.

Lemma rstrip_no_semicolon (s : str) :
  contains ";" s = false -> rstrip (lit ";") s = s.
Proof.
  intros H. unfold rstrip, rstrip_by. rewrite drop_while_head.
  - apply rev_involutive.
  - intros c Hin. apply in_rev in Hin. unfold mem_char. cbn [lit list_ascii_of_string existsb].
    rewrite orb_false_r. destruct (Ascii.eqb c ";") eqn:E; [|reflexivity].
    apply Ascii.eqb_eq in E. subst c. unfold contains in H.
    assert (Hex : existsb (Ascii.eqb ";") s = true).
    { apply existsb_exists. exists ";"%char. split; [exact Hin | apply Ascii.eqb_refl]. }
    congruence.
Qed.

Lemma contains_strip (s : str) :
  contains ";" s = false -> contains ";" (strip s) = false.
Proof.
  destruct (strip_split s) as (l & r & E & _). intros H.
  rewrite E, !contains_app in H.
  apply orb_false_iff in H as [_ H]. now apply orb_false_iff in H as [H _].
Qed.

(** Without a separator in the trimmed input, [main.py] does what one turn
    of the loop of [app.py] does. *)
Lemma main_as_body (D : driver) (sm : option SecurityManager) (sql : str) (w : world D) :
  contains ";" (normalise sql) = false ->
  Main._run sm sql w =
  match App.body sm (normalise sql) w with
  | (inl e, w') => (PStr e, w')
  | (inr v, w') => (v, w')
  end.
Proof.
  intros Hc. unfold Main._run, App.body. cbv zeta. rewrite Hc.
  destruct (Re.search dangerous_re _); [reflexivity|].
  destruct (_ && not_authenticated sm); [reflexivity|].
  destruct (negb _); [reflexivity|].
  now destruct (with_connection _ w) as [[e | v] w'].
Qed.

(** X4.  On an input that holds no separator and is not blank, the batch
    gateway of [app.py] and the single-statement gateway of [main.py] do the
    same: same returned value, same effects on the data source. *)
Theorem single_statement_batch_agrees
        (D : driver) (sm : option SecurityManager) (sql : str) (w : world D) :
  contains ";" sql = false ->
  strip sql <> [] ->
  App._run sm sql w = Main._run sm sql w.
Proof.
  intros Hc Hne.
  assert (Hn : normalise sql = strip sql).
  { unfold normalise. apply rstrip_no_semicolon. now apply contains_strip. }
  rewrite (main_as_body D sm sql w); [|rewrite Hn; now apply contains_strip].
  unfold App._run, App.statements. rewrite (split_nosep _ _ Hc). cbn [filter].
  destruct (strip sql) as [|c s] eqn:E; [congruence|].
  cbn [truthy map App.loop]. rewrite E, Hn.
  now destruct (App.body sm (c :: s) w) as [[e | v] w'].
Qed.

Lemma single_statement_batch_agrees_witness :
  contains ";" (lit "  delete from grades where id = 3 ") = false /\
  strip (lit "  delete from grades where id = 3 ") <> [] /\
  App._run Toy.admin (lit "  delete from grades where id = 3 ") Toy.w0
    = Main._run Toy.admin (lit "  delete from grades where id = 3 ") Toy.w0.
Proof.
  assert (H1 : contains ";" (lit "  delete from grades where id = 3 ") = false)
    by reflexivity.
  assert (H2 : strip (lit "  delete from grades where id = 3 ") <> [])
    by (vm_compute; discriminate).
  split; [exact H1|]. split; [exact H2|].
  exact (single_statement_batch_agrees Toy.D Toy.admin _ Toy.w0 H1 H2).
Defined.

Lemma starts_with_app (p x : str) : starts_with p (p ++ x) = true.
Proof.
  induction p as [|c p IH]; [reflexivity|]. simpl.
  now rewrite Ascii.eqb_refl, IH.
Qed.

Lemma validation_errors_prefix (e : str) :
  In e validation_errors -> starts_with (lit "ERROR: ") e = true.
Proof. intros [<- | [<- | [<- | [<- | []]]]]; reflexivity. Qed.

Lemma executed_app (a b : list event) : executed (a ++ b) = executed a ++ executed b.
Proof.
  induction a as [|e a IH]; [reflexivity|]. destruct e; simpl; now rewrite IH.
Qed.

(** One turn of the loop hands the statement to the driver or refuses it
    without a trace; what it returns from inside the loop starts with
    [ERROR: ]. *)
Lemma body_executed (D : driver) (sm : option SecurityManager) (s : str)
      (w : world D) (r : str + pyval (Value D)) (w' : world D) :
  App.body sm s w = (r, w') ->
  (forall e, r = inl e -> starts_with (lit "ERROR: ") e = true) /\
  (forall v, r = inr v -> produced v) /\
  exists es,
    trace w' = trace w ++ es /\
    ((es = [] /\ exists e, r = inl e) \/ executed es = [with_limit s]).
Proof.
  intros H. pose proof H as H0.
  apply body_cases in H as [(-> & e & -> & He) | (_ & _ & Ha & r0 & Hc & ->)].
  - split; [intros e' [= <-]; now apply validation_errors_prefix|].
    split; [discriminate|]. exists []. rewrite app_nil_r. split; [reflexivity|].
    left. eauto.
  - split.
    { destruct r0 as [e | v]; [|discriminate].
      intros e' [= <-]. reflexivity. }
    split.
    { intros v Hv. rewrite Hv in H0. eapply body_inr_shape. exact H0. }
    destruct (execution_commit D s w r0 w' Ha Hc) as (es & E & Hex & _).
    exists es. split; [exact E | now right].
Qed.

(** The loop runs the statements in their order and stops at the first one
    that is refused or fails. *)
Lemma loop_order (D : driver) (sm : option SecurityManager) (l : list str)
      (acc : list (pyval (Value D))) (w : world D) :
  exists k es,
    k <= List.length l /\
    trace (snd (App.loop sm l acc w)) = trace w ++ es /\
    executed es = map with_limit (firstn k l) /\
    (forall e, fst (App.loop sm l acc w) = inl e ->
               starts_with (lit "ERROR: ") e = true) /\
    (forall rs, fst (App.loop sm l acc w) = inr rs ->
                k = List.length l /\
                exists new, rs = acc ++ new /\
                            List.length new = List.length l /\
                            Forall produced new).
Proof.
  revert acc w. induction l as [|s l IH]; intros acc w.
  - exists 0, []. cbn [App.loop fst snd]. rewrite app_nil_r.
    split; [apply le_n|]. split; [reflexivity|]. split; [reflexivity|].
    split; [discriminate|].
    intros rs0 [= <-]. split; [reflexivity|]. exists []. now rewrite app_nil_r.
  - cbn [App.loop]. destruct (App.body sm s w) as [[e | v] w1] eqn:Hb.
    + destruct (body_executed D sm s w _ _ Hb) as (He & _ & es & E & Hes).
      cbn [fst snd].
      destruct Hes as [(-> & _) | Hes].
      * exists 0, []. split; [cbn; lia|]. split; [exact E|].
        split; [reflexivity|]. split; [|discriminate].
        intros e' [= <-]. now apply He.
      * exists 1, es. split; [cbn; lia|]. split; [exact E|].
        split; [exact Hes|]. split; [|discriminate].
        intros e' [= <-]. now apply He.
    + destruct (body_executed D sm s w _ _ Hb) as (_ & Hv & es & E & Hes).
      destruct Hes as [(_ & e & He) | Hes]; [discriminate|].
      destruct (IH (acc ++ [v]) w1) as (k & es' & Hk & E' & Hex & Hinl & Hinr).
      exists (S k), (es ++ es').
      split; [cbn; lia|].
      split; [rewrite E', E; now rewrite app_assoc|].
      split; [rewrite executed_app, Hes, Hex; reflexivity|].
      split; [exact Hinl|].
      intros rs0 H. destruct (Hinr rs0 H) as (-> & new & -> & Hlen & Hnew).
      split; [reflexivity|].
      exists (v :: new). rewrite <- app_assoc.
      split; [reflexivity|]. split; [cbn; now rewrite Hlen|].
      constructor; [now apply Hv | exact Hnew].
Qed.

Lemma produced_shape {V : Type} (v : pyval V) :
  produced v -> table_or_acknowledgment v.
Proof.
  intros [H | (operation & ->)]; [now left | right].
  now exists (upper operation).
Qed.

(** X5.  What [_run] of [app.py] returns for a batch of [n] statements: a
    message that starts with [ERROR: ] as soon as one statement is refused
    or fails (nothing is said of the statements that ran before); else the
    results of all the statements in their order, as a list of [n] tables
    and acknowledgments when [n] is not one, and as the bare table or
    acknowledgment when [n] is one. *)
Theorem batch_result_shape
        (D : driver) (sm : option SecurityManager) (sql : str) (w : world D) :
  (exists e, fst (App._run sm sql w) = PStr e /\
             starts_with (lit "ERROR: ") e = true) \/
  (List.length (App.statements sql) = 1 /\
   table_or_acknowledgment (fst (App._run sm sql w))) \/
  (List.length (App.statements sql) <> 1 /\
   exists rs, fst (App._run sm sql w) = PList rs /\
              List.length rs = List.length (App.statements sql) /\
              Forall table_or_acknowledgment rs).
Proof.
  unfold App._run.
  destruct (loop_order D sm (App.statements sql) [] w)
    as (k & es & _ & _ & _ & Hinl & Hinr).
  destruct (App.loop sm (App.statements sql) [] w) as [[e | rs] w'];
    cbn [fst snd] in *.
  - left. exists e. split; [reflexivity | now apply Hinl].
  - right. destruct (Hinr rs eq_refl) as (_ & new & -> & Hlen & Hnew).
    cbn [app] in *. rewrite <- Hlen.
    apply (Forall_impl _ (@produced_shape (Value D))) in Hnew.
    destruct new as [|v [|v' new]].
    + right. split; [discriminate|]. exists []. now repeat split.
    + left. split; [reflexivity|]. now apply Forall_inv in Hnew.
    + right. split; [discriminate|]. eexists. now repeat split.
Qed.

(** X6.  The batch gateway of [app.py] hands the statements of the input to
    the driver strictly in their order, each with its default row bound, and
    stops at the first statement that is refused or fails: the statements
    executed by a call are those of a prefix of the batch, and of the whole
    batch when the loop runs to its end. *)
Theorem batch_runs_in_order
        (D : driver) (sm : option SecurityManager) (sql : str) (w : world D) :
  exists k es,
    k <= List.length (App.statements sql) /\
    trace (snd (App._run sm sql w)) = trace w ++ es /\
    executed es = map with_limit (firstn k (App.statements sql)) /\
    (forall rs, fst (App.loop sm (App.statements sql) [] w) = inr rs ->
                k = List.length (App.statements sql)).
Proof.
  destruct (loop_order D sm (App.statements sql) [] w)
    as (k & es & Hk & E & Hex & _ & Hinr).
  exists k, es. split; [exact Hk|]. split.
  - unfold App._run.
    now destruct (App.loop sm (App.statements sql) [] w) as [[e | rs] w'].
  - split; [exact Hex|]. intros rs H. now destruct (Hinr rs H).
Qed.

(** * Beyond the claims: what the caller reads off the answer *)

Lemma split_ws_aux_head (cur t : str) :
  cur <> [] ->
  exists tail rest, split_ws_aux cur t = (rev cur ++ tail) :: rest.
Proof.
  revert cur. induction t as [|c t IH]; intros cur Hne; simpl.
  - destruct cur; [congruence|]. exists [], []. now rewrite app_nil_r.
  - destruct (isspace c).
    + destruct cur; [congruence|]. exists [], (split_ws_aux [] t).
      now rewrite app_nil_r.
    + destruct (IH (c :: cur)) as (tail & rest & E); [discriminate|].
      exists (c :: tail), rest. rewrite E. simpl. now rewrite <- app_assoc.
Qed.

(** The first token of a statement starts with the first letter of its
    leading keyword. *)
Lemma leads_with_first_token (kw s : str) :
  keyword kw -> leads_with kw s ->
  exists x tail rest,
    split_ws s = (x :: tail) :: rest /\ letter x = true /\
    hd_error (map lower kw) = Some (lower x).
Proof.
  intros [Hne Hl] (ws & mid & post & -> & Hws & Hm & _).
  pose proof (same_word_nonempty _ _ Hm Hne) as Hmid.
  pose proof (same_word_letters _ _ Hm Hl) as Hlet.
  destruct mid as [|x mid]; [congruence|].
  simpl in Hlet. apply andb_true_iff in Hlet as [Hx _].
  unfold split_ws. rewrite (split_ws_aux_spaces ws _ Hws).
  cbn [app split_ws_aux]. rewrite (letter_not_space x Hx).
  destruct (split_ws_aux_head [x] (mid ++ post)) as (tail & rest & E); [discriminate|].
  exists x, tail, rest. split; [exact E|]. split; [exact Hx|].
  unfold same_word in Hm. rewrite <- Hm. reflexivity.
Qed.

(** The acknowledgment of an accepted write does not start with [ERROR]. *)
Lemma acknowledgment_not_error_prefix (s operation : str) (rest : list str) :
  Re.match_ allowed_re s = true ->
  split_ws s = operation :: rest ->
  starts_with (lit "ERROR") (acknowledgment operation) = false.
Proof.
  intros Ha Hop. apply allowed_iff in Ha as (kw & Hin & Hl).
  pose proof allowed_keywords_ok as Hk. rewrite Forall_forall in Hk.
  destruct (leads_with_first_token _ _ (Hk kw Hin) Hl)
    as (x & tail & rest' & E & Hx & Hhd).
  rewrite Hop in E. injection E as -> _.
  unfold acknowledgment, upper. cbn [flat_map].
  rewrite <- (upper_lower x Hx).
  destruct Hin as [<- | [<- | [<- | [<- | []]]]];
    injection Hhd as <-; reflexivity.
Qed.

(** X7.  A string returned by [_run] of [main.py] starts with [ERROR]
    exactly when the call failed.  If it does, the committed contents of the
    data source are the ones before the call.  If it does not, it is the
    acknowledgment of a write that was executed and committed: it ends with
    [ operation completed successfully], and what stands before is the first
    token of the statement in upper case (stated for the tokens whose
    capitals are characters of Latin-1). *)
Theorem error_prefix_exact
        (D : driver) (sm : option SecurityManager) (sql : str)
        (w w' : world D) (s : str) :
  Main._run sm sql w = (PStr s, w') ->
  (starts_with (lit "ERROR") s = true /\ db w' = db w) \/
  (starts_with (lit "ERROR") s = false /\
   trace w' = trace w ++ [Connect; Execute (normalise sql); Commit; Close] /\
   (exists name, s = name ++ lit " operation completed successfully") /\
   exists operation rest,
     split_ws (normalise sql) = operation :: rest /\
     (upper_closed operation = true -> s = acknowledgment operation)).
Proof.
  intros H. apply main_cases in H
    as [(-> & e & [= ->] & He) | (_ & Ha & r0 & Hc & Hr)].
  - left. split; [|reflexivity].
    destruct He as [<- | [<- | [<- | [<- | []]]]]; reflexivity.
  - destruct (execution_commit D _ w r0 w' Ha Hc)
      as (es & E & _ & [(_ & Hdb & Hr0) | (Hs & -> & Hr0)]).
    + destruct Hr0 as [(e & ->) | (cols & rows & ->)]; [|discriminate].
      injection Hr as ->. left. now split.
    + destruct Hr0 as [(Hdb & e & ->) | (op & rest & Hop & ->)].
      * injection Hr as ->. left. now split.
      * injection Hr as ->. right.
        split; [exact (acknowledgment_not_error_prefix _ op rest Ha Hop)|].
        split; [exact E|]. split; [now exists (upper op)|].
        now exists op, rest.
Qed.

Lemma error_prefix_exact_witness :
  Main._run Toy.admin (lit "update students set gpa = 4 where id = 1") Toy.w0
    = (PStr (lit "UPDATE operation completed successfully"),
       World (D := Toy.D)
         [lit "update students set gpa = 4 where id = 1"]
         [Connect; Execute (lit "update students set gpa = 4 where id = 1");
          Commit; Close]) /\
  ((starts_with (lit "ERROR") (lit "UPDATE operation completed successfully") = true /\
    [lit "update students set gpa = 4 where id = 1"] = db Toy.w0) \/
   (starts_with (lit "ERROR") (lit "UPDATE operation completed successfully") = false /\
    [Connect; Execute (lit "update students set gpa = 4 where id = 1");
     Commit; Close]
      = trace Toy.w0 ++
        [Connect;
         Execute (normalise (lit "update students set gpa = 4 where id = 1"));
         Commit; Close] /\
    (exists name,
        lit "UPDATE operation completed successfully"
          = name ++ lit " operation completed successfully") /\
    exists operation rest,
      split_ws (normalise (lit "update students set gpa = 4 where id = 1"))
        = operation :: rest /\
      (upper_closed operation = true ->
       lit "UPDATE operation completed successfully" = acknowledgment operation))).
Proof.
  assert (H : Main._run Toy.admin (lit "update students set gpa = 4 where id = 1") Toy.w0
    = (PStr (lit "UPDATE operation completed successfully"),
       World (D := Toy.D)
         [lit "update students set gpa = 4 where id = 1"]
         [Connect; Execute (lit "update students set gpa = 4 where id = 1");
          Commit; Close])) by reflexivity.
  split; [exact H|].
  exact (error_prefix_exact Toy.D Toy.admin _ Toy.w0 _ _ H).
Defined.

(** X8.  An input that is empty once trimmed (the empty string, white
    space, or white space followed by separators only) is refused by the
    single-statement gateways with the message of their leading-keyword
    layer, and the data source is not contacted. *)
Theorem blank_input_refused
        (D : driver) (sm : option SecurityManager) (sql : str) (w : world D) :
  (forallb isspace sql = true -> normalise sql = []) /\
  (normalise sql = [] ->
   Main._run sm sql w = (PStr err_only, w) /\
   Gemini._run sql w = (PStr Gemini.err_only, w)).
Proof.
  split.
  - intros H. unfold normalise. now rewrite (strip_spaces sql H).
  - intros H. unfold Main._run, Gemini._run. rewrite H. now split.
Qed.

Lemma blank_input_refused_witness :
  normalise (lit "  ;;") = [] /\
  Main._run Toy.admin (lit "  ;;") Toy.w0 = (PStr err_only, Toy.w0) /\
  Gemini._run (lit "  ;;") Toy.w0 = (PStr Gemini.err_only, Toy.w0).
Proof.
  assert (H : normalise (lit "  ;;") = []) by reflexivity.
  split; [exact H|].
  exact (proj2 (blank_input_refused Toy.D Toy.admin (lit "  ;;") Toy.w0) H).
Defined.

Lemma word_run_keyword (kws : list string) (s : str) :
  forallb is_word s = true -> has_keyword kws s ->
  exists kw, In kw kws /\ same_word s (lit kw).
Proof.
  intros Hw (kw & Hin & pre & mid & post & -> & Hm & Hp & Hn).
  exists kw. split; [exact Hin|].
  rewrite !forallb_app in Hw.
  apply andb_true_iff in Hw as [Hpre Hw]. apply andb_true_iff in Hw as [_ Hpost].
  assert (pre = []) as ->.
  { destruct pre as [|c pre _] using rev_ind; [reflexivity|].
    rewrite forallb_app in Hpre. apply andb_true_iff in Hpre as [_ Hc].
    simpl in Hc. rewrite andb_true_r in Hc.
    unfold last_char in Hp. rewrite prev_of_snoc in Hp. simpl in Hp. congruence. }
  assert (post = []) as ->.
  { destruct post as [|c post]; [reflexivity|].
    simpl in Hpost, Hn. apply andb_true_iff in Hpost as [Hc _]. congruence. }
  now rewrite app_nil_r.
Qed.

(** X9.  The keyword layers look for whole words.  On the trimmed input of
    [main.py] and [gemini_agent.py], and on a statement of the batch of
    [app.py], the dangerous-keyword test, the write-keyword test and the
    forbidden-keyword test of the read-only tool succeed exactly when one of
    their keywords stands in the text, in any case, with no word character
    right before or right after it; trimming the input changes nothing to
    that.  In particular a single word (letters, digits, underscores) that
    merely contains a keyword does not trigger them: it does only when the
    whole word is the keyword. *)
Theorem keyword_layers_exact (sql : str) :
  (Re.search dangerous_re (normalise sql) = true <->
   has_keyword dangerous_keywords sql) /\
  (Re.search write_re (normalise sql) = true <->
   has_keyword write_keywords sql) /\
  (Re.search forbidden_re (normalise sql) = true <->
   has_keyword forbidden_keywords sql) /\
  (Re.search dangerous_re sql = true <-> has_keyword dangerous_keywords sql) /\
  (Re.search write_re sql = true <-> has_keyword write_keywords sql) /\
  (forallb is_word sql = true ->
   (Re.search dangerous_re sql = true ->
    exists kw, In kw dangerous_keywords /\ same_word sql (lit kw)) /\
   (Re.search write_re sql = true ->
    exists kw, In kw write_keywords /\ same_word sql (lit kw))).
Proof.
  split; [apply dangerous_normalise|]. split; [apply write_normalise|].
  split; [apply forbidden_normalise|]. split; [apply dangerous_iff|].
  split; [apply write_iff|].
  intros Hw. split; intros H.
  - apply dangerous_iff in H. now apply word_run_keyword.
  - apply write_iff in H. now apply word_run_keyword.
Qed.

(** * Beyond the claims: the context window of the chat agent *)

Lemma skipn_snoc {A : Type} (k : nat) (l : list A) (x : A) :
  k <= List.length l -> skipn k (l ++ [x]) = skipn k l ++ [x].
Proof.
  intros H. rewrite skipn_app.
  replace (k - List.length l) with 0 by lia. reflexivity.
Qed.

(** The negative slice of a list that ends with [x] ends with [x]. *)
Lemma slice_from_snoc {A : Type} (n : Z) (l : list A) (x : A) :
  (1 <= n)%Z ->
  exists kept, slice_from (- n) (l ++ [x]) = kept ++ [x] /\
               (Z.of_nat (List.length kept) < n)%Z /\
               exists dropped, l = dropped ++ kept.
Proof.
  intros Hn. unfold slice_from.
  replace (- n <? 0)%Z with true by (symmetry; apply Z.ltb_lt; lia).
  rewrite length_app. cbn [List.length].
  set (k := Z.to_nat (Z.max 0 (Z.of_nat (List.length l + 1) + - n))).
  assert (Hk : k <= List.length l) by (unfold k; lia).
  exists (skipn k l). split; [now apply skipn_snoc|]. split.
  - rewrite length_skipn. unfold k. lia.
  - exists (firstn k l). now rewrite firstn_skipn.
Qed.

Lemma add_to_context_snoc (n : Z) (window : list message) (r c : str) :
  (1 <= n)%Z ->
  exists kept,
    Chat.add_to_context n window r c = kept ++ [Message r c] /\
    (Z.of_nat (List.length kept) < n)%Z /\
    exists dropped, window = dropped ++ kept.
Proof.
  intros Hn. unfold Chat.add_to_context. cbv zeta.
  destruct (Z.of_nat (List.length (window ++ [Message r c])) >? n)%Z eqn:E.
  - now apply slice_from_snoc.
  - exists window. split; [reflexivity|]. split.
    + rewrite length_app in E. cbn [List.length] in E.
      rewrite Z.gtb_ltb in E. apply Z.ltb_ge in E. lia.
    + now exists [].
Qed.

(** X10.  [add_to_context] of [main.py] keeps the context window bounded
    when the configured maximum is at least one: after every call the window
    holds at most that many messages, it ends with the message just added,
    and it is what is left of the old window, oldest messages dropped first,
    followed by the new message.  With a maximum of zero nothing is ever
    dropped: the window is the old one followed by the new message. *)
Theorem context_window_bounded
        (max_context_length : Z) (window : list message) (r c : str) :
  ((1 <= max_context_length)%Z ->
   (Z.of_nat (List.length (Chat.add_to_context max_context_length window r c))
    <= max_context_length)%Z /\
   exists dropped kept,
     window = dropped ++ kept /\
     Chat.add_to_context max_context_length window r c = kept ++ [Message r c]) /\
  (max_context_length = 0%Z ->
   Chat.add_to_context max_context_length window r c = window ++ [Message r c]).
Proof.
  split.
  - intros Hn.
    destruct (add_to_context_snoc max_context_length window r c Hn)
      as (kept & E & Hlen & dropped & Hw).
    split.
    + rewrite E, length_app. cbn [List.length]. lia.
    + now exists dropped, kept.
  - intros ->. unfold Chat.add_to_context. cbv zeta.
    rewrite length_app. cbn [List.length].
    replace (Z.of_nat (List.length window + 1) >? 0)%Z with true
      by (symmetry; apply Z.gtb_lt; lia).
    reflexivity.
Qed.

Lemma context_window_bounded_witness :
  (1 <= 2)%Z /\
  (Z.of_nat (List.length
               (Chat.add_to_context 2
                  [Message (lit "user") (lit "a"); Message (lit "assistant") (lit "b")]
                  (lit "user") (lit "c"))) <= 2)%Z.
Proof.
  assert (H : (1 <= 2)%Z) by lia.
  split; [exact H|].
  exact (proj1 (proj1 (context_window_bounded 2
                         [Message (lit "user") (lit "a");
                          Message (lit "assistant") (lit "b")]
                         (lit "user") (lit "c")) H)).
Defined.

Lemma join_snoc (sep : str) (parts : list str) (x : str) :
  exists pre, join sep (parts ++ [x]) = pre ++ x.
Proof.
  induction parts as [|p parts (pre & IH)]; [now exists []|].
  destruct parts as [|p' parts].
  - exists (p ++ sep). cbn. now rewrite <- app_assoc.
  - exists (p ++ sep ++ pre). cbn [app join] in *. rewrite IH.
    now rewrite <- !app_assoc.
Qed.

(** X11.  After [add_to_context] (maximum at least one), the context string
    handed to the language model by [get_context_string] ends with the line
    of the message just added: [User: ] or [Assistant: ] followed by its
    content, the label being [User] only for the role [user]. *)
Theorem context_string_ends_with_latest
        (max_context_length : Z) (window : list message) (r c : str) :
  (1 <= max_context_length)%Z ->
  exists before,
    Chat.get_context_string (Chat.add_to_context max_context_length window r c)
    = before ++ Chat.context_line (Message r c).
Proof.
  intros Hn.
  destruct (add_to_context_snoc max_context_length window r c Hn)
    as (kept & -> & _).
  unfold Chat.get_context_string.
  destruct (kept ++ [Message r c]) as [|m rest] eqn:E.
  { destruct kept; discriminate. }
  rewrite <- E. clear E m rest.
  destruct (slice_from_snoc 5 kept (Message r c)) as (last5 & E5 & _); [lia|].
  cbn [Z.opp] in E5. rewrite E5, map_app. cbn [map]. apply join_snoc.
Qed.

Lemma context_string_ends_with_latest_witness :
  (1 <= 10)%Z /\
  exists before,
    Chat.get_context_string
      (Chat.add_to_context 10 [Message (lit "user") (lit "show students")]
         (lit "assistant") (lit "Successfully retrieved 3 records"))
    = before ++ Chat.context_line
                  (Message (lit "assistant") (lit "Successfully retrieved 3 records")).
Proof.
  assert (H : (1 <= 10)%Z) by lia.
  split; [exact H|].
  exact (context_string_ends_with_latest 10
           [Message (lit "user") (lit "show students")]
           (lit "assistant") (lit "Successfully retrieved 3 records") H).
Defined.

(** * Beyond the claims: cleaning the answer of the language model *)

Lemma starts_with_prefix (p s r : str) :
  starts_with p s = true -> starts_with p (s ++ r) = true.
Proof.
  revert s. induction p as [|a p IH]; intros s; [reflexivity|].
  destruct s as [|b s]; [discriminate|]. cbn [app starts_with].
  intros H. apply andb_true_iff in H as [Hab H]. now rewrite Hab, (IH s H).
Qed.

Lemma is_infix_suffix (p l s : str) :
  is_infix p s = true -> is_infix p (l ++ s) = true.
Proof.
  intros H. induction l as [|c l IH]; [exact H|].
  cbn [app is_infix]. now rewrite IH, orb_true_r.
Qed.

Lemma is_infix_prefix (p s r : str) :
  is_infix p s = true -> is_infix p (s ++ r) = true.
Proof.
  induction s as [|c s IH]; cbn [is_infix app].
  - rewrite orb_false_r. intros H. destruct p; [|discriminate].
    now destruct r.
  - intros H. apply orb_true_iff in H as [H | H].
    + pose proof (starts_with_prefix p (c :: s) r H) as H'.
      cbn [app] in H'. now rewrite H'.
    + now rewrite (IH H), orb_true_r.
Qed.

Lemma is_infix_strip (p s : str) :
  is_infix p (strip s) = true -> is_infix p s = true.
Proof.
  destruct (strip_split s) as (l & r & E & _). intros H.
  rewrite E. apply is_infix_suffix. now apply is_infix_prefix.
Qed.

Lemma sub_fence_tick (t : str) :
  starts_with (lit "`") t = false ->
  starts_with (lit "`") (sub_literal_spaces fence 0 false t) = false.
Proof.
  destruct t as [|y t]; [reflexivity|].
  cbn [sub_literal_spaces andb]. intros H.
  assert (Hy : Ascii.eqb "`" y = false).
  { cbn [lit list_ascii_of_string starts_with] in H.
    now rewrite andb_true_r in H. }
  unfold fence at 1. cbn [lit list_ascii_of_string starts_with].
  rewrite Hy. cbn [andb starts_with]. now rewrite Hy.
Qed.

Lemma sub_fence_two_ticks (t : str) :
  starts_with (lit "``") t = false ->
  starts_with (lit "``") (sub_literal_spaces fence 0 false t) = false.
Proof.
  destruct t as [|x t]; [reflexivity|].
  cbn [sub_literal_spaces andb]. intros H.
  cbn [lit list_ascii_of_string starts_with] in H.
  unfold fence at 1. cbn [lit list_ascii_of_string starts_with].
  destruct (Ascii.eqb "`" x) eqn:Hx; cbn [andb] in *.
  - assert (Ht : starts_with (lit "`") t = false) by exact H.
    assert (Ht2 : match t with
                  | [] => false
                  | b :: s' =>
                      Ascii.eqb "`" b &&
                      match s' with [] => false | b0 :: _ => Ascii.eqb "`" b0 && true end
                  end = false).
    { destruct t as [|y t]; [reflexivity|].
      cbn [lit list_ascii_of_string starts_with] in Ht.
      rewrite andb_true_r in Ht. now rewrite Ht. }
    rewrite Ht2. cbn [starts_with]. rewrite Hx. cbn [andb].
    exact (sub_fence_tick t Ht).
  - cbn [starts_with]. now rewrite Hx.
Qed.

Lemma sub_fence_clean (skip : nat) (spaces : bool) (s : str) :
  is_infix fence (sub_literal_spaces fence skip spaces s) = false.
Proof.
  revert skip spaces. induction s as [|c s IH]; intros skip spaces; [reflexivity|].
  cbn [sub_literal_spaces]. destruct skip as [|k]; [|apply IH].
  destruct (spaces && isspace c); [apply IH|].
  destruct (starts_with fence (c :: s)) eqn:Hm; [apply IH|].
  cbn [is_infix]. rewrite IH, orb_false_r.
  unfold fence at 1. cbn [lit list_ascii_of_string starts_with].
  destruct (Ascii.eqb "`" c) eqn:Hc; [|reflexivity]. cbn [andb].
  change (starts_with (lit "``") (sub_literal_spaces fence 0 false s) = false).
  apply sub_fence_two_ticks.
  unfold fence in Hm. cbn [lit list_ascii_of_string starts_with] in Hm.
  rewrite Hc in Hm. exact Hm.
Qed.

(** X12.  The clean-up that [process_natural_language_query] of [main.py]
    applies to the answer of the language model leaves no Markdown fence:
    whatever the answer, the text handed to the gateway does not contain
    three back quotes in a row. *)
Theorem cleaned_sql_has_no_fence (answer : str) :
  is_infix (lit "```") (clean_sql answer) = false.
Proof.
  unfold clean_sql. cbv zeta.
  destruct (is_infix (lit "```") (strip _)) eqn:E; [|reflexivity].
  apply is_infix_strip in E.
  pose proof (sub_fence_clean 0 false
                (sub_literal_spaces (lit "```sql") 0 false answer)) as H.
  unfold fence in H. congruence.
Qed.

Lemma sub_literal_plain (p : str) (a b : str) :
  contains "`" a = false ->
  sub_literal_spaces ("`"%char :: p) 0 false (a ++ b)
  = a ++ sub_literal_spaces ("`"%char :: p) 0 false b.
Proof.
  unfold contains. induction a as [|c a IH]; [reflexivity|].
  cbn [existsb]. intros H. apply orb_false_iff in H as [Hc Ha].
  cbn [app sub_literal_spaces andb starts_with]. rewrite Hc. cbn [andb].
  now rewrite (IH Ha).
Qed.

Lemma sub_literal_spaces_mode (p : str) (s : str) :
  sub_literal_spaces p 0 true s
  = sub_literal_spaces p 0 false (drop_while isspace s).
Proof.
  induction s as [|c s IH]; [reflexivity|].
  cbn [drop_while]. destruct (isspace c) eqn:Hc.
  - cbn [sub_literal_spaces andb]. now rewrite Hc.
  - cbn [sub_literal_spaces andb]. now rewrite Hc.
Qed.

Lemma sub_literal_skip (p x s : str) :
  sub_literal_spaces p (List.length x) true (x ++ s)
  = sub_literal_spaces p 0 true s.
Proof.
  induction x as [|c x IH]; [reflexivity|].
  cbn [List.length app sub_literal_spaces]. exact IH.
Qed.

Lemma drop_while_stop (p : ascii -> bool) (a b : str) (x : ascii) :
  p x = false -> drop_while p (a ++ x :: b) = drop_while p a ++ x :: b.
Proof.
  intros Hx. induction a as [|c a IH]; cbn [app drop_while].
  - now rewrite Hx.
  - destruct (p c); [exact IH | reflexivity].
Qed.

Lemma drop_while_idem (p : ascii -> bool) (s : str) :
  drop_while p (drop_while p s) = drop_while p s.
Proof.
  induction s as [|c s IH]; [reflexivity|]. cbn [drop_while].
  destruct (p c) eqn:Hc; [exact IH|]. cbn [drop_while]. now rewrite Hc.
Qed.

Lemma contains_drop_while (p : ascii -> bool) (s : str) :
  contains "`" s = false -> contains "`" (drop_while p s) = false.
Proof.
  destruct (drop_while_split p s) as (l & E & _). intros H.
  rewrite E, contains_app in H. now apply orb_false_iff in H as [_ H].
Qed.

(** X13.  The clean-up of [main.py] unwraps a fenced answer and leaves a
    plain one alone: for a query text without back quotes, the answer
    [```sql], the text, [```] is cleaned to the trimmed text, and so is the
    text alone. *)
Theorem fenced_answer_unwrapped (q : str) :
  contains "`" q = false ->
  clean_sql (lit "```sql" ++ q ++ lit "```") = strip q /\
  clean_sql q = strip q.
Proof.
  intros Hq. split.
  - unfold clean_sql. cbv zeta.
    assert (E1 : sub_literal_spaces (lit "```sql") 0 false
                   (lit "```sql" ++ q ++ lit "```")
                 = drop_while isspace q ++ lit "```").
    { change (lit "```sql" ++ q ++ lit "```")
        with ("`"%char :: lit "``sql" ++ q ++ lit "```").
      cbn [sub_literal_spaces andb].
      replace (starts_with (lit "```sql") ("`"%char :: lit "``sql" ++ q ++ lit "```"))
        with true by (symmetry; apply (starts_with_app (lit "```sql"))).
      change (List.length (lit "```sql") - 1) with (List.length (lit "``sql")).
      rewrite sub_literal_skip, sub_literal_spaces_mode.
      change (q ++ lit "```") with (q ++ "`"%char :: lit "``").
      rewrite (drop_while_stop isspace q (lit "``") "`"%char eq_refl).
      change (lit "```sql") with ("`"%char :: lit "``sql").
      rewrite (sub_literal_plain (lit "``sql") _ _ (contains_drop_while isspace q Hq)).
      reflexivity. }
    rewrite E1.
    change (lit "```") with ("`"%char :: lit "``") at 1.
    rewrite (sub_literal_plain (lit "``") _ _ (contains_drop_while isspace q Hq)).
    change (sub_literal_spaces ("`"%char :: lit "``") 0 false (lit "```"))
      with (@nil ascii).
    rewrite app_nil_r. unfold strip, lstrip_by. now rewrite drop_while_idem.
  - unfold clean_sql. cbv zeta.
    rewrite <- (app_nil_r q) at 1.
    change (lit "```sql") with ("`"%char :: lit "``sql").
    rewrite (sub_literal_plain (lit "``sql") q [] Hq). cbn [sub_literal_spaces].
    rewrite app_nil_r. rewrite <- (app_nil_r q) at 1.
    change (lit "```") with ("`"%char :: lit "``").
    rewrite (sub_literal_plain (lit "``") q [] Hq). cbn [sub_literal_spaces].
    now rewrite app_nil_r.
Qed.

Lemma fenced_answer_unwrapped_witness :
  contains "`" (lit " SELECT name FROM students ") = false /\
  clean_sql (lit "```sql" ++ lit " SELECT name FROM students " ++ lit "```")
    = strip (lit " SELECT name FROM students ").
Proof.
  assert (H : contains "`" (lit " SELECT name FROM students ") = false)
    by reflexivity.
  split; [exact H|].
  exact (proj1 (fenced_answer_unwrapped (lit " SELECT name FROM students ") H)).
Defined.

(** * Beyond the claims: from the question to the gateway ([app.py]) *)







(** * Beyond the claims: conversational questions ([main.py]) *)

Lemma not_skipped (ql : str) :
  ~ In ql (map lit skipped_queries) ->
  existsb (fun q => if list_eq_dec ascii_dec ql (lit q) then true else false)
          skipped_queries = false.
Proof.
  intros H. destruct (existsb _ skipped_queries) eqn:E; [|reflexivity].
  apply existsb_exists in E as (q & Hin & Hq).
  destruct (list_eq_dec ascii_dec ql (lit q)) as [-> | _]; [|discriminate].
  destruct H. now apply in_map.
Qed.

(** X15.  [handle_conversational_query] of [main.py] looks for its phrases
    anywhere in the question.  So every question of three characters or
    more (lower case, trimmed) that is not one of the skipped words and that
    contains a greeting phrase, for instance the letters [hi] inside a
    longer word, is answered conversationally: the function does not return
    [None] for it. *)
Theorem greeting_inside_question_is_conversational (query : str) :
  3 <= List.length (strip (str_lower query)) ->
  ~ In (strip (str_lower query)) (map lit skipped_queries) ->
  any_in greeting_phrases (strip (str_lower query)) = true ->
  handle_conversational_query query <> NotConversational.
Proof.
  intros Hlen Hskip Hg. unfold handle_conversational_query. cbv zeta.
  replace (List.length (strip (str_lower query)) <? 3) with false
    by (symmetry; apply Nat.ltb_ge; exact Hlen).
  rewrite (not_skipped _ Hskip). cbn [orb].
  destruct (any_in topic_phrases _); [discriminate|].
  destruct (any_in previous_data_phrases _); [discriminate|].
  destruct (any_in chart_phrases _); [discriminate|].
  destruct (any_in capability_phrases _); [discriminate|].
  rewrite Hg. discriminate.
Qed.

Lemma greeting_inside_question_is_conversational_witness :
  3 <= List.length (strip (str_lower (lit "Which students have the highest GPA?"))) /\
  ~ In (strip (str_lower (lit "Which students have the highest GPA?")))
       (map lit skipped_queries) /\
  any_in greeting_phrases
    (strip (str_lower (lit "Which students have the highest GPA?"))) = true /\
  handle_conversational_query (lit "Which students have the highest GPA?")
    <> NotConversational.
Proof.
  assert (H1 : 3 <= List.length
                      (strip (str_lower (lit "Which students have the highest GPA?"))))
    by (vm_compute; lia).
  assert (H2 : ~ In (strip (str_lower (lit "Which students have the highest GPA?")))
                    (map lit skipped_queries)).
  { vm_compute. intros [H | [H | [H | [H | [H | [H | [H | [H | []]]]]]]]];
      discriminate. }
  assert (H3 : any_in greeting_phrases
                 (strip (str_lower (lit "Which students have the highest GPA?")))
               = true) by (vm_compute; reflexivity).
  split; [exact H1|]. split; [exact H2|]. split; [exact H3|].
  exact (greeting_inside_question_is_conversational _ H1 H2 H3).
Defined.
